(** * Data-access layer of the event application: models and connection cache

    A shallow embedding of [src/database/event.model.ts] (the Event and
    Booking schemas with their pre-save hooks) and of [src/lib/mongodb.ts]
    (the cached Mongoose connection), followed by the properties proved
    about them.

    Strings are JavaScript strings whose code units are all below 256: a
    [string] of the Standard Library, each [ascii] read as one code unit. *)

From Stdlib Require Import ZArith NArith String Ascii List Bool Lia.
From stdpp Require Import base list.

Local Open Scope string_scope.
Local Open Scope Z_scope.

(** ** The JavaScript primitives the sources call *)

Module JS.

Definition code (c : ascii) : Z := Z.of_N (N_of_ascii c).

(** White space of [String.prototype.trim] and of the class [\s], among
    the code units below 256: TAB, LF, VT, FF, CR, SP and NBSP. *)
Definition isWhiteSpace (c : ascii) : bool :=
  ((9 <=? code c) && (code c <=? 13)) || (code c =? 32) || (code c =? 160).

(** [\d] without the unicode flag: the ten ASCII digits. *)
Definition isDigit (c : ascii) : bool := (48 <=? code c) && (code c <=? 57).

Definition inRange (lo hi c : ascii) : bool :=
  (code lo <=? code c) && (code c <=? code hi).

Fixpoint trimStart (s : string) : string :=
  match s with
  | EmptyString => EmptyString
  | String c r => if isWhiteSpace c then trimStart r else s
  end.

Fixpoint trimEnd (s : string) : string :=
  match s with
  | EmptyString => EmptyString
  | String c r =>
      match trimEnd r with
      | EmptyString => if isWhiteSpace c then EmptyString else String c EmptyString
      | r' => String c r'
      end
  end.

Definition trim (s : string) : string := trimEnd (trimStart s).

(** [toLowerCase] on one code unit below 256: A-Z, and the Latin-1
    capitals U+00C0..U+00DE except the multiplication sign U+00D7. *)
Definition isUpper (c : ascii) : bool :=
  ((65 <=? code c) && (code c <=? 90))
  || ((192 <=? code c) && (code c <=? 222) && negb (code c =? 215)).

Definition lowerChar (c : ascii) : ascii :=
  if isUpper c then ascii_of_N (Z.to_N (code c + 32)) else c.

Fixpoint toLowerCase (s : string) : string :=
  match s with
  | EmptyString => EmptyString
  | String c r => String (lowerChar c) (toLowerCase r)
  end.

(** A JavaScript string is falsy exactly when it is empty. *)
Definition truthy (s : string) : bool :=
  match s with EmptyString => false | _ => true end.

(** Truthiness of a value that is a string or is missing ([undefined]). *)
Definition present (value : option string) : bool :=
  match value with Some v => truthy v | None => false end.

Definition digitValue (c : ascii) : Z := code c - 48.

Definition digitChar (d : Z) : ascii := ascii_of_N (Z.to_N (48 + d)).

(** Value of a run of decimal digits, most significant first. *)
Fixpoint digitsValue (acc : Z) (s : string) : Z :=
  match s with
  | EmptyString => acc
  | String c r => digitsValue (10 * acc + digitValue c) r
  end.

(** [parseInt(s, 10)] on a string that starts with a digit: the value of
    its longest prefix of digits; [None] stands for NaN. *)
Fixpoint digitPrefix (s : string) : string :=
  match s with
  | String c r => if isDigit c then String c (digitPrefix r) else EmptyString
  | EmptyString => EmptyString
  end.

Definition parseInt10 (s : string) : option Z :=
  match digitPrefix s with
  | EmptyString => None
  | ds => Some (digitsValue 0 ds)
  end.

(** [n.toString()] for a non-negative integer [n]. *)
Fixpoint toStringFuel (fuel : nat) (n : Z) (acc : string) : string :=
  match fuel with
  | O => acc
  | S k =>
      let acc' := String (digitChar (n mod 10)) acc in
      if n / 10 =? 0 then acc' else toStringFuel k (n / 10) acc'
  end.

Definition toString (n : Z) : string :=
  toStringFuel (S (Z.to_nat (Z.log2 n))) n EmptyString.

Fixpoint repeatChar (n : nat) (c : ascii) : string :=
  match n with O => EmptyString | S k => String c (repeatChar k c) end.

(** [s.padStart(w, c)] with a one-character filler. *)
Definition padStart (w : nat) (c : ascii) (s : string) : string :=
  repeatChar (w - String.length s) c ++ s.

(** [w] decimal digits of [n], most significant first ([n] taken modulo
    [10^w]): the fixed-width fields of [Date.prototype.toISOString]. *)
Fixpoint fixedDigits (w : nat) (n : Z) (acc : string) : string :=
  match w with
  | O => acc
  | S k => fixedDigits k (n / 10) (String (digitChar (n mod 10)) acc)
  end.

(** *** Dates (ECMAScript, Date objects)

    A time value is a number of milliseconds since 1970-01-01T00:00:00Z,
    an integer of absolute value at most [maxTime]. *)

Definition msPerDay : Z := 86400000.
Definition maxTime : Z := 8640000000000000.

Definition Day (t : Z) : Z := t / msPerDay.

Definition DayFromYear (y : Z) : Z :=
  365 * (y - 1970) + (y - 1969) / 4 - (y - 1901) / 100 + (y - 1601) / 400.

Definition isLeapYear (y : Z) : bool :=
  (y mod 4 =? 0) && (negb (y mod 100 =? 0) || (y mod 400 =? 0)).

Definition InLeapYear (y : Z) : Z := if isLeapYear y then 1 else 0.

(** The largest [y] with [DayFromYear y <= d]: a first guess from the mean
    length of a year, moved by one year when it misses. *)
Definition YearFromDay (d : Z) : Z :=
  let y := 1970 + (400 * d) / 146097 in
  if d <? DayFromYear y then y - 1
  else if DayFromYear (y + 1) <=? d then y + 1
  else y.

Definition DayWithinYear (d : Z) : Z := d - DayFromYear (YearFromDay d).

(** Day within the year on which month [m] (0 = January) starts; [L] is 1
    in a leap year. *)
Definition monthStart (L m : Z) : Z :=
  match m with
  | 0 => 0 | 1 => 31 | 2 => 59 + L | 3 => 90 + L | 4 => 120 + L
  | 5 => 151 + L | 6 => 181 + L | 7 => 212 + L | 8 => 243 + L
  | 9 => 273 + L | 10 => 304 + L | 11 => 334 + L | _ => 365 + L
  end.

Definition MonthFromDay (d : Z) : Z :=
  let L := InLeapYear (YearFromDay d) in
  let w := DayWithinYear d in
  if w <? 31 then 0 else if w <? 59 + L then 1 else if w <? 90 + L then 2
  else if w <? 120 + L then 3 else if w <? 151 + L then 4
  else if w <? 181 + L then 5 else if w <? 212 + L then 6
  else if w <? 243 + L then 7 else if w <? 273 + L then 8
  else if w <? 304 + L then 9 else if w <? 334 + L then 10 else 11.

Definition DateFromDay (d : Z) : Z :=
  DayWithinYear d - monthStart (InLeapYear (YearFromDay d)) (MonthFromDay d) + 1.

(** [MakeDay(year, month, date)] for a month in 0..11. *)
Definition MakeDay (year month date : Z) : Z :=
  DayFromYear year + monthStart (InLeapYear year) month + date - 1.

(** The year of [toISOString]: four digits from 0 to 9999, otherwise a sign
    and six digits. *)
Definition isoYear (y : Z) : string :=
  if (0 <=? y) && (y <=? 9999) then fixedDigits 4 y EmptyString
  else String (if y <? 0 then "-"%char else "+"%char) (fixedDigits 6 (Z.abs y) EmptyString).

Definition isoDatePart (d : Z) : string :=
  isoYear (YearFromDay d) ++ "-" ++ fixedDigits 2 (MonthFromDay d + 1) EmptyString
    ++ "-" ++ fixedDigits 2 (DateFromDay d) EmptyString.

Definition isoTimePart (ms : Z) : string :=
  fixedDigits 2 (ms / 3600000) EmptyString ++ ":"
    ++ fixedDigits 2 (ms / 60000 mod 60) EmptyString ++ ":"
    ++ fixedDigits 2 (ms / 1000 mod 60) EmptyString ++ "."
    ++ fixedDigits 3 (ms mod 1000) EmptyString.

(** [Date.prototype.toISOString] of a valid time value. *)
Definition toISOString (t : Z) : string :=
  isoDatePart (Day t) ++ "T" ++ isoTimePart (t mod msPerDay) ++ "Z".

(** [s.split(sep)[0]] for a one-character separator: what precedes its
    first occurrence, the whole string when there is none. *)
Fixpoint splitHead (sep : ascii) (s : string) : string :=
  match s with
  | EmptyString => EmptyString
  | String c r => if Ascii.eqb c sep then EmptyString else String c (splitHead sep r)
  end.

(** What the host provides: [Date.parse], whose result on strings that are
    not in the ECMAScript date-time format is left to the implementation
    and may depend on the local time zone. [None] stands for NaN. *)
Record Runtime : Type := { Date_parse : string -> option Z }.

(** What the standard does fix about [Date.parse]: a result is a time
    value, and the date-only form [YYYY-MM-DD] (with the expanded years of
    [toISOString]) is read as midnight UTC of that day. *)
Definition timeValues (rt : Runtime) : Prop :=
  forall s t, Date_parse rt s = Some t -> - maxTime <= t <= maxTime.

Definition dateOnlyAsUTC (rt : Runtime) : Prop :=
  forall d, - 100000000 <= d <= 100000000 ->
            Date_parse rt (isoDatePart d) = Some (d * msPerDay).

(** Errors a [save()] rejects with: one made in a hook by
    [new Error(message)], a value that a query threw and the hook caught,
    or the [ValidationError] of Mongoose, which lists the paths whose
    schema validators failed. *)
Inductive Error : Type :=
| NewError (message : string)
| Caught (reason : string)
| ValidationError (paths : list string).

(** The two ways a hook ends: [next()] or [next(err)]. *)
Inductive Outcome : Type :=
| Next
| NextErr (err : Error).

End JS.

(** ** A host for closed examples

    Statements about every host take a [Runtime] as a parameter. Where a
    concrete one is needed, this one is used: a [Date.parse] that reads the
    date-only form of the ECMAScript format as UTC, as the standard
    requires, and [Month D, YYYY] as local time, as V8 does, for a local
    zone at a fixed number of minutes east of UTC. Other strings are
    outside of what it covers and give NaN. *)

Module Host.
Import JS.

(** Exactly [n] digits, then the rest. *)
Fixpoint takeDigits (n : nat) (acc : Z) (s : string) : option (Z * string) :=
  match n with
  | O => Some (acc, s)
  | S k =>
      match s with
      | String c r =>
          if isDigit c then takeDigits k (10 * acc + digitValue c) r else None
      | EmptyString => None
      end
  end.

Definition expectChar (c : ascii) (s : string) : option string :=
  match s with
  | String d r => if Ascii.eqb d c then Some r else None
  | EmptyString => None
  end.

(** [YYYY], [+YYYYYY] or [-YYYYYY]; the year -000000 is not allowed. *)
Definition yearField (s : string) : option (Z * string) :=
  match s with
  | String c r =>
      if Ascii.eqb c "+" then takeDigits 6 0 r
      else if Ascii.eqb c "-" then
        '(y, r') ← takeDigits 6 0 r;
        if y =? 0 then None else Some (- y, r')
      else takeDigits 4 0 s
  | EmptyString => None
  end.

Definition timeClip (t : Z) : option Z :=
  if (- maxTime <=? t) && (t <=? maxTime) then Some t else None.

Definition parseDateOnly (s : string) : option Z :=
  '(y, r1) ← yearField s;
  r2 ← expectChar "-" r1;
  '(m, r3) ← takeDigits 2 0 r2;
  r4 ← expectChar "-" r3;
  '(d, r5) ← takeDigits 2 0 r4;
  if negb (truthy r5) && (1 <=? m) && (m <=? 12) && (1 <=? d) && (d <=? 31)
  then timeClip (MakeDay y (m - 1) d * msPerDay)
  else None.

Definition isLetter (c : ascii) : bool :=
  inRange "a" "z" c || inRange "A" "Z" c.

Fixpoint takeLetters (s : string) : string * string :=
  match s with
  | String c r =>
      if isLetter c
      then let '(w, rest) := takeLetters r in (String (lowerChar c) w, rest)
      else (EmptyString, s)
  | EmptyString => (EmptyString, EmptyString)
  end.

(** A month is recognised by the first three letters of its name. *)
Definition monthOfName (w : string) : option Z :=
  match w with
  | String a (String b (String c _)) =>
      let k := String a (String b (String c EmptyString)) in
      if String.eqb k "jan" then Some 0 else if String.eqb k "feb" then Some 1
      else if String.eqb k "mar" then Some 2 else if String.eqb k "apr" then Some 3
      else if String.eqb k "may" then Some 4 else if String.eqb k "jun" then Some 5
      else if String.eqb k "jul" then Some 6 else if String.eqb k "aug" then Some 7
      else if String.eqb k "sep" then Some 8 else if String.eqb k "oct" then Some 9
      else if String.eqb k "nov" then Some 10 else if String.eqb k "dec" then Some 11
      else None
  | _ => None
  end.

(** One or two digits. *)
Definition dayField (s : string) : option (Z * string) :=
  match takeDigits 2 0 s with
  | Some r => Some r
  | None => takeDigits 1 0 s
  end.

(** [Month D, YYYY] read as midnight of that day in the local zone. *)
Definition parseMonthDayYear (minutesEast : Z) (s : string) : option Z :=
  let '(w, r1) := takeLetters s in
  m ← monthOfName w;
  '(d, r2) ← dayField (trimStart r1);
  r3 ← expectChar "," r2;
  '(y, r4) ← takeDigits 4 0 (trimStart r3);
  if negb (truthy r4) && (1 <=? d) && (d <=? 31)
  then timeClip (MakeDay y m d * msPerDay - minutesEast * 60000)
  else None.

Definition parse (minutesEast : Z) (s : string) : option Z :=
  match parseDateOnly s with
  | Some t => Some t
  | None => parseMonthDayYear minutesEast s
  end.

Definition runtime (minutesEast : Z) : Runtime :=
  {| Date_parse := parse minutesEast |}.

End Host.

(** ** [src/database/event.model.ts] *)

Module EventModel.
Import JS.

(** The class [[a-z0-9]]. *)
Definition isSlugChar (c : ascii) : bool :=
  inRange "a" "z" c || inRange "0" "9" c.

(** [.replace(/[^a-z0-9]+/g, '-')]: scanning from the left, every maximal
    run of characters outside [[a-z0-9]] becomes one hyphen. [inRun] says
    that the previous character belonged to the run being replaced. *)
Fixpoint replaceRuns (inRun : bool) (s : string) : string :=
  match s with
  | EmptyString => EmptyString
  | String c r =>
      if isSlugChar c then String c (replaceRuns false r)
      else if inRun then replaceRuns true r
      else String "-" (replaceRuns true r)
  end.

Definition isHyphen (c : ascii) : bool := Ascii.eqb c "-".

(** [.replace(/^-+|-+$/g, '')]: the first alternative removes the hyphens
    the string starts with, the second the hyphens it ends with. *)
Fixpoint stripLeadingHyphens (s : string) : string :=
  match s with
  | EmptyString => EmptyString
  | String c r => if isHyphen c then stripLeadingHyphens r else s
  end.

Fixpoint stripTrailingHyphens (s : string) : string :=
  match s with
  | EmptyString => EmptyString
  | String c r =>
      match stripTrailingHyphens r with
      | EmptyString => if isHyphen c then EmptyString else String c EmptyString
      | r' => String c r'
      end
  end.

Definition stripHyphens (s : string) : string :=
  stripTrailingHyphens (stripLeadingHyphens s).

Definition slugify (value : string) : string :=
  stripHyphens (replaceRuns false (toLowerCase (trim value))).

(** [/^([0-2]?\d):([0-5]\d)$/]: the two captures, hour and minute. With
    five characters the optional [[0-2]] is taken, with four it is not. *)
Definition matchColon (s : string) : option (string * string) :=
  match s with
  | String a (String b (String c (String d (String e EmptyString)))) =>
      if inRange "0" "2" a && isDigit b && Ascii.eqb c ":"
         && inRange "0" "5" d && isDigit e
      then Some (String a (String b EmptyString), String d (String e EmptyString))
      else None
  | String b (String c (String d (String e EmptyString))) =>
      if isDigit b && Ascii.eqb c ":" && inRange "0" "5" d && isDigit e
      then Some (String b EmptyString, String d (String e EmptyString))
      else None
  | _ => None
  end.

(** [/^([0-2]?\d)([0-5]\d)$/]. *)
Definition matchCompact (s : string) : option (string * string) :=
  match s with
  | String a (String b (String d (String e EmptyString))) =>
      if inRange "0" "2" a && isDigit b && inRange "0" "5" d && isDigit e
      then Some (String a (String b EmptyString), String d (String e EmptyString))
      else None
  | String b (String d (String e EmptyString)) =>
      if isDigit b && inRange "0" "5" d && isDigit e
      then Some (String b EmptyString, String d (String e EmptyString))
      else None
  | _ => None
  end.

(** [hour > 23] is false when [hour] is NaN. *)
Definition hourTooLarge (hour : option Z) : bool :=
  match hour with Some h => 23 <? h | None => false end.

Definition hourToString (hour : option Z) : string :=
  match hour with Some h => toString h | None => "NaN" end.

Definition normalizeTime (value : string) : option string :=
  let trimmed := trim value in
  match matchColon trimmed with
  | Some (h, m) =>
      let hour := parseInt10 h in
      if hourTooLarge hour then None
      else
        let hh := padStart 2 "0" (hourToString hour) in
        Some (hh ++ ":" ++ m)
  | None =>
      match matchCompact trimmed with
      | Some (h, minutes) =>
          let hour := parseInt10 h in
          if hourTooLarge hour then None
          else
            let hh := padStart 2 "0" (hourToString hour) in
            Some (hh ++ ":" ++ minutes)
      | None => None
      end
  end.

(** An Event document as the hook sees it. A field that is missing, or
    whose value is not a string (not an array), is [None].
    [isModified_title] is what [doc.isModified('title')] answers. *)
Record EventDocument : Type := {
  title : option string;
  slug : option string;
  description : option string;
  overview : option string;
  image : option string;
  venue : option string;
  location : option string;
  date : option string;
  time : option string;
  mode : option string;
  audience : option string;
  agenda : option (list string);
  organizer : option string;
  tags : option (list string);
  isModified_title : bool
}.

Definition set_slug (v : string) (doc : EventDocument) : EventDocument :=
  {| title := title doc; slug := Some v; description := description doc;
     overview := overview doc; image := image doc; venue := venue doc;
     location := location doc; date := date doc; time := time doc;
     mode := mode doc; audience := audience doc; agenda := agenda doc;
     organizer := organizer doc; tags := tags doc;
     isModified_title := isModified_title doc |}.

Definition set_date (v : string) (doc : EventDocument) : EventDocument :=
  {| title := title doc; slug := slug doc; description := description doc;
     overview := overview doc; image := image doc; venue := venue doc;
     location := location doc; date := Some v; time := time doc;
     mode := mode doc; audience := audience doc; agenda := agenda doc;
     organizer := organizer doc; tags := tags doc;
     isModified_title := isModified_title doc |}.

Definition set_time (v : string) (doc : EventDocument) : EventDocument :=
  {| title := title doc; slug := slug doc; description := description doc;
     overview := overview doc; image := image doc; venue := venue doc;
     location := location doc; date := date doc; time := Some v;
     mode := mode doc; audience := audience doc; agenda := agenda doc;
     organizer := organizer doc; tags := tags doc;
     isModified_title := isModified_title doc |}.

(** After a successful save Mongoose forgets which paths were modified. *)
Definition markSaved (doc : EventDocument) : EventDocument :=
  {| title := title doc; slug := slug doc; description := description doc;
     overview := overview doc; image := image doc; venue := venue doc;
     location := location doc; date := date doc; time := time doc;
     mode := mode doc; audience := audience doc; agenda := agenda doc;
     organizer := organizer doc; tags := tags doc;
     isModified_title := false |}.

(** The keys of [EventAttrs] listed in [requiredStringFields]. *)
Inductive Field : Type :=
| Title | Description | Overview | Image | Venue | Location
| Date | Time | Mode | Audience | Organizer.

Definition fieldName (f : Field) : string :=
  match f with
  | Title => "title" | Description => "description" | Overview => "overview"
  | Image => "image" | Venue => "venue" | Location => "location"
  | Date => "date" | Time => "time" | Mode => "mode"
  | Audience => "audience" | Organizer => "organizer"
  end.

(** [doc[field]]. *)
Definition get (f : Field) (doc : EventDocument) : option string :=
  match f with
  | Title => title doc | Description => description doc
  | Overview => overview doc | Image => image doc | Venue => venue doc
  | Location => location doc | Date => date doc | Time => time doc
  | Mode => mode doc | Audience => audience doc | Organizer => organizer doc
  end.

Definition requiredStringFields : list Field :=
  [Title; Description; Overview; Image; Venue; Location; Date; Time; Mode;
   Audience; Organizer].

(** [typeof value !== 'string' || value.trim().length === 0]. *)
Definition isBlank (value : option string) : bool :=
  match value with
  | None => true
  | Some v => negb (truthy (trim v))
  end.

(** A step of the hook: the document after it, and whether the hook goes
    on ([Next]) or has returned [next(err)]. *)
Definition Step : Type := EventDocument -> EventDocument * Outcome.

(** Two statements in a row: the second runs unless the first returned. *)
Definition andThen (s1 s2 : Step) : Step :=
  fun doc =>
    match s1 doc with
    | (doc', Next) => s2 doc'
    | (doc', NextErr e) => (doc', NextErr e)
    end.

Infix ">>>" := andThen (at level 65, right associativity).

(** The [for ... of requiredStringFields] loop. *)
Fixpoint checkRequired (fields : list Field) : Step :=
  fun doc =>
    match fields with
    | [] => (doc, Next)
    | f :: rest =>
        if isBlank (get f doc)
        then (doc, NextErr (NewError
               (fieldName f ++ " is required and must be a non-empty string.")))
        else checkRequired rest doc
    end.

(** [!Array.isArray(a) || a.length === 0]. *)
Definition noItems (a : option (list string)) : bool :=
  match a with
  | None => true
  | Some items => Nat.eqb (List.length items) 0
  end.

Definition checkAgenda : Step :=
  fun doc =>
    if noItems (agenda doc)
    then (doc, NextErr (NewError "agenda is required and must contain at least one item."))
    else (doc, Next).

Definition checkTags : Step :=
  fun doc =>
    if noItems (tags doc)
    then (doc, NextErr (NewError "tags is required and must contain at least one tag."))
    else (doc, Next).

(** [if (doc.isModified('title') || !doc.slug) doc.slug = slugify(doc.title)].
    [slugify] calls [toString] on its argument, which throws a TypeError
    when the title is missing; the hook then ends with that error. The
    check of the required fields, which runs first, excludes this case. *)
Definition deriveSlug : Step :=
  fun doc =>
    if isModified_title doc || negb (present (slug doc))
    then match title doc with
         | Some t => (set_slug (slugify t) doc, Next)
         | None => (doc, NextErr (NewError "TypeError"))
         end
    else (doc, Next).

Definition normalizeDate (rt : Runtime) : Step :=
  fun doc =>
    match date doc with
    | Some d =>
        if truthy d
        then match Date_parse rt d with
             | None => (doc, NextErr (NewError
                         "Invalid date format. Expected a valid date string."))
             | Some t => (set_date (splitHead "T" (toISOString t)) doc, Next)
             end
        else (doc, Next)
    | None => (doc, Next)
    end.

Definition normalizeTimeStep : Step :=
  fun doc =>
    match time doc with
    | Some t =>
        if truthy t
        then match normalizeTime t with
             | Some normalized =>
                 if truthy normalized
                 then (set_time normalized doc, Next)
                 else (doc, NextErr (NewError
                        "Invalid time format. Use HH:mm or a similar 24h format."))
             | None => (doc, NextErr (NewError
                         "Invalid time format. Use HH:mm or a similar 24h format."))
             end
        else (doc, Next)
    | None => (doc, Next)
    end.

(** [eventSchema.pre('save', function preSave(next) ...)]. *)
Definition preSave (rt : Runtime) : Step :=
  checkRequired requiredStringFields >>> checkAgenda >>> checkTags >>>
  deriveSlug >>> normalizeDate rt >>> normalizeTimeStep.

(** The validators of [eventSchema]. [required: true] on a string path
    fails when the value is missing or the empty string; on [agenda] and
    [tags] the path fails when there is no array or when the validator
    [value.length > 0] returns false. *)
Definition requiredString (name : string) (value : option string) : list string :=
  if present value then [] else [name].

Definition hasItems (value : list string) : bool :=
  negb (Nat.eqb (List.length value) 0).

Definition requiredItems (name : string) (value : option (list string)) : list string :=
  match value with
  | Some items => if hasItems items then [] else [name]
  | None => [name]
  end.

(** The paths of a document that fail validation, in the order of the
    schema. [slug] has no validator. *)
Definition invalidPaths (doc : EventDocument) : list string :=
  (requiredString "title" (title doc) ++
   requiredString "description" (description doc) ++
   requiredString "overview" (overview doc) ++
   requiredString "image" (image doc) ++
   requiredString "venue" (venue doc) ++
   requiredString "location" (location doc) ++
   requiredString "date" (date doc) ++
   requiredString "time" (time doc) ++
   requiredString "mode" (mode doc) ++
   requiredString "audience" (audience doc) ++
   requiredItems "agenda" (agenda doc) ++
   requiredString "organizer" (organizer doc) ++
   requiredItems "tags" (tags doc))%list.

(** [doc.save()] as Mongoose runs it. The schema validators run first: if
    a path fails, the promise rejects with a [ValidationError] and the
    hook is not called. Then the pre-save hook runs; the write is sent
    only when it ended with [next()]. [write] is the server's answer to
    it (the server can refuse, for one because of the unique index on
    [slug]); once the write is done the document has no modified path
    left. The fields of [doc] are the values the document holds, that is
    after the [trim] setters of the schema; every path is validated, as
    for a document made with [new Event(...)]. The result is the document
    in memory, the collection, and the error the returned promise rejects
    with, if any. *)
Definition save (rt : Runtime)
    (write : list EventDocument -> EventDocument -> Error + list EventDocument)
    (collection : list EventDocument)
    (doc : EventDocument) : EventDocument * list EventDocument * option Error :=
  match invalidPaths doc with
  | (_ :: _) as paths => (doc, collection, Some (ValidationError paths))
  | [] =>
      match preSave rt doc with
      | (doc', NextErr e) => (doc', collection, Some e)
      | (doc', Next) =>
          match write collection (markSaved doc') with
          | inl e => (doc', collection, Some e)
          | inr collection' => (markSaved doc', collection', None)
          end
      end
  end.

End EventModel.

(** ** [src/database/booking.model.ts] *)

Module BookingModel.
Import JS.

Definition ObjectId : Type := N.

(** A Booking document as the hook sees it, after the schema's [trim] and
    [lowercase] setters; a missing field is [None]. *)
Record BookingDocument : Type := {
  eventId : option ObjectId;
  email : option string
}.

(** The class [[^\s@]]. *)
Definition isAddrChar (c : ascii) : bool :=
  negb (isWhiteSpace c || Ascii.eqb c "@").

(** [[^\s@]+\.[^\s@]+$] on a string of [[^\s@]] characters that follows
    at least one such character: a dot with something after it. *)
Fixpoint dotThenMore (s : string) : bool :=
  match s with
  | EmptyString => false
  | String c r => (Ascii.eqb c "." && truthy r) || dotThenMore r
  end.

Fixpoint allAddrChars (s : string) : bool :=
  match s with
  | EmptyString => true
  | String c r => isAddrChar c && allAddrChars r
  end.

(** After the local part: [@], then the domain. *)
Definition matchDomain (s : string) : bool :=
  match s with
  | String c (String d r) =>
      Ascii.eqb c "@" && isAddrChar d && allAddrChars r && dotThenMore r
  | _ => false
  end.

(** The local part [[^\s@]+] ends at the first character outside the
    class, which has to be the [@]. *)
Fixpoint matchLocal (seen : bool) (s : string) : bool :=
  match s with
  | EmptyString => false
  | String c r => if isAddrChar c then matchLocal true r else seen && matchDomain s
  end.

(** [EMAIL_REGEX.test(s)] for [/^[^\s@]+@[^\s@]+\.[^\s@]+$/]. *)
Definition EMAIL_REGEX_test (s : string) : bool := matchLocal false s.

(** The [events] collection as the query sees it: the identities stored,
    and the failure the query throws when it cannot complete. *)
Record Events : Type := {
  ids : list ObjectId;
  failure : option string
}.

(** [await Event.exists({ _id: id })]: throws, or answers whether a
    document with that identity is stored. *)
Definition Event_exists (ev : Events) (id : ObjectId) : string + bool :=
  match failure ev with
  | Some reason => inl reason
  | None => inr (existsb (N.eqb id) (ids ev))
  end.

(** [bookingSchema.pre('save', async function preSave(next) ...)]. *)
Definition preSave (ev : Events) (doc : BookingDocument) : Outcome :=
  if negb (present (email doc))
     || negb (match email doc with Some e => EMAIL_REGEX_test e | None => false end)
  then NextErr (NewError "A valid email address is required.")
  else
    match eventId doc with
    | None => NextErr (NewError "eventId is required.")
    | Some id =>
        match Event_exists ev id with
        | inr eventExists =>
            if negb eventExists
            then NextErr (NewError "The referenced event does not exist.")
            else Next
        | inl error => NextErr (Caught error)
        end
    end.

(** The validators of [bookingSchema]: [eventId] and [email] are
    [required: true]; a required string fails when it is missing or
    empty. The result is the paths that fail, in the order of the
    schema. *)
Definition invalidPaths (doc : BookingDocument) : list string :=
  ((match eventId doc with Some _ => [] | None => ["eventId"] end) ++
   (if present (email doc) then [] else ["email"]))%list.

(** [doc.save()] as Mongoose runs it: the schema validators first, with
    a [ValidationError] and no hook call when a path fails; then the
    hook; the write happens only when the hook ended with [next()]. *)
Definition save (ev : Events) (collection : list BookingDocument)
    (doc : BookingDocument) : list BookingDocument * option Error :=
  match invalidPaths doc with
  | (_ :: _) as paths => (collection, Some (ValidationError paths))
  | [] =>
      match preSave ev doc with
      | Next => ((collection ++ [doc])%list, None)
      | NextErr e => (collection, Some e)
      end
  end.

End BookingModel.

(** ** [src/lib/mongodb.ts] *)

Module Mongodb.
Import JS.

(** The value [mongoose.connect] resolves to. *)
Definition Handle : Type := N.

Inductive Settled : Type :=
| Fulfilled (h : Handle)
| Rejected (reason : string).

Inductive PromiseState : Type :=
| Pending
| Done (r : Settled).

(** [MongooseGlobal]; a promise is named by its index in [promises]. *)
Record MongooseGlobal : Type := {
  conn : option Handle;
  promise : option nat
}.

(** One invocation of [connectToDatabase]: suspended at its [await], or
    finished with the value returned or the error thrown. *)
Inductive Call : Type :=
| Awaiting (p : nat)
| Returned (h : Handle)
| Threw (reason : string).

(** The process: the object [cached] (the same object as
    [global.mongooseConn]), the promises made so far, one for each call of
    [mongoose.connect] in the order of the calls, and the invocations of
    [connectToDatabase] in the order they were made. The promise stored is
    [mongoose.connect(...).then(x => x)], which settles as the connection
    attempt does. *)
Record World : Type := {
  cached : MongooseGlobal;
  promises : list PromiseState;
  calls : list Call
}.

Definition uninitialized : MongooseGlobal := {| conn := None; promise := None |}.

Definition initial : World :=
  {| cached := uninitialized; promises := []; calls := [] |}.

(** The module body: the check of [MONGODB_URI] and the choice of
    [cached]. [env] is [process.env.MONGODB_URI], [global_mongooseConn] the
    process as an earlier load of the module left it, if any. *)
Definition loadModule (env : option string) (global_mongooseConn : option World)
    : Error + World :=
  if negb (present env)
  then inl (NewError
         "Please define the MONGODB_URI environment variable in your environment.")
  else inr (match global_mongooseConn with
            | Some w => w
            | None => initial
            end).

(** [connectToDatabase()], from its entry to its first [await] or
    [return]: JavaScript runs this stretch without interruption. *)
Definition connectToDatabase (w : World) : World :=
  match conn (cached w) with
  | Some h =>
      {| cached := cached w; promises := promises w;
         calls := calls w ++ [Returned h] |}
  | None =>
      match promise (cached w) with
      | None =>
          let p := length (promises w) in
          {| cached := {| conn := None; promise := Some p |};
             promises := promises w ++ [Pending];
             calls := calls w ++ [Awaiting p] |}
      | Some p =>
          {| cached := cached w; promises := promises w;
             calls := calls w ++ [Awaiting p] |}
      end
  end.

(** [cached.conn = await cached.promise; return cached.conn;] for
    invocation [i], once the promise it awaits is settled. *)
Definition resume (i : nat) (w : World) : option World :=
  match calls w !! i with
  | Some (Awaiting p) =>
      match promises w !! p with
      | Some (Done (Fulfilled h)) =>
          Some {| cached := {| conn := Some h; promise := promise (cached w) |};
                  promises := promises w;
                  calls := <[i := Returned h]> (calls w) |}
      | Some (Done (Rejected e)) =>
          Some {| cached := cached w; promises := promises w;
                  calls := <[i := Threw e]> (calls w) |}
      | _ => None
      end
  | _ => None
  end.

(** The driver settles the pending connection attempt [p]. *)
Definition settle (p : nat) (r : Settled) (w : World) : option World :=
  match promises w !! p with
  | Some Pending =>
      Some {| cached := cached w; promises := <[p := Done r]> (promises w);
              calls := calls w |}
  | _ => None
  end.

(** What can happen next in the process. *)
Inductive Event : Type :=
| Invoke
| Settle (p : nat) (r : Settled)
| Resume (i : nat).

Definition step (w : World) (ev : Event) : option World :=
  match ev with
  | Invoke => Some (connectToDatabase w)
  | Settle p r => settle p r w
  | Resume i => resume i w
  end.

Fixpoint run (w : World) (evs : list Event) : option World :=
  match evs with
  | [] => Some w
  | ev :: rest =>
      match step w ev with
      | Some w' => run w' rest
      | None => None
      end
  end.

(** What an invocation, suspended or finished, says of the state [ps] of
    the attempt: it awaits the first promise, or it ended as that one
    was settled. *)
Definition agrees (ps : PromiseState) (c : Call) : Prop :=
  match c with
  | Awaiting p => p = 0%nat
  | Returned h => ps = Done (Fulfilled h)
  | Threw e => ps = Done (Rejected e)
  end.

(** What holds of the process however it got there from [initial]. *)
Definition consistent (w : World) : Prop :=
  match promises w with
  | [] => cached w = uninitialized /\ calls w = []
  | [ps] =>
      promise (cached w) = Some 0%nat
      /\ (forall h, conn (cached w) = Some h -> ps = Done (Fulfilled h))
      /\ Forall (agrees ps) (calls w)
  | _ => False
  end.

End Mongodb.

(** ** The specification's wording, for comparison with the code *)

Module Spec.
Import JS EventModel.

(** What is left of a string once the run of characters other than
    [[a-z0-9]] that it starts with is removed. *)
Fixpoint dropRun (s : string) : string :=
  match s with
  | EmptyString => EmptyString
  | String c r => if isSlugChar c then s else dropRun r
  end.

(** "Replacing every maximal run of characters other than [[a-z0-9]] with
    a single hyphen": a character of the class is kept; any other one
    starts a run, which is dropped as a whole for one hyphen. *)
Fixpoint replaceMaximalRunsFuel (fuel : nat) (s : string) : string :=
  match fuel with
  | O => EmptyString
  | S k =>
      match s with
      | EmptyString => EmptyString
      | String c r =>
          if isSlugChar c then String c (replaceMaximalRunsFuel k r)
          else String "-" (replaceMaximalRunsFuel k (dropRun r))
      end
  end.

Definition replaceMaximalRuns (s : string) : string :=
  replaceMaximalRunsFuel (String.length s) s.

(** "Trimming leading/trailing hyphens": the hyphens a string starts
    with are dropped, and the ones it ends with, which are the ones its
    reversal starts with. *)
Fixpoint withoutLeadingHyphens (s : string) : string :=
  match s with
  | EmptyString => EmptyString
  | String c r => if Ascii.eqb c "-" then withoutLeadingHyphens r else s
  end.

Fixpoint reverseOnto (s acc : string) : string :=
  match s with
  | EmptyString => acc
  | String c r => reverseOnto r (String c acc)
  end.

Definition reverse (s : string) : string := reverseOnto s EmptyString.

Definition trimHyphens (s : string) : string :=
  reverse (withoutLeadingHyphens (reverse (withoutLeadingHyphens s))).

(** "Lower-casing title, trimming, replacing every maximal run ..., then
    trimming leading/trailing hyphens". *)
Definition slug (title : string) : string :=
  trimHyphens (replaceMaximalRuns (trim (toLowerCase title))).

(** Some character of the string is a letter or a digit of ASCII. *)
Fixpoint hasAlnum (s : string) : bool :=
  match s with
  | EmptyString => false
  | String c r =>
      inRange "a" "z" c || inRange "A" "Z" c || inRange "0" "9" c || hasAlnum r
  end.

(** A number written with two digits, and with one. *)
Definition two (n : Z) : string := fixedDigits 2 n EmptyString.
Definition one (n : Z) : string := String (digitChar n) EmptyString.

(** The four ways of writing the time of hour [h] and minute [m]:
    [HH:mm], [H:mm], [HHmm], [Hmm]. *)
Inductive TimeForm (h m : Z) : string -> Prop :=
| HH_colon_mm : TimeForm h m (two h ++ ":" ++ two m)
| H_colon_mm : h <= 9 -> TimeForm h m (one h ++ ":" ++ two m)
| HHmm : TimeForm h m (two h ++ two m)
| Hmm : h <= 9 -> TimeForm h m (one h ++ two m).

(** [s] writes, in one of the four forms, a time whose hour is in 0..23
    and whose minute is in 0..59. *)
Definition AcceptedTime (s : string) (h m : Z) : Prop :=
  0 <= h <= 23 /\ 0 <= m <= 59 /\ TimeForm h m s.

Fixpoint hasSlugChar (s : string) : bool :=
  match s with
  | EmptyString => false
  | String c r => isSlugChar c || hasSlugChar r
  end.

End Spec.

(** ** Documents used in closed examples *)

Module Samples.
Import JS EventModel.

Definition event (title' date' time' : string) : EventDocument :=
  {| title := Some title'; slug := None;
     description := Some "An evening of talks";
     overview := Some "Talks and demos"; image := Some "/images/cover.png";
     venue := Some "Main hall"; location := Some "Tehran";
     date := Some date'; time := Some time'; mode := Some "offline";
     audience := Some "developers"; agenda := Some ["Doors open"; "Keynote"];
     organizer := Some "The meetup group"; tags := Some ["web"];
     isModified_title := true |}.

Definition myEvent : EventDocument := event "My Event! 2024" "March 5, 2024" "930".

Definition punctuationEvent : EventDocument := event "!!!" "2024-03-05" "09:30".

Definition badTimeEvent : EventDocument :=
  event "My Event! 2024" "March 5, 2024" "25:00".

Definition noAgendaEvent : EventDocument :=
  {| title := Some "My Event! 2024"; slug := None;
     description := Some "An evening of talks";
     overview := Some "Talks and demos"; image := Some "/images/cover.png";
     venue := Some "Main hall"; location := Some "Tehran";
     date := Some "March 5, 2024"; time := Some "930"; mode := Some "offline";
     audience := Some "developers"; agenda := Some [];
     organizer := Some "The meetup group"; tags := Some ["web"];
     isModified_title := true |}.

(** A server that accepts every write and appends the document. *)
Definition acceptWrite (collection : list EventDocument) (doc : EventDocument)
    : Error + list EventDocument :=
  inr (collection ++ [doc])%list.

(** An Event whose date is made of spaces only. *)
Definition blankDateEvent : EventDocument := event "My Event! 2024" "   " "930".

Definition storedEvents : BookingModel.Events :=
  {| BookingModel.ids := [1%N; 2%N]; BookingModel.failure := None |}.

Definition unreachableEvents : BookingModel.Events :=
  {| BookingModel.ids := [1%N; 2%N]; BookingModel.failure := Some "ECONNREFUSED" |}.

Definition orphanBooking : BookingModel.BookingDocument :=
  {| BookingModel.eventId := Some 7%N; BookingModel.email := Some "ada@example.org" |}.

Definition orphanBookingBadEmail : BookingModel.BookingDocument :=
  {| BookingModel.eventId := Some 7%N; BookingModel.email := Some "not-an-address" |}.

End Samples.

(** ** Schema options and model registration of the two model files *)

Module Schema.
Import JS.

(** The setters the Booking schema puts on [email] ([trim: true],
    [lowercase: true]): Mongoose applies them to a value when it is
    assigned, the one declared last first. *)
Definition emailSetters (value : string) : string := trim (toLowerCase value).

(** A compiled model: its name and the schema object it was compiled from.
    Schema objects are told apart by identity, here a number; every
    evaluation of a model file makes a new one. *)
Record Model : Type := { modelName : string; schemaOf : nat }.

(** [mongoose.models], the models compiled so far, by name. *)
Definition Models : Type := list (string * Model).

(** [mongoose.models[name]]. *)
Fixpoint lookupModel (name : string) (models : Models) : option Model :=
  match models with
  | [] => None
  | (n, m) :: rest => if String.eqb n name then Some m else lookupModel name rest
  end.

(** [mongoose.model(name, schema)] as Mongoose defines it: a name that is
    taken gives back its model when the schema is the very one the model
    was compiled from, and throws OverwriteModelError otherwise; a free
    name gets a new model. *)
Definition mongoose_model (name : string) (schema : nat) (models : Models)
    : Error + (Models * Model) :=
  match lookupModel name models with
  | Some m =>
      if Nat.eqb (schemaOf m) schema then inr (models, m)
      else inl (NewError ("Cannot overwrite `" ++ name ++ "` model once compiled."))
  | None =>
      let m := {| modelName := name; schemaOf := schema |} in
      inr ((name, m) :: models, m)
  end.

(** [mongoose.models.X || mongoose.model('X', xSchema)], the last statement
    of each model file. *)
Definition reuseOrCompile (name : string) (schema : nat) (models : Models)
    : Error + (Models * Model) :=
  match lookupModel name models with
  | Some m => inr (models, m)
  | None => mongoose_model name schema models
  end.

(** Evaluating [event.model.ts] with a fresh [eventSchema]. *)
Definition loadEventModel (eventSchema : nat) (models : Models)
    : Error + (Models * Model) :=
  reuseOrCompile "Event" eventSchema models.

(** Evaluating [booking.model.ts]: its import of [event.model] is evaluated
    first, then its own body with a fresh [bookingSchema]. The result is the
    registry with the models [Event] and [Booking]. *)
Definition loadBookingModel (eventSchema bookingSchema : nat) (models : Models)
    : Error + (Models * Model * Model) :=
  match loadEventModel eventSchema models with
  | inl e => inl e
  | inr (models1, event) =>
      match reuseOrCompile "Booking" bookingSchema models1 with
      | inl e => inl e
      | inr (models2, booking) => inr (models2, event, booking)
      end
  end.

End Schema.

(** ** The process of [src/lib/mongodb.ts] with reloads of the module *)

Module Reload.
Import JS Mongodb.

(** What can happen in a process in which the module is evaluated more than
    once: an evaluation of the module with the value [process.env] then
    gives to [MONGODB_URI], or an event of the loaded module. *)
Inductive ProcessEvent : Type :=
| Load (env : option string)
| Run (ev : Event).

(** The state is [global.mongooseConn], with the promises and invocations
    reached through it; [None] before the first evaluation. An evaluation
    that throws ends the process, as does an event of a module that was
    never loaded. *)
Definition processStep (g : option World) (pe : ProcessEvent) : option (option World) :=
  match pe with
  | Load env =>
      match loadModule env g with
      | inr w => Some (Some w)
      | inl _ => None
      end
  | Run ev =>
      match g with
      | Some w =>
          match step w ev with
          | Some w' => Some (Some w')
          | None => None
          end
      | None => None
      end
  end.

(** The events of the loaded module in a history of the process. *)
Fixpoint eventsOf (pes : list ProcessEvent) : list Event :=
  match pes with
  | [] => []
  | Load _ :: rest => eventsOf rest
  | Run ev :: rest => ev :: eventsOf rest
  end.

Fixpoint processRun (g : option World) (pes : list ProcessEvent) : option (option World) :=
  match pes with
  | [] => Some g
  | pe :: rest =>
      match processStep g pe with
      | Some g' => processRun g' rest
      | None => None
      end
  end.

End Reload.

(** ** Shapes of strings, for the statements about slugs and addresses *)

Module Shape.
Import JS EventModel.

Fixpoint allChars (p : ascii -> bool) (s : string) : bool :=
  match s with
  | EmptyString => true
  | String c r => p c && allChars p r
  end.

Definition startsWith (p : ascii -> bool) (s : string) : bool :=
  match s with
  | EmptyString => false
  | String c _ => p c
  end.

Fixpoint endsWith (p : ascii -> bool) (s : string) : bool :=
  match s with
  | EmptyString => false
  | String c EmptyString => p c
  | String _ r => endsWith p r
  end.

(** No two characters next to each other both satisfy [p]. *)
Fixpoint noTwoInARow (p : ascii -> bool) (s : string) : bool :=
  match s with
  | EmptyString => true
  | String c r => negb (p c && startsWith p r) && noTwoInARow p r
  end.

(** Removing the characters that satisfy [p] from the start and from the
    end of a string: what [trim] and the second [replace] of [slugify] do,
    each for its own class of characters. *)
Fixpoint dropStart (p : ascii -> bool) (s : string) : string :=
  match s with
  | EmptyString => EmptyString
  | String c r => if p c then dropStart p r else s
  end.

Fixpoint dropEnd (p : ascii -> bool) (s : string) : string :=
  match s with
  | EmptyString => EmptyString
  | String c r =>
      match dropEnd p r with
      | EmptyString => if p c then EmptyString else String c EmptyString
      | r' => String c r'
      end
  end.

(** The characters of a slug: [a-z], [0-9] and the hyphen. *)
Definition isSlugOrHyphen (c : ascii) : bool := isSlugChar c || isHyphen c.

(** The fields the Event hook has no assignment to. *)
Definition sameOtherFields (d d' : EventDocument) : Prop :=
  title d' = title d /\ description d' = description d
  /\ overview d' = overview d /\ image d' = image d /\ venue d' = venue d
  /\ location d' = location d /\ mode d' = mode d /\ audience d' = audience d
  /\ agenda d' = agenda d /\ organizer d' = organizer d /\ tags d' = tags d
  /\ isModified_title d' = isModified_title d.

End Shape.

(* ================================================================== *)
(** * Properties *)

Import JS EventModel.

(** ** The model on concrete inputs *)

Example slugify_examples :
  slugify "My Event! 2024" = "my-event-2024"
  /\ slugify "  --Hello,   World--  " = "hello-world"
  /\ slugify "a_b" = "a-b"
  /\ slugify "!!!" = EmptyString.
Proof. repeat split; reflexivity. Qed.

Example normalizeTime_examples :
  normalizeTime "930" = Some "09:30" /\ normalizeTime "25:00" = None
  /\ normalizeTime "9:05" = Some "09:05" /\ normalizeTime "2359" = Some "23:59"
  /\ normalizeTime "24:00" = None /\ normalizeTime "1:5" = None
  /\ normalizeTime "12:60" = None /\ normalizeTime "0000" = Some "00:00".
Proof. repeat split; reflexivity. Qed.

Example toISOString_examples :
  toISOString 0 = "1970-01-01T00:00:00.000Z"
  /\ toISOString 1709593200123 = "2024-03-04T23:00:00.123Z"
  /\ toISOString (-1) = "1969-12-31T23:59:59.999Z"
  /\ toISOString maxTime = "+275760-09-13T00:00:00.000Z"
  /\ toISOString (- maxTime) = "-271821-04-20T00:00:00.000Z"
  /\ isoDatePart 19782 = "2024-02-29"
  /\ isoDatePart (-719528) = "0000-01-01"
  /\ isoDatePart (-719529) = "-000001-12-31"
  /\ isoDatePart 2932896 = "9999-12-31"
  /\ isoDatePart 2932897 = "+010000-01-01".
Proof. repeat split; vm_compute; reflexivity. Qed.

Example host_parse_examples :
  Host.parse 0 "2024-03-05" = Some 1709596800000
  /\ Host.parse 60 "2024-03-05" = Some 1709596800000
  /\ Host.parse 0 "March 5, 2024" = Some 1709596800000
  /\ Host.parse 60 "March 5, 2024" = Some 1709593200000
  /\ Host.parse (-300) "March 5, 2024" = Some 1709614800000
  /\ Host.parse 0 "+275760-09-13" = Some maxTime
  /\ Host.parse 0 "+275760-09-14" = None
  /\ Host.parse 0 "not a date" = None.
Proof. repeat split; vm_compute; reflexivity. Qed.

Example EMAIL_REGEX_examples :
  BookingModel.EMAIL_REGEX_test "ada@example.org" = true
  /\ BookingModel.EMAIL_REGEX_test "a@b.c.d" = true
  /\ BookingModel.EMAIL_REGEX_test "a@b" = false
  /\ BookingModel.EMAIL_REGEX_test "a@.c" = false
  /\ BookingModel.EMAIL_REGEX_test "a@b." = false
  /\ BookingModel.EMAIL_REGEX_test "@b.c" = false
  /\ BookingModel.EMAIL_REGEX_test "a b@c.d" = false
  /\ BookingModel.EMAIL_REGEX_test "a@b@c.d" = false.
Proof. repeat split; vm_compute; reflexivity. Qed.

Example connectToDatabase_example :
  Mongodb.run Mongodb.initial
    [Mongodb.Invoke; Mongodb.Invoke; Mongodb.Settle 0 (Mongodb.Fulfilled 7%N);
     Mongodb.Resume 1; Mongodb.Invoke; Mongodb.Resume 0]
  = Some {| Mongodb.cached :=
              {| Mongodb.conn := Some 7%N; Mongodb.promise := Some 0%nat |};
            Mongodb.promises := [Mongodb.Done (Mongodb.Fulfilled 7%N)];
            Mongodb.calls :=
              [Mongodb.Returned 7%N; Mongodb.Returned 7%N; Mongodb.Returned 7%N] |}.
Proof. reflexivity. Qed.

(** ** Characters *)

Lemma code_range c : 0 <= code c < 256.
Proof. unfold code. pose proof (N_ascii_bounded c). lia. Qed.

Lemma code_inj c d : code c = code d -> c = d.
Proof.
  unfold code. intros H. apply N2Z.inj in H.
  rewrite <- (ascii_N_embedding c), <- (ascii_N_embedding d). congruence.
Qed.

Lemma eqb_code c d : Ascii.eqb c d = (code c =? code d).
Proof.
  destruct (Ascii.eqb_spec c d) as [->|Hne].
  - symmetry. apply Z.eqb_refl.
  - symmetry. apply Z.eqb_neq. intros H. apply Hne, code_inj, H.
Qed.

Lemma code_of_code n : 0 <= n < 256 -> code (ascii_of_N (Z.to_N n)) = n.
Proof. intros H. unfold code. rewrite N_ascii_embedding by lia. lia. Qed.

Lemma code_digitChar k : 0 <= k <= 9 -> code (digitChar k) = 48 + k.
Proof. intros H. unfold digitChar. apply code_of_code. lia. Qed.

Lemma code_lowerChar c :
  code (lowerChar c) = if isUpper c then code c + 32 else code c.
Proof.
  unfold lowerChar. pose proof (code_range c).
  destruct (isUpper c) eqn:E; [|reflexivity].
  apply code_of_code. unfold isUpper in E. lia.
Qed.

(** Character tests become comparisons of codes, which [lia] decides. *)
Ltac literal_codes :=
  repeat match goal with
    | |- context [code (Ascii ?a ?b ?c ?d ?e ?f ?g ?h)] =>
        let v := eval vm_compute in (code (Ascii a b c d e f g h)) in
        change (code (Ascii a b c d e f g h)) with v
    | H : context [code (Ascii ?a ?b ?c ?d ?e ?f ?g ?h)] |- _ =>
        let v := eval vm_compute in (code (Ascii a b c d e f g h)) in
        change (code (Ascii a b c d e f g h)) with v in H
    end.

Ltac char_tests :=
  unfold isSlugChar, isHyphen, isWhiteSpace, isDigit, inRange,
    BookingModel.isAddrChar, Host.isLetter in *;
  rewrite ?eqb_code, ?code_lowerChar in *;
  literal_codes.

Ltac chars :=
  char_tests;
  repeat match goal with
    | |- context [isUpper ?c] =>
        let E := fresh "E" in destruct (isUpper c) eqn:E; unfold isUpper in E
    | H : context [isUpper ?c] |- _ =>
        let E := fresh "E" in destruct (isUpper c) eqn:E; unfold isUpper in E
    end;
  lia.

Lemma slug_char_not_space c : isSlugChar c = true -> isWhiteSpace c = false.
Proof. chars. Qed.

Lemma slug_char_not_hyphen c : isSlugChar c = true -> isHyphen c = false.
Proof. chars. Qed.

Lemma lower_space c : isWhiteSpace (lowerChar c) = isWhiteSpace c.
Proof.
  pose proof (code_range c). chars.
Qed.

(** ** Strings *)

Lemma truthy_true s : truthy s = true <-> s <> EmptyString.
Proof. destruct s; simpl; split; congruence. Qed.

Lemma truthy_false s : truthy s = false <-> s = EmptyString.
Proof. destruct s; simpl; split; congruence. Qed.

Lemma lower_trimStart s : toLowerCase (trimStart s) = trimStart (toLowerCase s).
Proof.
  induction s as [|c r IH]; simpl; [reflexivity|].
  rewrite lower_space. destruct (isWhiteSpace c); [exact IH|reflexivity].
Qed.

Lemma lower_trimEnd s : toLowerCase (trimEnd s) = trimEnd (toLowerCase s).
Proof.
  induction s as [|c r IH]; simpl; [reflexivity|].
  rewrite <- IH, lower_space.
  destruct (trimEnd r); simpl; [destruct (isWhiteSpace c)|]; reflexivity.
Qed.

Lemma lower_trim s : toLowerCase (trim s) = trim (toLowerCase s).
Proof. unfold trim. rewrite lower_trimEnd, lower_trimStart. reflexivity. Qed.

(** ** The slug *)

Lemma replaceRuns_in_run s :
  replaceRuns true s = replaceRuns false (Spec.dropRun s).
Proof.
  induction s as [|c r IH]; simpl; [reflexivity|].
  destruct (isSlugChar c) eqn:E; simpl; [rewrite E; reflexivity|exact IH].
Qed.

Lemma dropRun_length s : (String.length (Spec.dropRun s) <= String.length s)%nat.
Proof.
  induction s as [|c r IH]; simpl; [lia|].
  destruct (isSlugChar c); simpl; lia.
Qed.

Lemma replaceMaximalRuns_enough fuel s :
  (String.length s <= fuel)%nat ->
  Spec.replaceMaximalRunsFuel fuel s = replaceRuns false s.
Proof.
  revert s. induction fuel as [|k IH]; intros s Hlen.
  - destruct s; simpl in *; [reflexivity|lia].
  - destruct s as [|c r]; simpl in *; [reflexivity|].
    destruct (isSlugChar c).
    + rewrite IH by lia. reflexivity.
    + rewrite replaceRuns_in_run, IH; [reflexivity|].
      pose proof (dropRun_length r). lia.
Qed.

Lemma replaceRuns_maximal s : replaceRuns false s = Spec.replaceMaximalRuns s.
Proof. symmetry. apply replaceMaximalRuns_enough. lia. Qed.

Lemma append_assoc (a b c : string) : (a ++ b) ++ c = a ++ (b ++ c).
Proof. induction a as [|x a IH]; simpl; [reflexivity|]. rewrite IH. reflexivity. Qed.

Lemma reverseOnto_app s acc :
  Spec.reverseOnto s acc = Spec.reverse s ++ acc.
Proof.
  unfold Spec.reverse. revert acc.
  induction s as [|c r IH]; intros acc; simpl; [reflexivity|].
  rewrite (IH (String c acc)), (IH (String c EmptyString)), append_assoc.
  reflexivity.
Qed.

Lemma reverse_cons c r :
  Spec.reverse (String c r) = Spec.reverse r ++ String c EmptyString.
Proof. unfold Spec.reverse at 1. simpl. apply reverseOnto_app. Qed.

Lemma reverseOnto_snoc s c acc :
  Spec.reverseOnto (s ++ String c EmptyString) acc
  = String c (Spec.reverseOnto s acc).
Proof.
  revert acc. induction s as [|x s IH]; intros acc; simpl; [reflexivity|].
  apply IH.
Qed.

Lemma reverse_snoc s c :
  Spec.reverse (s ++ String c EmptyString) = String c (Spec.reverse s).
Proof. apply reverseOnto_snoc. Qed.

Lemma withoutLeadingHyphens_snoc a c :
  Spec.withoutLeadingHyphens (a ++ String c EmptyString)
  = match Spec.withoutLeadingHyphens a with
    | EmptyString => if isHyphen c then EmptyString else String c EmptyString
    | String y w => String y w ++ String c EmptyString
    end.
Proof.
  induction a as [|x a IH]; simpl; [reflexivity|].
  destruct (Ascii.eqb x "-"); [exact IH|reflexivity].
Qed.

Lemma stripLeading_without s :
  stripLeadingHyphens s = Spec.withoutLeadingHyphens s.
Proof.
  induction s as [|c r IH]; simpl; [reflexivity|].
  unfold isHyphen. rewrite IH. reflexivity.
Qed.

Lemma stripTrailing_reversed s :
  stripTrailingHyphens s
  = Spec.reverse (Spec.withoutLeadingHyphens (Spec.reverse s)).
Proof.
  induction s as [|c r IH]; [reflexivity|].
  rewrite reverse_cons, withoutLeadingHyphens_snoc.
  cbn [stripTrailingHyphens]. rewrite IH.
  destruct (Spec.withoutLeadingHyphens (Spec.reverse r)) as [|y w].
  - change (Spec.reverse EmptyString) with EmptyString. cbv beta iota.
    destruct (isHyphen c); reflexivity.
  - rewrite reverse_snoc, reverse_cons.
    destruct (Spec.reverse w); reflexivity.
Qed.

Lemma stripHyphens_trim s : stripHyphens s = Spec.trimHyphens s.
Proof.
  unfold stripHyphens, Spec.trimHyphens.
  rewrite stripLeading_without. apply stripTrailing_reversed.
Qed.

Lemma slugify_spec t : slugify t = Spec.slug t.
Proof.
  unfold slugify, Spec.slug.
  rewrite lower_trim, replaceRuns_maximal. apply stripHyphens_trim.
Qed.

Lemma hasSlugChar_nonempty s : Spec.hasSlugChar s = true -> s <> EmptyString.
Proof. destruct s; simpl; congruence. Qed.

Lemma hasSlugChar_lower s : Spec.hasSlugChar (toLowerCase s) = Spec.hasAlnum s.
Proof.
  induction s as [|c r IH]; simpl; [reflexivity|].
  rewrite IH. f_equal. pose proof (code_range c). chars.
Qed.

Lemma hasSlugChar_trimStart s : Spec.hasSlugChar (trimStart s) = Spec.hasSlugChar s.
Proof.
  induction s as [|c r IH]; simpl; [reflexivity|].
  destruct (isWhiteSpace c) eqn:E; [|reflexivity].
  rewrite IH. destruct (isSlugChar c) eqn:F; [|reflexivity].
  apply slug_char_not_space in F. congruence.
Qed.

Lemma hasSlugChar_trimEnd s : Spec.hasSlugChar (trimEnd s) = Spec.hasSlugChar s.
Proof.
  induction s as [|c r IH]; simpl; [reflexivity|].
  rewrite <- IH. destruct (trimEnd r); simpl; [|reflexivity].
  destruct (isWhiteSpace c) eqn:E; simpl; [|reflexivity].
  destruct (isSlugChar c) eqn:F; [|reflexivity].
  apply slug_char_not_space in F. congruence.
Qed.

Lemma hasSlugChar_replaceRuns b s :
  Spec.hasSlugChar (replaceRuns b s) = Spec.hasSlugChar s.
Proof.
  revert b. induction s as [|c r IH]; intros b; simpl; [reflexivity|].
  destruct (isSlugChar c) eqn:E; simpl.
  - rewrite E. reflexivity.
  - destruct b; simpl; apply IH.
Qed.

Lemma hasSlugChar_stripLeading s :
  Spec.hasSlugChar (stripLeadingHyphens s) = Spec.hasSlugChar s.
Proof.
  induction s as [|c r IH]; simpl; [reflexivity|].
  destruct (isHyphen c) eqn:E; [|reflexivity].
  rewrite IH. destruct (isSlugChar c) eqn:F; [|reflexivity].
  apply slug_char_not_hyphen in F. congruence.
Qed.

Lemma hasSlugChar_stripTrailing s :
  Spec.hasSlugChar (stripTrailingHyphens s) = Spec.hasSlugChar s.
Proof.
  induction s as [|c r IH]; simpl; [reflexivity|].
  rewrite <- IH. destruct (stripTrailingHyphens r); simpl; [|reflexivity].
  destruct (isHyphen c) eqn:E; simpl; [|reflexivity].
  destruct (isSlugChar c) eqn:F; [|reflexivity].
  apply slug_char_not_hyphen in F. congruence.
Qed.

Lemma hasSlugChar_slugify t : Spec.hasSlugChar (slugify t) = Spec.hasAlnum t.
Proof.
  unfold slugify, stripHyphens, trim.
  rewrite hasSlugChar_stripTrailing, hasSlugChar_stripLeading,
    hasSlugChar_replaceRuns, <- hasSlugChar_lower, lower_trimEnd, lower_trimStart,
    hasSlugChar_trimEnd, hasSlugChar_trimStart.
  reflexivity.
Qed.

Lemma replaceRuns_no_slug_char s :
  Spec.hasSlugChar s = false ->
  replaceRuns true s = EmptyString
  /\ (replaceRuns false s = EmptyString \/ replaceRuns false s = "-").
Proof.
  induction s as [|c r IH]; simpl; intros H; [auto|].
  apply orb_false_elim in H as [Hc Hr]. rewrite Hc.
  destruct (IH Hr) as [IH1 _]. rewrite IH1. auto.
Qed.

Lemma slugify_empty_iff t : slugify t = EmptyString <-> Spec.hasAlnum t = false.
Proof.
  rewrite <- hasSlugChar_slugify. split.
  - intros ->. reflexivity.
  - unfold slugify, stripHyphens.
    rewrite hasSlugChar_stripTrailing, hasSlugChar_stripLeading, hasSlugChar_replaceRuns.
    intros H. destruct (replaceRuns_no_slug_char _ H) as [_ [-> | ->]]; reflexivity.
Qed.

(** ** The steps of the Event hook *)

Lemma andThen_Next s1 s2 doc doc' :
  (s1 >>> s2) doc = (doc', Next) <->
  exists d1, s1 doc = (d1, Next) /\ s2 d1 = (doc', Next).
Proof.
  unfold andThen. destruct (s1 doc) as [d1 [|e]]; split.
  - intros H. exists d1. auto.
  - intros (d & Hd & H). congruence.
  - discriminate.
  - intros (d & Hd & _). discriminate.
Qed.

Lemma andThen_NextErr s1 s2 doc doc' e :
  (s1 >>> s2) doc = (doc', NextErr e) <->
  s1 doc = (doc', NextErr e)
  \/ exists d1, s1 doc = (d1, Next) /\ s2 d1 = (doc', NextErr e).
Proof.
  unfold andThen. destruct (s1 doc) as [d1 [|e1]]; split.
  - intros H. right. exists d1. auto.
  - intros [H | (d & Hd & H)]; congruence.
  - intros H. left. exact H.
  - intros [H | (d & Hd & _)]; [exact H | discriminate].
Qed.

Lemma checkRequired_Next fields doc doc' :
  checkRequired fields doc = (doc', Next) <->
  doc' = doc /\ Forall (fun f => isBlank (get f doc) = false) fields.
Proof.
  induction fields as [|f rest IH]; simpl.
  - split; [intros [= <-]; auto | intros [-> _]; reflexivity].
  - destruct (isBlank (get f doc)) eqn:E.
    + split; [discriminate | intros [_ H]; inversion H; congruence].
    + rewrite IH. split; intros [H1 H2]; split; auto.
      inversion H2; auto.
Qed.

Lemma checkRequired_NextErr fields doc doc' e :
  checkRequired fields doc = (doc', NextErr e) <->
  doc' = doc /\
  exists before f after,
    fields = (before ++ f :: after)%list
    /\ Forall (fun g => isBlank (get g doc) = false) before
    /\ isBlank (get f doc) = true
    /\ e = NewError (fieldName f ++ " is required and must be a non-empty string.").
Proof.
  induction fields as [|f rest IH]; simpl.
  - split; [discriminate|].
    intros (_ & before & g & after & H & _). destruct before; discriminate.
  - destruct (isBlank (get f doc)) eqn:E.
    + split.
      * intros [= <- <-]. split; [reflexivity|].
        exists [], f, rest. auto.
      * intros (-> & before & g & after & Hl & Hb & Hg & ->).
        destruct before as [|b before]; simpl in Hl.
        -- injection Hl as -> _. reflexivity.
        -- injection Hl as -> _. inversion Hb; congruence.
    + rewrite IH. split.
      * intros (-> & before & g & after & -> & Hb & Hg & ->).
        split; [reflexivity|]. exists (f :: before), g, after. auto.
      * intros (-> & before & g & after & Hl & Hb & Hg & ->).
        split; [reflexivity|].
        destruct before as [|b before]; simpl in Hl.
        -- injection Hl as -> _. congruence.
        -- injection Hl as -> ->. inversion Hb; subst.
           exists before, g, after. auto.
Qed.

Lemma checkAgenda_cases doc :
  (noItems (agenda doc) = false /\ checkAgenda doc = (doc, Next))
  \/ (noItems (agenda doc) = true
      /\ checkAgenda doc
         = (doc, NextErr (NewError "agenda is required and must contain at least one item."))).
Proof. unfold checkAgenda. destruct (noItems (agenda doc)); auto. Qed.

Lemma checkTags_cases doc :
  (noItems (tags doc) = false /\ checkTags doc = (doc, Next))
  \/ (noItems (tags doc) = true
      /\ checkTags doc
         = (doc, NextErr (NewError "tags is required and must contain at least one tag."))).
Proof. unfold checkTags. destruct (noItems (tags doc)); auto. Qed.

Lemma isBlank_false v :
  isBlank v = false <-> exists s, v = Some s /\ trim s <> EmptyString.
Proof.
  destruct v as [s|]; simpl.
  - rewrite negb_false_iff, truthy_true. split; [eauto | intros (x & [= <-] & H); exact H].
  - split; [discriminate | intros (x & H & _); discriminate].
Qed.

Lemma trim_nonempty s : trim s <> EmptyString -> s <> EmptyString.
Proof. intros H ->. apply H. reflexivity. Qed.

(** The slug step, whatever it is applied to. *)
Lemma deriveSlug_recomputes doc t :
  title doc = Some t ->
  isModified_title doc = true \/ present (slug doc) = false ->
  deriveSlug doc = (set_slug (slugify t) doc, Next).
Proof.
  intros Ht H. unfold deriveSlug. rewrite Ht.
  destruct H as [-> | ->]; [reflexivity|].
  rewrite orb_true_r. reflexivity.
Qed.

Lemma deriveSlug_keeps doc :
  isModified_title doc = false -> present (slug doc) = true ->
  deriveSlug doc = (doc, Next).
Proof. intros H1 H2. unfold deriveSlug. rewrite H1, H2. reflexivity. Qed.

(** What an accepted document went through. *)
Lemma preSave_Next rt doc doc' :
  preSave rt doc = (doc', Next) <->
  Forall (fun f => isBlank (get f doc) = false) requiredStringFields
  /\ noItems (agenda doc) = false /\ noItems (tags doc) = false
  /\ exists d1 d2,
       deriveSlug doc = (d1, Next) /\ normalizeDate rt d1 = (d2, Next)
       /\ normalizeTimeStep d2 = (doc', Next).
Proof.
  unfold preSave. rewrite andThen_Next. split.
  - intros (d0 & H0 & H). apply checkRequired_Next in H0 as [-> Hreq].
    apply andThen_Next in H as (d & Ha & H).
    destruct (checkAgenda_cases doc) as [[Ea Ea'] | [_ Ea']]; [|congruence].
    rewrite Ea' in Ha. injection Ha as <-.
    apply andThen_Next in H as (d & Ht & H).
    destruct (checkTags_cases doc) as [[Et Et'] | [_ Et']]; [|congruence].
    rewrite Et' in Ht. injection Ht as <-.
    apply andThen_Next in H as (d1 & Hs & H).
    apply andThen_Next in H as (d2 & Hd & H).
    repeat split; auto. exists d1, d2. auto.
  - intros (Hreq & Ea & Et & d1 & d2 & Hs & Hd & Htm).
    exists doc. split; [apply checkRequired_Next; auto|].
    apply andThen_Next. exists doc. split.
    { destruct (checkAgenda_cases doc) as [[_ E] | [E _]]; congruence. }
    apply andThen_Next. exists doc. split.
    { destruct (checkTags_cases doc) as [[_ E] | [E _]]; congruence. }
    apply andThen_Next. exists d1. split; [exact Hs|].
    apply andThen_Next. exists d2. auto.
Qed.

Lemma required_title doc :
  Forall (fun f => isBlank (get f doc) = false) requiredStringFields ->
  exists t, title doc = Some t /\ trim t <> EmptyString.
Proof.
  intros H. apply isBlank_false.
  unfold requiredStringFields in H. inversion H as [|f rest Hf _]. exact Hf.
Qed.

Lemma normalizeDate_keeps rt d d' o :
  normalizeDate rt d = (d', o) ->
  title d' = title d /\ slug d' = slug d /\ time d' = time d
  /\ isModified_title d' = isModified_title d.
Proof.
  unfold normalizeDate. intros H.
  destruct (date d) as [v|]; [|injection H as <- _; auto].
  destruct (truthy v); [|injection H as <- _; auto].
  destruct (Date_parse rt v); injection H as <- _; auto.
Qed.

Lemma normalizeTimeStep_keeps d d' o :
  normalizeTimeStep d = (d', o) ->
  title d' = title d /\ slug d' = slug d /\ date d' = date d
  /\ isModified_title d' = isModified_title d.
Proof.
  unfold normalizeTimeStep. intros H.
  destruct (time d) as [v|]; [|injection H as <- _; auto].
  destruct (truthy v); [|injection H as <- _; auto].
  destruct (normalizeTime v) as [n|]; [|injection H as <- _; auto].
  destruct (truthy n); injection H as <- _; auto.
Qed.

(** The slug of an accepted document. *)
Lemma preSave_slug rt doc doc' :
  preSave rt doc = (doc', Next) ->
  exists t,
    title doc = Some t /\ trim t <> EmptyString
    /\ ((isModified_title doc = true \/ present (slug doc) = false)
        /\ slug doc' = Some (slugify t)
        \/ (isModified_title doc = false /\ present (slug doc) = true)
           /\ slug doc' = slug doc).
Proof.
  intros H. apply preSave_Next in H as (Hreq & _ & _ & d1 & d2 & Hs & Hd & Ht).
  destruct (required_title doc Hreq) as (t & Htitle & Htrim).
  exists t. split; [exact Htitle|]. split; [exact Htrim|].
  apply normalizeDate_keeps in Hd as (_ & Hd & _).
  apply normalizeTimeStep_keeps in Ht as (_ & Ht & _).
  rewrite Ht, Hd.
  destruct (isModified_title doc) eqn:Em.
  - left. rewrite (deriveSlug_recomputes doc t) in Hs by auto.
    injection Hs as <-. auto.
  - destruct (present (slug doc)) eqn:Ep.
    + right. rewrite deriveSlug_keeps in Hs by auto. injection Hs as <-. auto.
    + left. rewrite (deriveSlug_recomputes doc t) in Hs by auto.
      injection Hs as <-. auto.
Qed.

(** C8. The slug step: whenever the title has changed or the slug is absent,
    the slug is recomputed from the title, both in the step taken alone and
    in a run of the whole hook; the value computed by [slugify] is the one
    the specification describes (lower-case, trim, one hyphen for each
    maximal run of characters other than a-z and 0-9, then the hyphens at
    either end trimmed, which [Spec.trimHyphens] does by dropping the
    hyphens the string starts with and those its reversal starts with); the
    title "My Event! 2024" gives the slug "my-event-2024", and a title with
    spaces, hyphens and punctuation around and between its words,
    "  --Hello,   World--  ", gives "hello-world". *)
Theorem slug_recomputed_from_title :
  (forall doc t,
      title doc = Some t ->
      isModified_title doc = true \/ present (slug doc) = false ->
      deriveSlug doc = (set_slug (Spec.slug t) doc, Next))
  /\ (forall rt doc doc',
      preSave rt doc = (doc', Next) ->
      isModified_title doc = true \/ present (slug doc) = false ->
      exists t, title doc = Some t /\ slug doc' = Some (Spec.slug t))
  /\ (forall t, slugify t = Spec.slug t)
  /\ slugify "My Event! 2024" = "my-event-2024"
  /\ slugify "  --Hello,   World--  " = "hello-world"
  /\ Spec.slug "  --Hello,   World--  " = "hello-world".
Proof.
  split; [|split; [|split; [|split; [|split]]]].
  - intros doc t Ht H. rewrite <- slugify_spec. apply deriveSlug_recomputes; auto.
  - intros rt doc doc' H Hc.
    destruct (preSave_slug rt doc doc' H) as (t & Ht & _ & [[_ Hs] | [[Hm Hp] _]]).
    + exists t. rewrite <- slugify_spec. auto.
    + destruct Hc; congruence.
  - apply slugify_spec.
  - reflexivity.
  - reflexivity.
  - reflexivity.
Qed.

Lemma slug_recomputed_from_title_witness :
  slug (fst (preSave (Host.runtime 0) Samples.myEvent)) = Some "my-event-2024".
Proof.
  destruct slug_recomputed_from_title as (_ & H & _).
  destruct (H (Host.runtime 0) Samples.myEvent
              (fst (preSave (Host.runtime 0) Samples.myEvent)))
    as (t & Ht & Hs).
  - vm_compute. reflexivity.
  - left. reflexivity.
  - rewrite Hs. injection Ht as <-. vm_compute. reflexivity.
Defined.

(** C4, as amended. For every Event the hook accepts, the resulting slug is
    non-empty exactly when the title contains a letter or a digit of ASCII,
    or the slug was kept (title not modified and a non-empty slug already
    there). A title without letters and digits is accepted and gives the
    empty slug. *)
Theorem accepted_slug_nonempty_iff rt doc doc' :
  preSave rt doc = (doc', Next) ->
  exists t s,
    title doc = Some t /\ slug doc' = Some s
    /\ (s <> EmptyString <->
        Spec.hasAlnum t = true
        \/ (isModified_title doc = false /\ present (slug doc) = true)).
Proof.
  intros H.
  destruct (preSave_slug rt doc doc' H) as (t & Ht & _ & [[Hc Hs] | [[Hm Hp] Hs]]).
  - exists t, (slugify t). split; [exact Ht|]. split; [exact Hs|].
    pose proof (slugify_empty_iff t) as He. split.
    + intros Hne. left. destruct (Spec.hasAlnum t); [reflexivity|].
      exfalso. apply Hne, He. reflexivity.
    + intros [Ha | [Hm Hp]].
      * intros E. apply He in E. congruence.
      * destruct Hc; congruence.
  - destruct (slug doc) as [s|] eqn:Es; [|discriminate].
    exists t, s. split; [exact Ht|]. split; [exact Hs|].
    split; [auto|]. intros _. apply truthy_true. exact Hp.
Qed.

Lemma accepted_slug_nonempty_iff_witness :
  exists t s,
    title Samples.myEvent = Some t
    /\ slug (fst (preSave (Host.runtime 0) Samples.myEvent)) = Some s
    /\ (s <> EmptyString <->
        Spec.hasAlnum t = true
        \/ (isModified_title Samples.myEvent = false
            /\ present (slug Samples.myEvent) = true)).
Proof.
  apply (accepted_slug_nonempty_iff (Host.runtime 0)).
  vm_compute. reflexivity.
Defined.

(** C4 as stated fails: the title "!!!" passes every check of the hook and
    the slug derived from it is the empty string. *)
Lemma accepted_event_with_empty_slug :
  preSave (Host.runtime 0) Samples.punctuationEvent
  = (set_slug EmptyString Samples.punctuationEvent, Next)
  /\ slug (set_slug EmptyString Samples.punctuationEvent) = Some EmptyString.
Proof. split; vm_compute; reflexivity. Qed.

(** ** Digits *)

Lemma digit_of_range c n :
  0 <= n <= 9 -> 48 <= code c <= 48 + n ->
  exists k, 0 <= k <= n /\ c = digitChar k.
Proof.
  intros Hn Hc. exists (code c - 48). split; [lia|].
  apply code_inj. rewrite code_digitChar by lia. lia.
Qed.

Lemma digit_of_isDigit c : isDigit c = true -> exists k, 0 <= k <= 9 /\ c = digitChar k.
Proof. intros H. apply digit_of_range; [lia|]. chars. Qed.

Lemma isDigit_digitChar k : 0 <= k <= 9 -> isDigit (digitChar k) = true.
Proof. intros H. unfold isDigit. rewrite code_digitChar by lia. lia. Qed.

Lemma inRange_digitChar lo hi k :
  0 <= k <= 9 ->
  inRange (digitChar lo) (digitChar hi) (digitChar k)
  = (code (digitChar lo) <=? 48 + k) && (48 + k <=? code (digitChar hi)).
Proof. intros H. unfold inRange. rewrite (code_digitChar k) by lia. reflexivity. Qed.

Lemma digitValue_digitChar k : 0 <= k <= 9 -> digitValue (digitChar k) = k.
Proof. intros H. unfold digitValue. rewrite code_digitChar by lia. lia. Qed.

Lemma digitChar_not_space k : 0 <= k <= 9 -> isWhiteSpace (digitChar k) = false.
Proof. intros H. unfold isWhiteSpace. rewrite code_digitChar by lia. lia. Qed.

Lemma two_digits a b :
  0 <= a <= 9 -> 0 <= b <= 9 ->
  Spec.two (10 * a + b) = String (digitChar a) (String (digitChar b) EmptyString).
Proof.
  intros Ha Hb. unfold Spec.two. simpl.
  replace ((10 * a + b) / 10 mod 10) with a by (symmetry; Z.to_euclidean_division_equations; lia).
  replace ((10 * a + b) mod 10) with b by (symmetry; Z.to_euclidean_division_equations; lia).
  reflexivity.
Qed.

Lemma two_split n :
  0 <= n <= 99 ->
  exists a b, 0 <= a <= 9 /\ 0 <= b <= 9 /\ n = 10 * a + b
              /\ Spec.two n = String (digitChar a) (String (digitChar b) EmptyString).
Proof.
  intros H. exists (n / 10), (n mod 10).
  assert (n = 10 * (n / 10) + n mod 10) as E by (Z.to_euclidean_division_equations; lia).
  assert (0 <= n / 10 <= 9) by (Z.to_euclidean_division_equations; lia).
  assert (0 <= n mod 10 <= 9) by (Z.to_euclidean_division_equations; lia).
  repeat split; try lia. rewrite E at 1. apply two_digits; lia.
Qed.

Lemma parseInt10_two a b :
  0 <= a <= 9 -> 0 <= b <= 9 ->
  parseInt10 (String (digitChar a) (String (digitChar b) EmptyString)) = Some (10 * a + b).
Proof.
  intros Ha Hb. unfold parseInt10. simpl.
  rewrite !isDigit_digitChar by lia. simpl.
  rewrite !digitValue_digitChar by lia. f_equal; lia.
Qed.

Lemma parseInt10_one a :
  0 <= a <= 9 -> parseInt10 (String (digitChar a) EmptyString) = Some a.
Proof.
  intros Ha. unfold parseInt10. simpl.
  rewrite !isDigit_digitChar by lia. simpl.
  rewrite !digitValue_digitChar by lia. f_equal; lia.
Qed.

(** [hour.toString().padStart(2, '0')] writes the hour with two digits. *)
Lemma hour_padStart h :
  0 <= h <= 29 -> padStart 2 "0" (toString h) = Spec.two h.
Proof.
  intros H.
  assert (exists n, (n < 30)%nat /\ h = Z.of_nat n) as (n & Hn & ->)
    by (exists (Z.to_nat h); lia).
  clear H. do 30 (destruct n as [|n]; [vm_compute; reflexivity|]). lia.
Qed.

(** ** The time *)

Abbreviation str1 a := (String a EmptyString) (only parsing).
Abbreviation str2 a b := (String a (String b EmptyString)) (only parsing).

Lemma digit_of_inRange hi n c :
  code hi = 48 + n -> 0 <= n <= 9 -> inRange "0" hi c = true ->
  exists k, 0 <= k <= n /\ c = digitChar k.
Proof.
  intros Hhi Hn H. apply digit_of_range; [lia|].
  unfold inRange in H. rewrite Hhi in H. literal_codes. lia.
Qed.

Lemma inRange_digit lo hi k :
  0 <= k <= 9 -> code lo <= 48 + k <= code hi -> inRange lo hi (digitChar k) = true.
Proof. intros Hk H. unfold inRange. rewrite code_digitChar by lia. lia. Qed.

Lemma digit_not_colon k : 0 <= k <= 9 -> Ascii.eqb (digitChar k) ":" = false.
Proof. intros H. rewrite eqb_code, code_digitChar by lia. literal_codes. lia. Qed.

Lemma matchColon_Some t hs ms :
  matchColon t = Some (hs, ms) ->
  (exists a b d e,
      t = String a (String b (String ":" (str2 d e)))
      /\ hs = str2 a b /\ ms = str2 d e
      /\ inRange "0" "2" a = true /\ isDigit b = true
      /\ inRange "0" "5" d = true /\ isDigit e = true)
  \/ (exists b d e,
      t = String b (String ":" (str2 d e))
      /\ hs = str1 b /\ ms = str2 d e
      /\ isDigit b = true /\ inRange "0" "5" d = true /\ isDigit e = true).
Proof.
  destruct t as [|c1 [|c2 [|c3 [|c4 [|c5 [|c6 r]]]]]]; simpl; try discriminate.
  - destruct (isDigit c1 && Ascii.eqb c2 ":" && inRange "0" "5" c3 && isDigit c4) eqn:E;
      [|discriminate].
    intros [= <- <-]. rewrite !andb_true_iff in E. destruct E as [[[E1 E2] E3] E4].
    apply Ascii.eqb_eq in E2. subst c2.
    right. exists c1, c3, c4. auto 10.
  - destruct (inRange "0" "2" c1 && isDigit c2 && Ascii.eqb c3 ":"
              && inRange "0" "5" c4 && isDigit c5) eqn:E; [|discriminate].
    intros [= <- <-]. rewrite !andb_true_iff in E.
    destruct E as [[[[E1 E2] E3] E4] E5].
    apply Ascii.eqb_eq in E3. subst c3.
    left. exists c1, c2, c4, c5. auto 10.
Qed.

Lemma matchCompact_Some t hs ms :
  matchCompact t = Some (hs, ms) ->
  (exists a b d e,
      t = String a (String b (str2 d e))
      /\ hs = str2 a b /\ ms = str2 d e
      /\ inRange "0" "2" a = true /\ isDigit b = true
      /\ inRange "0" "5" d = true /\ isDigit e = true)
  \/ (exists b d e,
      t = String b (str2 d e)
      /\ hs = str1 b /\ ms = str2 d e
      /\ isDigit b = true /\ inRange "0" "5" d = true /\ isDigit e = true).
Proof.
  destruct t as [|c1 [|c2 [|c3 [|c4 [|c5 r]]]]]; simpl; try discriminate.
  - destruct (isDigit c1 && inRange "0" "5" c2 && isDigit c3) eqn:E; [|discriminate].
    intros [= <- <-]. rewrite !andb_true_iff in E. destruct E as [[E1 E2] E3].
    right. exists c1, c2, c3. auto 10.
  - destruct (inRange "0" "2" c1 && isDigit c2 && inRange "0" "5" c3 && isDigit c4) eqn:E;
      [|discriminate].
    intros [= <- <-]. rewrite !andb_true_iff in E. destruct E as [[[E1 E2] E3] E4].
    left. exists c1, c2, c3, c4. auto 10.
Qed.

(** The hour captured by either pattern, once it has passed [hour > 23]. *)
Lemma hour_two_digits a b :
  0 <= a <= 2 -> 0 <= b <= 9 ->
  let hour := parseInt10 (str2 (digitChar a) (digitChar b)) in
  hourTooLarge hour = (23 <? 10 * a + b)
  /\ padStart 2 "0" (hourToString hour) = Spec.two (10 * a + b).
Proof.
  intros Ha Hb. rewrite parseInt10_two by lia. simpl hourTooLarge. simpl hourToString.
  split; [reflexivity|]. apply hour_padStart. lia.
Qed.

Lemma hour_one_digit b :
  0 <= b <= 9 ->
  let hour := parseInt10 (str1 (digitChar b)) in
  hourTooLarge hour = false
  /\ padStart 2 "0" (hourToString hour) = Spec.two b.
Proof.
  intros Hb. rewrite parseInt10_one by lia. simpl hourTooLarge. simpl hourToString.
  split; [lia|]. apply hour_padStart. lia.
Qed.

Lemma one_digit h : Spec.one h = str1 (digitChar h).
Proof. reflexivity. Qed.

Lemma normalizeTime_sound s r :
  normalizeTime s = Some r ->
  exists h m, Spec.AcceptedTime (trim s) h m /\ r = Spec.two h ++ ":" ++ Spec.two m.
Proof.
  unfold normalizeTime. intros H.
  destruct (matchColon (trim s)) as [[hs ms]|] eqn:E.
  - apply matchColon_Some in E
      as [(a & b & d & e & Et & -> & -> & Ea & Eb & Ed & Ee)
         | (b & d & e & Et & -> & -> & Eb & Ed & Ee)].
    + apply (digit_of_inRange "2" 2) in Ea as (ka & Hka & ->); [|reflexivity|lia].
      apply digit_of_isDigit in Eb as (kb & Hkb & ->).
      apply (digit_of_inRange "5" 5) in Ed as (kd & Hkd & ->); [|reflexivity|lia].
      apply digit_of_isDigit in Ee as (ke & Hke & ->).
      destruct (hour_two_digits ka kb Hka Hkb) as [H1 H2].
      rewrite H1, H2 in H. destruct (23 <? 10 * ka + kb) eqn:E23; [discriminate|].
      injection H as <-. exists (10 * ka + kb), (10 * kd + ke).
      rewrite <- (two_digits kd ke) by lia. split; [|reflexivity].
      split; [lia|]. split; [lia|]. rewrite Et.
      change (Spec.TimeForm (10 * ka + kb) (10 * kd + ke)
                (str2 (digitChar ka) (digitChar kb) ++ ":"
                 ++ str2 (digitChar kd) (digitChar ke))).
      rewrite <- (two_digits kd ke), <- (two_digits ka kb) by lia.
      apply (Spec.HH_colon_mm (10 * ka + kb) (10 * kd + ke)).
    + apply digit_of_isDigit in Eb as (kb & Hkb & ->).
      apply (digit_of_inRange "5" 5) in Ed as (kd & Hkd & ->); [|reflexivity|lia].
      apply digit_of_isDigit in Ee as (ke & Hke & ->).
      destruct (hour_one_digit kb Hkb) as [H1 H2].
      rewrite H1, H2 in H. injection H as <-. exists kb, (10 * kd + ke).
      rewrite <- (two_digits kd ke) by lia. split; [|reflexivity].
      split; [lia|]. split; [lia|]. rewrite Et.
      change (Spec.TimeForm kb (10 * kd + ke)
                (Spec.one kb ++ ":" ++ str2 (digitChar kd) (digitChar ke))).
      rewrite <- (two_digits kd ke) by lia.
      apply (Spec.H_colon_mm kb (10 * kd + ke)). lia.
  - destruct (matchCompact (trim s)) as [[hs ms]|] eqn:E'; [|discriminate].
    apply matchCompact_Some in E'
      as [(a & b & d & e & Et & -> & -> & Ea & Eb & Ed & Ee)
         | (b & d & e & Et & -> & -> & Eb & Ed & Ee)].
    + apply (digit_of_inRange "2" 2) in Ea as (ka & Hka & ->); [|reflexivity|lia].
      apply digit_of_isDigit in Eb as (kb & Hkb & ->).
      apply (digit_of_inRange "5" 5) in Ed as (kd & Hkd & ->); [|reflexivity|lia].
      apply digit_of_isDigit in Ee as (ke & Hke & ->).
      destruct (hour_two_digits ka kb Hka Hkb) as [H1 H2].
      rewrite H1, H2 in H. destruct (23 <? 10 * ka + kb) eqn:E23; [discriminate|].
      injection H as <-. exists (10 * ka + kb), (10 * kd + ke).
      rewrite <- (two_digits kd ke) by lia. split; [|reflexivity].
      split; [lia|]. split; [lia|]. rewrite Et.
      change (Spec.TimeForm (10 * ka + kb) (10 * kd + ke)
                (str2 (digitChar ka) (digitChar kb)
                 ++ str2 (digitChar kd) (digitChar ke))).
      rewrite <- (two_digits kd ke), <- (two_digits ka kb) by lia.
      apply (Spec.HHmm (10 * ka + kb) (10 * kd + ke)).
    + apply digit_of_isDigit in Eb as (kb & Hkb & ->).
      apply (digit_of_inRange "5" 5) in Ed as (kd & Hkd & ->); [|reflexivity|lia].
      apply digit_of_isDigit in Ee as (ke & Hke & ->).
      destruct (hour_one_digit kb Hkb) as [H1 H2].
      rewrite H1, H2 in H. injection H as <-. exists kb, (10 * kd + ke).
      rewrite <- (two_digits kd ke) by lia. split; [|reflexivity].
      split; [lia|]. split; [lia|]. rewrite Et.
      change (Spec.TimeForm kb (10 * kd + ke)
                (Spec.one kb ++ str2 (digitChar kd) (digitChar ke))).
      rewrite <- (two_digits kd ke) by lia.
      apply (Spec.Hmm kb (10 * kd + ke)). lia.
Qed.

Ltac digit_tests :=
  repeat first
    [ rewrite isDigit_digitChar by lia
    | rewrite digit_not_colon by lia
    | rewrite digitChar_not_space by lia
    | rewrite inRange_digit by (literal_codes; lia) ].

Lemma normalizeTime_complete s h m :
  Spec.AcceptedTime (trim s) h m ->
  normalizeTime s = Some (Spec.two h ++ ":" ++ Spec.two m).
Proof.
  intros (Hh & Hm & Hf). unfold normalizeTime.
  destruct (two_split m) as (d & e & Hd & He & -> & Em); [lia|].
  assert (d <= 5) as Hd5 by lia.
  destruct Hf as [ | Hle | | Hle].
  - destruct (two_split h) as (a & b & Ha & Hb & -> & Eh); [lia|].
    rewrite Em, Eh. simpl. digit_tests. simpl.
    destruct (hour_two_digits a b) as [H1 H2]; [lia|lia|].
    rewrite H1, H2. replace (23 <? 10 * a + b) with false by lia.
    rewrite Eh. reflexivity.
  - rewrite Em, one_digit. simpl. digit_tests. simpl.
    destruct (hour_one_digit h) as [H1 H2]; [lia|].
    rewrite H1, H2. reflexivity.
  - destruct (two_split h) as (a & b & Ha & Hb & -> & Eh); [lia|].
    rewrite Em, Eh. simpl. digit_tests. simpl.
    destruct (hour_two_digits a b) as [H1 H2]; [lia|lia|].
    rewrite H1, H2. replace (23 <? 10 * a + b) with false by lia.
    rewrite Eh. reflexivity.
  - rewrite Em, one_digit. simpl. digit_tests. simpl.
    destruct (hour_one_digit h) as [H1 H2]; [lia|].
    rewrite H1, H2. reflexivity.
Qed.

(** A time in the canonical form has nothing to trim. *)
Lemma trim_canonical_time h m :
  0 <= h <= 23 -> 0 <= m <= 59 ->
  trim (Spec.two h ++ ":" ++ Spec.two m) = Spec.two h ++ ":" ++ Spec.two m.
Proof.
  intros Hh Hm.
  destruct (two_split m) as (d & e & Hd & He & -> & Em); [lia|].
  destruct (two_split h) as (a & b & Ha & Hb & -> & Eh); [lia|].
  rewrite Em, Eh. unfold trim. simpl. digit_tests. simpl. digit_tests. reflexivity.
Qed.

Lemma normalizeTime_canonical h m :
  0 <= h <= 23 -> 0 <= m <= 59 ->
  normalizeTime (Spec.two h ++ ":" ++ Spec.two m)
  = Some (Spec.two h ++ ":" ++ Spec.two m).
Proof.
  intros Hh Hm. apply normalizeTime_complete.
  rewrite trim_canonical_time by lia.
  split; [lia|]. split; [lia|]. constructor.
Qed.

Lemma canonical_time_nonempty h m : truthy (Spec.two h ++ ":" ++ Spec.two m) = true.
Proof. reflexivity. Qed.

Lemma leading_space_not_digit k r r' :
  0 <= k <= 9 -> String " " r = String (digitChar k) r' -> False.
Proof.
  intros Hk E. injection E as E _. pose proof (digitChar_not_space k Hk) as H.
  rewrite <- E in H. discriminate.
Qed.

(** C6, as amended. The two patterns are tried, colon form first, on the
    value with the white space around it removed: [normalizeTime] succeeds
    exactly on the strings that, once trimmed, write an hour in 0..23 and a
    minute in 00..59 as H:mm, HH:mm, Hmm or HHmm, and its result is then
    that time as HH:mm; a string the compact pattern matches is never
    matched by the colon pattern; on any other string the hook fails with
    the "invalid time" error; "930" gives "09:30" and "25:00" fails. *)
Theorem normalizeTime_accepts_trimmed_forms :
  (forall s r,
      normalizeTime s = Some r <->
      exists h m, Spec.AcceptedTime (trim s) h m /\ r = Spec.two h ++ ":" ++ Spec.two m)
  /\ (forall t, matchCompact t <> None -> matchColon t = None)
  /\ (forall doc s,
      time doc = Some s -> truthy s = true -> normalizeTime s = None ->
      normalizeTimeStep doc
      = (doc, NextErr (NewError "Invalid time format. Use HH:mm or a similar 24h format.")))
  /\ (forall doc s r,
      time doc = Some s -> truthy s = true -> normalizeTime s = Some r ->
      normalizeTimeStep doc = (set_time r doc, Next))
  /\ normalizeTime "930" = Some "09:30"
  /\ normalizeTime "25:00" = None.
Proof.
  split; [|split; [|split; [|split; [|split]]]].
  - intros s r. split.
    + apply normalizeTime_sound.
    + intros (h & m & H & ->). apply normalizeTime_complete, H.
  - intros t H. destruct (matchCompact t) as [[hs ms]|] eqn:E; [|congruence].
    apply matchCompact_Some in E
      as [(a & b & d & e & -> & _ & _ & _ & Eb & _) | (b & d & e & -> & _)].
    + apply digit_of_isDigit in Eb as (kb & Hkb & ->).
      simpl. digit_tests. rewrite !andb_false_r. reflexivity.
    + reflexivity.
  - intros doc s Ht Hs Hn. unfold normalizeTimeStep. rewrite Ht, Hs, Hn. reflexivity.
  - intros doc s r Ht Hs Hn. unfold normalizeTimeStep. rewrite Ht, Hs, Hn.
    apply normalizeTime_sound in Hn as (h & m & _ & ->).
    rewrite canonical_time_nonempty. reflexivity.
  - reflexivity.
  - reflexivity.
Qed.

Lemma normalizeTime_accepts_trimmed_forms_witness :
  normalizeTimeStep Samples.myEvent = (set_time "09:30" Samples.myEvent, Next).
Proof.
  destruct normalizeTime_accepts_trimmed_forms as (_ & _ & _ & H & _).
  apply (H Samples.myEvent "930" "09:30"); reflexivity.
Defined.

(** C6 as stated fails: " 930" is none of H:mm, HH:mm, Hmm, HHmm, and it is
    normalized to "09:30" all the same. *)
Lemma normalizeTime_accepts_padded_input :
  normalizeTime " 930" = Some "09:30"
  /\ ~ (exists h m, Spec.AcceptedTime " 930" h m).
Proof.
  split; [reflexivity|].
  intros (h & m & Hh & Hm & Hf).
  destruct (two_split m) as (d & e & Hd & He & -> & Em); [lia|].
  remember " 930" as t eqn:Et.
  destruct Hf as [ | Hle | | Hle]; revert Et; rewrite ?Em, ?one_digit.
  - destruct (two_split h) as (a & b & Ha & Hb & -> & Eh); [lia|].
    rewrite Eh. simpl. intros E. symmetry in E. apply leading_space_not_digit in E; [exact E|lia].
  - simpl. intros E. symmetry in E. apply leading_space_not_digit in E; [exact E|lia].
  - destruct (two_split h) as (a & b & Ha & Hb & -> & Eh); [lia|].
    rewrite Eh. simpl. intros E. symmetry in E. apply leading_space_not_digit in E; [exact E|lia].
  - simpl. intros E. symmetry in E. apply leading_space_not_digit in E; [exact E|lia].
Qed.

(** ** The calendar *)

Lemma DayFromYear_step y : DayFromYear (y + 1) = DayFromYear y + 365 + InLeapYear y.
Proof.
  unfold DayFromYear, InLeapYear, isLeapYear.
  destruct ((y mod 4 =? 0) && (negb (y mod 100 =? 0) || (y mod 400 =? 0))) eqn:E;
    Z.to_euclidean_division_equations; lia.
Qed.

(** [YearFromDay d] is the year whose days include [d]. *)
Lemma YearFromDay_spec d :
  DayFromYear (YearFromDay d) <= d < DayFromYear (YearFromDay d + 1).
Proof.
  unfold YearFromDay.
  set (y := 1970 + 400 * d / 146097).
  destruct (d <? DayFromYear y) eqn:E1.
  - apply Z.ltb_lt in E1. replace (y - 1 + 1) with y by lia. split; [|lia].
    unfold DayFromYear in *. subst y. Z.to_euclidean_division_equations; lia.
  - apply Z.ltb_ge in E1. destruct (DayFromYear (y + 1) <=? d) eqn:E2.
    + apply Z.leb_le in E2. split; [lia|].
      unfold DayFromYear in *. subst y. Z.to_euclidean_division_equations; lia.
    + apply Z.leb_gt in E2. lia.
Qed.

Lemma DayFromYear_mono y z : y <= z -> DayFromYear y <= DayFromYear z.
Proof.
  intros H. unfold DayFromYear. Z.to_euclidean_division_equations; lia.
Qed.

(** It is the largest year that starts on or before [d], as the standard
    defines it. *)
Lemma YearFromDay_largest d y : DayFromYear y <= d -> y <= YearFromDay d.
Proof.
  intros H. destruct (Z_le_gt_dec y (YearFromDay d)) as [Hle|Hgt]; [exact Hle|].
  pose proof (YearFromDay_spec d) as [_ Hlt].
  pose proof (DayFromYear_mono (YearFromDay d + 1) y). lia.
Qed.

Lemma InLeapYear_range y : 0 <= InLeapYear y <= 1.
Proof. unfold InLeapYear. destruct (isLeapYear y); lia. Qed.

Lemma DayWithinYear_range d :
  0 <= DayWithinYear d < 365 + InLeapYear (YearFromDay d).
Proof.
  unfold DayWithinYear. pose proof (YearFromDay_spec d) as H.
  rewrite DayFromYear_step in H. lia.
Qed.

Lemma YearFromDay_range d :
  -100000000 <= d <= 100000000 -> -271821 <= YearFromDay d <= 275760.
Proof.
  intros H. pose proof (YearFromDay_spec d) as [H1 H2].
  split.
  - destruct (Z_le_gt_dec (-271821) (YearFromDay d)) as [Hle|Hgt]; [exact Hle|].
    pose proof (DayFromYear_mono (YearFromDay d + 1) (-271821) ltac:(lia)) as Hm.
    assert (DayFromYear (-271821) < -100000000) as E by (vm_compute; reflexivity). lia.
  - destruct (Z_le_gt_dec (YearFromDay d) 275760) as [Hle|Hgt]; [exact Hle|].
    pose proof (DayFromYear_mono 275761 (YearFromDay d) ltac:(lia)) as Hm.
    assert (100000000 < DayFromYear 275761) as E by (vm_compute; reflexivity). lia.
Qed.

(** Month and date are read off the day within the year, and [MakeDay]
    takes them back to the day. *)
Lemma calendar_fields d :
  0 <= MonthFromDay d <= 11
  /\ 1 <= DateFromDay d <= 31
  /\ MakeDay (YearFromDay d) (MonthFromDay d) (DateFromDay d) = d.
Proof.
  pose proof (DayWithinYear_range d) as Hw.
  pose proof (InLeapYear_range (YearFromDay d)) as HL.
  unfold MakeDay, DateFromDay, MonthFromDay.
  set (L := InLeapYear (YearFromDay d)) in *.
  assert (DayFromYear (YearFromDay d) + DayWithinYear d = d) as Ed
    by (unfold DayWithinYear; lia).
  set (w := DayWithinYear d) in *.
  repeat match goal with
    | |- context [if ?b then _ else _] => destruct b eqn:?
    end; simpl monthStart; lia.
Qed.

(** ** The date part of [toISOString] *)

Lemma mod10_digit x : 0 <= x mod 10 <= 9.
Proof. pose proof (Z.mod_pos_bound x 10). lia. Qed.

Lemma fixedDigits_app w n acc :
  fixedDigits w n acc = fixedDigits w n EmptyString ++ acc.
Proof.
  revert n acc. induction w as [|k IH]; intros n acc; simpl; [reflexivity|].
  rewrite (IH (n / 10) (String _ acc)), (IH (n / 10) (String _ EmptyString)).
  rewrite append_assoc. reflexivity.
Qed.

Lemma fixedDigits_head k n acc :
  fixedDigits (S k) n acc
  = String (digitChar (n / 10 ^ Z.of_nat k mod 10)) (fixedDigits k n acc).
Proof.
  revert n acc. induction k as [|k IH]; intros n acc.
  - simpl. rewrite Z.div_1_r. reflexivity.
  - change (fixedDigits (S (S k)) n acc)
      with (fixedDigits (S k) (n / 10) (String (digitChar (n mod 10)) acc)).
    rewrite IH. simpl fixedDigits at 2. f_equal. f_equal.
    rewrite Z.div_div by lia. f_equal. f_equal.
    rewrite Nat2Z.inj_succ, Z.pow_succ_r by lia. reflexivity.
Qed.

Lemma splitHead_digit k r :
  0 <= k <= 9 ->
  splitHead "T" (String (digitChar k) r) = String (digitChar k) (splitHead "T" r).
Proof.
  intros H. simpl. rewrite eqb_code, code_digitChar by lia. literal_codes.
  replace (48 + k =? 84) with false by lia. reflexivity.
Qed.

Lemma splitHead_fixedDigits w n r :
  splitHead "T" (fixedDigits w n r) = fixedDigits w n (splitHead "T" r).
Proof.
  revert n r. induction w as [|k IH]; intros n r; simpl; [reflexivity|].
  rewrite IH, splitHead_digit by apply mod10_digit. reflexivity.
Qed.

Lemma cons_app c s : String c EmptyString ++ s = String c s.
Proof. reflexivity. Qed.

Lemma app_cons c x y : String c x ++ y = String c (x ++ y).
Proof. reflexivity. Qed.

Lemma splitHead_sign c r :
  c = "-"%char \/ c = "+"%char ->
  splitHead "T" (String c r) = String c (splitHead "T" r).
Proof. intros [-> | ->]; reflexivity. Qed.

Lemma splitHead_T r : splitHead "T" (String "T" r) = EmptyString.
Proof. reflexivity. Qed.

Lemma splitHead_month_day m d r :
  splitHead "T"
    (String "-" (fixedDigits 2 m (String "-" (fixedDigits 2 d (String "T" r)))))
  = String "-" (fixedDigits 2 m (String "-" (fixedDigits 2 d EmptyString))).
Proof.
  rewrite splitHead_sign, splitHead_fixedDigits, splitHead_sign,
    splitHead_fixedDigits, splitHead_T by auto.
  reflexivity.
Qed.

(** [toISOString().split('T')[0]] is the date part. *)
Lemma splitHead_toISOString t : splitHead "T" (toISOString t) = isoDatePart (Day t).
Proof.
  unfold toISOString, isoDatePart, isoYear.
  set (d := Day t).
  destruct ((0 <=? YearFromDay d) && (YearFromDay d <=? 9999)).
  - rewrite !append_assoc, !cons_app, <- !fixedDigits_app.
    rewrite splitHead_fixedDigits, splitHead_month_day. reflexivity.
  - rewrite !append_assoc, !cons_app, !app_cons, <- !fixedDigits_app.
    rewrite splitHead_sign by (destruct (YearFromDay d <? 0); auto).
    rewrite splitHead_fixedDigits, splitHead_month_day. reflexivity.
Qed.

Lemma isoDatePart_nonempty d : truthy (isoDatePart d) = true.
Proof.
  unfold isoDatePart, isoYear.
  destruct ((0 <=? YearFromDay d) && (YearFromDay d <=? 9999)); [|reflexivity].
  rewrite (fixedDigits_head 3). reflexivity.
Qed.

Lemma Day_bounds t : Day t * msPerDay <= t < (Day t + 1) * msPerDay.
Proof. unfold Day, msPerDay. Z.to_euclidean_division_equations; lia. Qed.

Lemma Day_of_midnight d : Day (d * msPerDay) = d.
Proof. unfold Day, msPerDay. Z.to_euclidean_division_equations; lia. Qed.

Lemma normalizeDate_parsed rt doc s t :
  date doc = Some s -> truthy s = true -> Date_parse rt s = Some t ->
  normalizeDate rt doc = (set_date (isoDatePart (Day t)) doc, Next).
Proof.
  intros Hd Hs Hp. unfold normalizeDate.
  rewrite Hd, Hs, Hp, splitHead_toISOString. reflexivity.
Qed.

Lemma normalizeDate_unparsed rt doc s :
  date doc = Some s -> truthy s = true -> Date_parse rt s = None ->
  normalizeDate rt doc
  = (doc, NextErr (NewError "Invalid date format. Expected a valid date string.")).
Proof. intros Hd Hs Hp. unfold normalizeDate. rewrite Hd, Hs, Hp. reflexivity. Qed.

Lemma host_parse_march_5 minutesEast :
  Host.parse minutesEast "March 5, 2024"
  = Host.timeClip (1709596800000 - minutesEast * 60000).
Proof. reflexivity. Qed.

Lemma host_march_5_west minutesEast :
  -1440 < minutesEast <= 0 ->
  exists t, Host.parse minutesEast "March 5, 2024" = Some t
            /\ 1709596800000 <= t < 1709683200000.
Proof.
  intros H. rewrite host_parse_march_5. unfold Host.timeClip, maxTime.
  destruct (_ && _) eqn:E; [|lia]. eexists. split; [reflexivity|lia].
Qed.

Lemma host_march_5_east minutesEast :
  0 < minutesEast <= 1440 ->
  exists t, Host.parse minutesEast "March 5, 2024" = Some t
            /\ 1709510400000 <= t < 1709596800000.
Proof.
  intros H. rewrite host_parse_march_5. unfold Host.timeClip, maxTime.
  destruct (_ && _) eqn:E; [|lia]. eexists. split; [reflexivity|lia].
Qed.

Lemma Day_march_5 t : 1709596800000 <= t < 1709683200000 -> Day t = 19787.
Proof. intros H. unfold Day, msPerDay. Z.to_euclidean_division_equations; lia. Qed.

Lemma Day_march_4 t : 1709510400000 <= t < 1709596800000 -> Day t = 19786.
Proof. intros H. unfold Day, msPerDay. Z.to_euclidean_division_equations; lia. Qed.

(** C5, as amended. The date step hands the string to the host's
    [Date.parse]. If the answer is NaN the hook fails with the "invalid
    date" error. Otherwise the date becomes the date part of
    [toISOString]: year, month and day of the UTC day that contains the
    parsed instant, the year with four digits from 0 to 9999 and with a sign
    and six digits outside. For "March 5, 2024" the result is "2024-03-05"
    when the host places that string within the UTC day 2024-03-05, as a
    host that reads it as local midnight does at UTC and up to a day west of
    it; east of UTC such a host places it on the day before and the result
    is "2024-03-04". *)
Theorem date_normalized_to_utc_calendar_date :
  (forall rt doc s,
      date doc = Some s -> truthy s = true -> Date_parse rt s = None ->
      normalizeDate rt doc
      = (doc, NextErr (NewError "Invalid date format. Expected a valid date string.")))
  /\ (forall rt doc s t,
      date doc = Some s -> truthy s = true -> Date_parse rt s = Some t ->
      let d := Day t in
      normalizeDate rt doc
      = (set_date (isoYear (YearFromDay d) ++ "-" ++ Spec.two (MonthFromDay d + 1)
                   ++ "-" ++ Spec.two (DateFromDay d)) doc, Next)
      /\ d * msPerDay <= t < (d + 1) * msPerDay
      /\ DayFromYear (YearFromDay d) <= d < DayFromYear (YearFromDay d + 1)
      /\ 0 <= MonthFromDay d <= 11 /\ 1 <= DateFromDay d <= 31
      /\ MakeDay (YearFromDay d) (MonthFromDay d) (DateFromDay d) = d)
  /\ (forall rt doc t,
      date doc = Some "March 5, 2024" -> Date_parse rt "March 5, 2024" = Some t ->
      (1709596800000 <= t < 1709683200000 ->
       normalizeDate rt doc = (set_date "2024-03-05" doc, Next))
      /\ (1709510400000 <= t < 1709596800000 ->
          normalizeDate rt doc = (set_date "2024-03-04" doc, Next)))
  /\ (forall minutesEast doc,
      date doc = Some "March 5, 2024" ->
      (-1440 < minutesEast <= 0 ->
       normalizeDate (Host.runtime minutesEast) doc = (set_date "2024-03-05" doc, Next))
      /\ (0 < minutesEast <= 1440 ->
          normalizeDate (Host.runtime minutesEast) doc
          = (set_date "2024-03-04" doc, Next))).
Proof.
  split; [|split; [|split]].
  - apply normalizeDate_unparsed.
  - intros rt doc s t Hd Hs Hp d.
    destruct (calendar_fields d) as (Hm & Hdt & Hmk).
    split; [apply (normalizeDate_parsed rt doc s t Hd Hs Hp)|].
    split; [apply Day_bounds|]. split; [apply YearFromDay_spec|]. auto.
  - intros rt doc t Hd Hp. split; intros Ht.
    + rewrite (normalizeDate_parsed rt doc _ t Hd eq_refl Hp), (Day_march_5 t Ht).
      reflexivity.
    + rewrite (normalizeDate_parsed rt doc _ t Hd eq_refl Hp), (Day_march_4 t Ht).
      reflexivity.
  - intros tz doc Hd. split; intros Htz.
    + destruct (host_march_5_west tz Htz) as (t & Hp & Ht).
      rewrite (normalizeDate_parsed (Host.runtime tz) doc _ t Hd eq_refl Hp),
        (Day_march_5 t Ht).
      reflexivity.
    + destruct (host_march_5_east tz Htz) as (t & Hp & Ht).
      rewrite (normalizeDate_parsed (Host.runtime tz) doc _ t Hd eq_refl Hp),
        (Day_march_4 t Ht).
      reflexivity.
Qed.

Lemma date_normalized_to_utc_calendar_date_witness :
  normalizeDate (Host.runtime 0) Samples.myEvent
  = (set_date "2024-03-05" Samples.myEvent, Next).
Proof.
  destruct date_normalized_to_utc_calendar_date as (_ & _ & _ & H).
  apply (H 0 Samples.myEvent); [reflexivity | lia].
Defined.

(** C5 as stated fails: in a process whose local zone is one hour east of
    UTC, "March 5, 2024" is midnight local time, 23:00 UTC of the day
    before, and the date stored is "2024-03-04". *)
Lemma march_5_stored_as_march_4_east_of_utc :
  Host.parse 60 "March 5, 2024" = Some 1709593200000
  /\ toISOString 1709593200000 = "2024-03-04T23:00:00.000Z"
  /\ normalizeDate (Host.runtime 60) Samples.myEvent
     = (set_date "2024-03-04" Samples.myEvent, Next).
Proof. repeat split; vm_compute; reflexivity. Qed.

(** ** The host of the examples does what the standard fixes *)

Lemma takeDigits_fixedDigits w n a rest :
  Host.takeDigits w a (fixedDigits w n rest)
  = Some (a * 10 ^ Z.of_nat w + n mod 10 ^ Z.of_nat w, rest).
Proof.
  revert a. induction w as [|k IH]; intros a.
  - simpl. rewrite Z.mod_1_r. do 2 f_equal. lia.
  - rewrite fixedDigits_head. simpl Host.takeDigits.
    rewrite isDigit_digitChar, digitValue_digitChar by apply mod10_digit.
    rewrite IH. do 2 f_equal.
    rewrite Nat2Z.inj_succ, Z.pow_succ_r by lia.
    assert (0 < 10 ^ Z.of_nat k) as Hp by (apply Z.pow_pos_nonneg; lia).
    replace (10 * 10 ^ Z.of_nat k) with (10 ^ Z.of_nat k * 10) by ring.
    rewrite (Z.rem_mul_r n (10 ^ Z.of_nat k) 10) by lia. ring.
Qed.

Lemma takeDigits_fixedDigits_small w n rest :
  0 <= n < 10 ^ Z.of_nat w ->
  Host.takeDigits w 0 (fixedDigits w n rest) = Some (n, rest).
Proof.
  intros H. rewrite takeDigits_fixedDigits, Z.mod_small by lia. reflexivity.
Qed.

Lemma yearField_isoYear y rest :
  -271821 <= y <= 275760 ->
  Host.yearField (isoYear y ++ rest) = Some (y, rest).
Proof.
  intros Hy. unfold isoYear.
  destruct ((0 <=? y) && (y <=? 9999)) eqn:E.
  - rewrite <- fixedDigits_app.
    pose proof (takeDigits_fixedDigits_small 4 y rest ltac:(simpl; lia)) as Ht.
    revert Ht. rewrite (fixedDigits_head 3). unfold Host.yearField.
    rewrite !eqb_code, code_digitChar by apply mod10_digit.
    pose proof (mod10_digit (y / 10 ^ Z.of_nat 3)) as Hq. literal_codes.
    set (q := (y / 10 ^ Z.of_nat 3) mod 10) in *.
    replace (48 + q =? 43) with false by lia.
    replace (48 + q =? 45) with false by lia.
    auto.
  - rewrite app_cons, <- fixedDigits_app. unfold Host.yearField.
    destruct (y <? 0) eqn:En.
    + change (Ascii.eqb "-" "+") with false. change (Ascii.eqb "-" "-") with true.
      cbv iota. rewrite takeDigits_fixedDigits_small by (simpl; lia).
      simpl. replace (Z.abs y =? 0) with false by lia. do 2 f_equal. lia.
    + change (Ascii.eqb "+" "+") with true. cbv iota.
      rewrite takeDigits_fixedDigits_small by (simpl; lia).
      do 2 f_equal. lia.
Qed.

Lemma mbind_Some {A B} (x : A) (f : A -> option B) : Some x ≫= f = f x.
Proof. reflexivity. Qed.

Lemma expectChar_hyphen r : Host.expectChar "-" (String "-" r) = Some r.
Proof. reflexivity. Qed.

Lemma parseDateOnly_isoDatePart d :
  -100000000 <= d <= 100000000 ->
  Host.parseDateOnly (isoDatePart d) = Some (d * msPerDay).
Proof.
  intros Hd.
  pose proof (YearFromDay_range d Hd) as Hy.
  destruct (calendar_fields d) as (Hm & Hdt & Hmk).
  unfold isoDatePart, Host.parseDateOnly.
  rewrite yearField_isoYear, mbind_Some by exact Hy. cbv beta iota.
  rewrite !cons_app, <- !fixedDigits_app.
  rewrite expectChar_hyphen, mbind_Some.
  rewrite takeDigits_fixedDigits_small, mbind_Some by (simpl; lia). cbv beta iota.
  rewrite expectChar_hyphen, mbind_Some.
  rewrite takeDigits_fixedDigits_small, mbind_Some by (simpl; lia). cbv beta iota.
  change (negb (truthy EmptyString)) with true.
  replace (MonthFromDay d + 1 - 1) with (MonthFromDay d) by lia.
  rewrite Hmk.
  replace (true && (1 <=? MonthFromDay d + 1) && (MonthFromDay d + 1 <=? 12)
           && (1 <=? DateFromDay d) && (DateFromDay d <=? 31)) with true by lia.
  unfold Host.timeClip, maxTime, msPerDay.
  destruct (_ && _) eqn:E; [reflexivity|lia].
Qed.

Lemma host_dateOnlyAsUTC minutesEast : dateOnlyAsUTC (Host.runtime minutesEast).
Proof.
  intros d Hd. simpl. unfold Host.parse.
  rewrite parseDateOnly_isoDatePart by exact Hd. reflexivity.
Qed.

Lemma timeClip_range x t : Host.timeClip x = Some t -> - maxTime <= t <= maxTime.
Proof.
  unfold Host.timeClip. destruct (_ && _) eqn:E; [|discriminate].
  intros [= <-]. lia.
Qed.

Lemma mbind_None {A B} (f : A -> option B) : None ≫= f = None.
Proof. reflexivity. Qed.

Lemma host_timeValues minutesEast : timeValues (Host.runtime minutesEast).
Proof.
  intros s t. simpl. unfold Host.parse.
  destruct (Host.parseDateOnly s) as [t'|] eqn:E.
  - intros [= <-]. unfold Host.parseDateOnly in E.
    destruct (Host.yearField s) as [[y r1]|];
      [rewrite mbind_Some in E; cbv beta iota in E | discriminate E].
    destruct (Host.expectChar "-" r1) as [r2|];
      [rewrite mbind_Some in E | discriminate E].
    destruct (Host.takeDigits 2 0 r2) as [[m r3]|];
      [rewrite mbind_Some in E; cbv beta iota in E | discriminate E].
    destruct (Host.expectChar "-" r3) as [r4|];
      [rewrite mbind_Some in E | discriminate E].
    destruct (Host.takeDigits 2 0 r4) as [[d r5]|];
      [rewrite mbind_Some in E; cbv beta iota in E | discriminate E].
    destruct (_ && _) in E; [|discriminate].
    apply timeClip_range in E. exact E.
  - unfold Host.parseMonthDayYear.
    destruct (Host.takeLetters s) as [w r1].
    destruct (Host.monthOfName w) as [m|]; [rewrite mbind_Some | discriminate].
    destruct (Host.dayField _) as [[d r2]|];
      [rewrite mbind_Some; cbv beta iota | discriminate].
    destruct (Host.expectChar "," r2) as [r3|]; [rewrite mbind_Some | discriminate].
    destruct (Host.takeDigits 4 0 _) as [[y r4]|];
      [rewrite mbind_Some; cbv beta iota | discriminate].
    destruct (_ && _); [|discriminate].
    apply timeClip_range.
Qed.

(** ** Running the Event hook on its own output *)

Lemma set_slug_same v doc : slug doc = Some v -> set_slug v doc = doc.
Proof. destruct doc; simpl; intros ->; reflexivity. Qed.

Lemma set_date_same v doc : date doc = Some v -> set_date v doc = doc.
Proof. destruct doc; simpl; intros ->; reflexivity. Qed.

Lemma set_time_same v doc : time doc = Some v -> set_time v doc = doc.
Proof. destruct doc; simpl; intros ->; reflexivity. Qed.

Lemma trim_head_not_space c r :
  isWhiteSpace c = false -> truthy (trim (String c r)) = true.
Proof.
  intros H. unfold trim. simpl. rewrite H. simpl.
  destruct (trimEnd r); [rewrite H|]; reflexivity.
Qed.

Lemma isoDatePart_not_blank d : isBlank (Some (isoDatePart d)) = false.
Proof.
  unfold isBlank. apply negb_false_iff. unfold isoDatePart, isoYear.
  destruct ((0 <=? YearFromDay d) && (YearFromDay d <=? 9999)).
  - rewrite (fixedDigits_head 3), !app_cons.
    apply trim_head_not_space, digitChar_not_space, mod10_digit.
  - rewrite !app_cons. apply trim_head_not_space.
    destruct (YearFromDay d <? 0); reflexivity.
Qed.

Lemma canonical_time_not_blank h m :
  isBlank (Some (Spec.two h ++ ":" ++ Spec.two m)) = false.
Proof.
  unfold isBlank. apply negb_false_iff. unfold Spec.two at 1.
  rewrite (fixedDigits_head 1), !app_cons.
  apply trim_head_not_space, digitChar_not_space, mod10_digit.
Qed.

Lemma deriveSlug_Next doc d1 t :
  title doc = Some t -> deriveSlug doc = (d1, Next) ->
  d1 = doc \/ d1 = set_slug (slugify t) doc.
Proof.
  intros Ht. unfold deriveSlug. rewrite Ht.
  destruct (_ || _); intros [= <-]; auto.
Qed.

Lemma normalizeDate_Next rt d1 d2 s :
  date d1 = Some s -> truthy s = true -> normalizeDate rt d1 = (d2, Next) ->
  exists t, Date_parse rt s = Some t /\ d2 = set_date (isoDatePart (Day t)) d1.
Proof.
  intros Hd Hs H. destruct (Date_parse rt s) as [t|] eqn:Hp.
  - rewrite (normalizeDate_parsed rt d1 s t Hd Hs Hp) in H.
    injection H as <-. eauto.
  - rewrite (normalizeDate_unparsed rt d1 s Hd Hs Hp) in H. discriminate.
Qed.

Lemma normalizeTimeStep_Next d2 d3 s :
  time d2 = Some s -> truthy s = true -> normalizeTimeStep d2 = (d3, Next) ->
  exists h m,
    0 <= h <= 23 /\ 0 <= m <= 59
    /\ normalizeTime s = Some (Spec.two h ++ ":" ++ Spec.two m)
    /\ d3 = set_time (Spec.two h ++ ":" ++ Spec.two m) d2.
Proof.
  intros Ht Hs. unfold normalizeTimeStep. rewrite Ht, Hs.
  destruct (normalizeTime s) as [r|] eqn:Hn; [|discriminate].
  destruct (normalizeTime_sound s r Hn) as (h & m & (Hh & Hm & _) & ->).
  rewrite canonical_time_nonempty. intros [= <-]. exists h, m. auto.
Qed.

Lemma not_blank_truthy v :
  isBlank v = false -> exists s, v = Some s /\ truthy s = true.
Proof.
  intros H. apply isBlank_false in H as (s & -> & H).
  exists s. split; [reflexivity|]. apply truthy_true, trim_nonempty, H.
Qed.

Lemma required_date_time doc :
  Forall (fun f => isBlank (get f doc) = false) requiredStringFields ->
  isBlank (date doc) = false /\ isBlank (time doc) = false.
Proof.
  unfold requiredStringFields. intros H.
  repeat match goal with
    | H : Forall _ (_ :: _) |- _ => inversion H; clear H; subst
    end.
  auto.
Qed.

(** The required fields stay filled in through the three rewriting steps. *)
Lemma required_after_steps doc d1 X Y :
  d1 = doc \/ (exists v, d1 = set_slug v doc) ->
  Forall (fun f => isBlank (get f doc) = false) requiredStringFields ->
  isBlank (Some X) = false -> isBlank (Some Y) = false ->
  Forall (fun f => isBlank (get f (set_time Y (set_date X d1))) = false)
    requiredStringFields.
Proof.
  unfold requiredStringFields. intros Hd1 H HX HY.
  repeat match goal with
    | H : Forall _ (_ :: _) |- _ => inversion H; clear H; subst
    end.
  destruct Hd1 as [-> | [v ->]]; repeat constructor; assumption.
Qed.

(** An accepted document, written out. *)
Lemma preSave_Next_shape rt doc doc' :
  preSave rt doc = (doc', Next) ->
  exists d1 s t h m,
    (d1 = doc \/ exists v, d1 = set_slug v doc)
    /\ deriveSlug doc = (d1, Next)
    /\ date doc = Some s /\ Date_parse rt s = Some t
    /\ 0 <= h <= 23 /\ 0 <= m <= 59
    /\ doc' = set_time (Spec.two h ++ ":" ++ Spec.two m)
                (set_date (isoDatePart (Day t)) d1).
Proof.
  intros H. apply preSave_Next in H as (Hreq & Ha & Htg & d1 & d2 & Hs & Hd & Ht).
  destruct (required_title doc Hreq) as (ti & Hti & _).
  destruct (required_date_time doc Hreq) as [Hbd Hbt].
  apply not_blank_truthy in Hbd as (sd & Hsd & Hsd').
  apply not_blank_truthy in Hbt as (st & Hst & Hst').
  assert (d1 = doc \/ exists v, d1 = set_slug v doc) as Hd1.
  { destruct (deriveSlug_Next doc d1 ti Hti Hs) as [-> | ->]; eauto. }
  assert (date d1 = Some sd /\ time d1 = Some st) as [Hd1d Hd1t].
  { destruct Hd1 as [-> | [v ->]]; auto. }
  destruct (normalizeDate_Next rt d1 d2 sd Hd1d Hsd' Hd) as (t & Hp & ->).
  destruct (normalizeTimeStep_Next (set_date (isoDatePart (Day t)) d1) doc' st
              Hd1t Hst' Ht)
    as (h & m & Hh & Hm & _ & ->).
  exists d1, sd, t, h, m. auto 10.
Qed.

Lemma deriveSlug_stable doc d1 d :
  deriveSlug doc = (d1, Next) ->
  title d = title doc -> slug d = slug d1 ->
  isModified_title d = isModified_title doc \/ isModified_title d = false ->
  deriveSlug d = (d, Next).
Proof.
  unfold deriveSlug. intros H Ht Hs Hm. rewrite Ht, Hs.
  destruct (isModified_title doc || negb (present (slug doc))) eqn:E.
  - destruct (title doc) as [ti|]; [|discriminate]. injection H as <-.
    simpl slug.
    destruct (isModified_title d || negb (present (Some (slugify ti))));
      [|reflexivity].
    rewrite set_slug_same by (rewrite Hs; reflexivity). reflexivity.
  - injection H as <-. apply orb_false_elim in E as [E1 E2].
    destruct Hm as [-> | ->]; [rewrite E1|]; simpl; rewrite E2; reflexivity.
Qed.

Lemma Day_range t : - maxTime <= t <= maxTime -> -100000000 <= Day t <= 100000000.
Proof. unfold maxTime, Day, msPerDay. intros H. Z.to_euclidean_division_equations; lia. Qed.

Lemma normalizeDate_stable rt d t :
  dateOnlyAsUTC rt -> - maxTime <= t <= maxTime ->
  date d = Some (isoDatePart (Day t)) ->
  normalizeDate rt d = (d, Next).
Proof.
  intros Hiso Ht Hd.
  rewrite (normalizeDate_parsed rt d _ (Day t * msPerDay) Hd (isoDatePart_nonempty _)).
  - rewrite Day_of_midnight, set_date_same by exact Hd. reflexivity.
  - apply Hiso, Day_range, Ht.
Qed.

Lemma normalizeTimeStep_stable d h m :
  0 <= h <= 23 -> 0 <= m <= 59 ->
  time d = Some (Spec.two h ++ ":" ++ Spec.two m) ->
  normalizeTimeStep d = (d, Next).
Proof.
  intros Hh Hm Ht. unfold normalizeTimeStep.
  rewrite Ht, canonical_time_nonempty, normalizeTime_canonical by lia.
  rewrite canonical_time_nonempty, set_time_same by exact Ht. reflexivity.
Qed.

Lemma preSave_stable rt doc d1 t h m d :
  timeValues rt -> dateOnlyAsUTC rt ->
  Forall (fun f => isBlank (get f doc) = false) requiredStringFields ->
  noItems (agenda doc) = false -> noItems (tags doc) = false ->
  deriveSlug doc = (d1, Next) ->
  (d1 = doc \/ exists v, d1 = set_slug v doc) ->
  - maxTime <= t <= maxTime -> 0 <= h <= 23 -> 0 <= m <= 59 ->
  let doc' := set_time (Spec.two h ++ ":" ++ Spec.two m)
                (set_date (isoDatePart (Day t)) d1) in
  d = doc' \/ d = markSaved doc' ->
  preSave rt d = (d, Next).
Proof.
  intros Htv Hiso Hreq Ha Htg Hs Hd1 Ht Hh Hm doc' Hd.
  assert (forall f, get f d = get f doc') as Hget
    by (destruct Hd as [-> | ->]; intros []; reflexivity).
  assert (agenda d = agenda doc /\ tags d = tags doc /\ title d = title doc
          /\ slug d = slug d1
          /\ date d = Some (isoDatePart (Day t))
          /\ time d = Some (Spec.two h ++ ":" ++ Spec.two m)
          /\ (isModified_title d = isModified_title doc \/ isModified_title d = false))
    as (Eag & Etg & Eti & Esl & Eda & Etm & Emo).
  { destruct Hd as [-> | ->], Hd1 as [-> | [v ->]]; simpl; auto 10. }
  apply preSave_Next. split; [|split; [|split]].
  - pose proof (required_after_steps doc d1 _ _ Hd1 Hreq
                  (isoDatePart_not_blank (Day t)) (canonical_time_not_blank h m)) as H.
    fold doc' in H. eapply Forall_impl; [exact H|].
    intros f Hf. simpl in Hf. rewrite Hget. exact Hf.
  - rewrite Eag. exact Ha.
  - rewrite Etg. exact Htg.
  - exists d, d. split; [|split].
    + apply (deriveSlug_stable doc d1 d Hs Eti Esl Emo).
    + apply (normalizeDate_stable rt d t Hiso Ht Eda).
    + apply (normalizeTimeStep_stable d h m Hh Hm Etm).
Qed.

(** C7. On a host that does what the standard fixes about [Date.parse],
    the Event hook is idempotent on what it accepts: run again on its own
    output it succeeds and changes nothing, with the record of modified
    paths as it was and also once a save has cleared it. *)
Theorem preSave_idempotent rt doc doc' :
  timeValues rt -> dateOnlyAsUTC rt ->
  preSave rt doc = (doc', Next) ->
  preSave rt doc' = (doc', Next)
  /\ preSave rt (markSaved doc') = (markSaved doc', Next).
Proof.
  intros Htv Hiso H.
  destruct (preSave_Next_shape rt doc doc' H)
    as (d1 & s & t & h & m & Hd1 & Hs & _ & Hp & Hh & Hm & ->).
  apply preSave_Next in H as (Hreq & Ha & Htg & _).
  pose proof (Htv s t Hp) as Ht.
  split; eapply (preSave_stable rt doc d1 t h m); eauto.
Qed.

Lemma preSave_idempotent_witness :
  let doc' := fst (preSave (Host.runtime 0) Samples.myEvent) in
  preSave (Host.runtime 0) doc' = (doc', Next)
  /\ preSave (Host.runtime 0) (markSaved doc') = (markSaved doc', Next).
Proof.
  apply (preSave_idempotent (Host.runtime 0) Samples.myEvent).
  - apply host_timeValues.
  - apply host_dateOnlyAsUTC.
  - vm_compute. reflexivity.
Defined.

(** ** A failing run of the Event hook *)

Lemma deriveSlug_NextErr doc d e :
  deriveSlug doc = (d, NextErr e) -> title doc = None.
Proof.
  unfold deriveSlug. destruct (_ || _); [|discriminate].
  destruct (title doc); [discriminate|reflexivity].
Qed.

Lemma normalizeDate_NextErr rt d1 d2 s e :
  date d1 = Some s -> truthy s = true -> normalizeDate rt d1 = (d2, NextErr e) ->
  Date_parse rt s = None /\ d2 = d1
  /\ e = NewError "Invalid date format. Expected a valid date string.".
Proof.
  intros Hd Hs H. destruct (Date_parse rt s) as [t|] eqn:Hp.
  - rewrite (normalizeDate_parsed rt d1 s t Hd Hs Hp) in H. discriminate.
  - rewrite (normalizeDate_unparsed rt d1 s Hd Hs Hp) in H.
    injection H as <- <-. auto.
Qed.

Lemma normalizeTimeStep_NextErr d2 d3 s e :
  time d2 = Some s -> truthy s = true -> normalizeTimeStep d2 = (d3, NextErr e) ->
  normalizeTime s = None /\ d3 = d2
  /\ e = NewError "Invalid time format. Use HH:mm or a similar 24h format.".
Proof.
  intros Ht Hs. unfold normalizeTimeStep. rewrite Ht, Hs.
  destruct (normalizeTime s) as [r|] eqn:Hn.
  - destruct (normalizeTime_sound s r Hn) as (h & m & _ & ->).
    rewrite canonical_time_nonempty. discriminate.
  - intros [= <- <-]. auto.
Qed.

Lemma save_invalid rt write collection doc :
  invalidPaths doc <> [] ->
  save rt write collection doc
  = (doc, collection, Some (ValidationError (invalidPaths doc))).
Proof.
  intros H. unfold save. destruct (invalidPaths doc); [congruence|reflexivity].
Qed.

Lemma save_hook_failed rt write collection doc doc' e :
  invalidPaths doc = [] -> preSave rt doc = (doc', NextErr e) ->
  save rt write collection doc = (doc', collection, Some e).
Proof. intros Hv H. unfold save. rewrite Hv, H. reflexivity. Qed.

Lemma save_rejected_no_write rt write collection doc d c err :
  save rt write collection doc = (d, c, Some err) -> c = collection.
Proof.
  unfold save. destruct (invalidPaths doc); [|congruence].
  destruct (preSave rt doc) as [doc' [|e]]; [|congruence].
  destruct (write collection (markSaved doc')); congruence.
Qed.

(** C9, as amended. The steps of the Event hook run in the order of the
    source and a step that fails ends the run: whatever the later steps are,
    they do not run. A document the hook fails on is never written: [save]
    rejects and the collection is left as it was. Mongoose runs the schema
    validators before the hook, so when a path is invalid the promise
    rejects with the validation error and the hook is not called; when
    every path is valid it rejects with the error of the hook; and however
    [save] comes to reject, nothing is written. The error of the hook names
    what failed: the first required field that is blank, the agenda, the
    tags, the date or the time. The document in memory is untouched when a
    check fails; when the date fails it keeps the slug step's effect, and
    when the time fails it keeps the slug and the normalized date. *)
Theorem failing_step_ends_run_and_blocks_write :
  (forall (s1 s2 : Step) doc d e,
      s1 doc = (d, NextErr e) -> (s1 >>> s2) doc = (d, NextErr e))
  /\ (forall rt write collection doc d c err,
      save rt write collection doc = (d, c, Some err) -> c = collection)
  /\ (forall rt write collection doc doc' e,
      preSave rt doc = (doc', NextErr e) ->
      (invalidPaths doc = [] ->
       save rt write collection doc = (doc', collection, Some e))
      /\ (invalidPaths doc <> [] ->
          save rt write collection doc
          = (doc, collection, Some (ValidationError (invalidPaths doc))))
      /\ (exists d err, save rt write collection doc = (d, collection, Some err))
      /\ ((doc' = doc
           /\ exists before f after,
               requiredStringFields = (before ++ f :: after)%list
               /\ Forall (fun g => isBlank (get g doc) = false) before
               /\ isBlank (get f doc) = true
               /\ e = NewError (fieldName f
                                ++ " is required and must be a non-empty string."))
          \/ (Forall (fun g => isBlank (get g doc) = false) requiredStringFields
              /\ ((doc' = doc /\ noItems (agenda doc) = true
                   /\ e = NewError "agenda is required and must contain at least one item.")
                  \/ (noItems (agenda doc) = false
                      /\ ((doc' = doc /\ noItems (tags doc) = true
                           /\ e = NewError "tags is required and must contain at least one tag.")
                          \/ (noItems (tags doc) = false
                              /\ exists d1 s,
                                  deriveSlug doc = (d1, Next) /\ date doc = Some s
                                  /\ ((Date_parse rt s = None /\ doc' = d1
                                       /\ e = NewError "Invalid date format. Expected a valid date string.")
                                      \/ (exists t st,
                                             Date_parse rt s = Some t
                                             /\ time doc = Some st
                                             /\ normalizeTime st = None
                                             /\ doc' = set_date (isoDatePart (Day t)) d1
                                             /\ e = NewError "Invalid time format. Use HH:mm or a similar 24h format."))))))))).
Proof.
  split.
  { intros s1 s2 doc d e H. apply andThen_NextErr. left. exact H. }
  split.
  { intros rt write collection doc d c err. apply save_rejected_no_write. }
  intros rt write collection doc doc' e H.
  split. { intros Hv. apply save_hook_failed; assumption. }
  split. { apply save_invalid. }
  split.
  { destruct (invalidPaths doc) as [|p ps] eqn:Hv.
    - exists doc', e. apply save_hook_failed; assumption.
    - exists doc, (ValidationError (invalidPaths doc)).
      apply save_invalid. congruence. }
  unfold preSave in H.
  apply andThen_NextErr in H as [H | (d0 & H0 & H)].
  { apply checkRequired_NextErr in H as [-> H]. left. auto. }
  apply checkRequired_Next in H0 as [-> Hreq]. right. split; [exact Hreq|].
  destruct (checkAgenda_cases doc) as [[Ea Ea'] | [Ea Ea']];
    apply andThen_NextErr in H as [H | (d0 & H0 & H)]; try congruence.
  2: { left. rewrite Ea' in H. injection H as <- <-. auto. }
  rewrite Ea' in H0. injection H0 as <-. right. split; [exact Ea|].
  destruct (checkTags_cases doc) as [[Et Et'] | [Et Et']];
    apply andThen_NextErr in H as [H | (d0 & H0 & H)]; try congruence.
  2: { left. rewrite Et' in H. injection H as <- <-. auto. }
  rewrite Et' in H0. injection H0 as <-. right. split; [exact Et|].
  destruct (required_title doc Hreq) as (ti & Hti & _).
  destruct (required_date_time doc Hreq) as [Hbd Hbt].
  apply not_blank_truthy in Hbd as (sd & Hsd & Hsd').
  apply not_blank_truthy in Hbt as (st & Hst & Hst').
  apply andThen_NextErr in H as [H | (d1 & Hs & H)].
  { apply deriveSlug_NextErr in H. congruence. }
  assert (date d1 = Some sd /\ time d1 = Some st) as [Hd1d Hd1t].
  { destruct (deriveSlug_Next doc d1 ti Hti Hs) as [-> | ->]; auto. }
  exists d1, sd. split; [exact Hs|]. split; [exact Hsd|].
  apply andThen_NextErr in H as [H | (d2 & Hd & H)].
  - left. apply (normalizeDate_NextErr rt d1 doc' sd e Hd1d Hsd') in H
      as (Hp & -> & ->). auto.
  - right. destruct (normalizeDate_Next rt d1 d2 sd Hd1d Hsd' Hd) as (t & Hp & ->).
    apply (normalizeTimeStep_NextErr (set_date (isoDatePart (Day t)) d1) doc' st e
             Hd1t Hst') in H as (Hn & -> & ->).
    exists t, st. auto 10.
Qed.

Lemma failing_step_ends_run_and_blocks_write_witness :
  save (Host.runtime 0) Samples.acceptWrite [Samples.myEvent] Samples.badTimeEvent
  = (set_date "2024-03-05" (set_slug "my-event-2024" Samples.badTimeEvent),
     [Samples.myEvent],
     Some (NewError "Invalid time format. Use HH:mm or a similar 24h format.")).
Proof.
  destruct failing_step_ends_run_and_blocks_write as (_ & _ & H).
  apply (H (Host.runtime 0) Samples.acceptWrite [Samples.myEvent]
           Samples.badTimeEvent).
  - vm_compute. reflexivity.
  - vm_compute. reflexivity.
Defined.

(** C9 as stated fails: with the time "25:00" the hook fails at its last
    step, and the document it was run on has by then a slug and a rewritten
    date. *)
Lemma failed_run_leaves_slug_and_date_rewritten :
  preSave (Host.runtime 0) Samples.badTimeEvent
  = (set_date "2024-03-05" (set_slug "my-event-2024" Samples.badTimeEvent),
     NextErr (NewError "Invalid time format. Use HH:mm or a similar 24h format."))
  /\ slug Samples.badTimeEvent = None
  /\ date Samples.badTimeEvent = Some "March 5, 2024"
  /\ set_date "2024-03-05" (set_slug "my-event-2024" Samples.badTimeEvent)
     <> Samples.badTimeEvent.
Proof.
  split; [vm_compute; reflexivity|].
  split; [reflexivity|]. split; [reflexivity|].
  intros E. apply (f_equal slug) in E. discriminate E.
Qed.

(** ** The Booking hook *)

Lemma Event_exists_absent ev id :
  BookingModel.failure ev = None -> ~ In id (BookingModel.ids ev) ->
  BookingModel.Event_exists ev id = inr false.
Proof.
  intros Hf Hid. unfold BookingModel.Event_exists. rewrite Hf. f_equal.
  destruct (existsb (N.eqb id) (BookingModel.ids ev)) eqn:E; [|reflexivity].
  apply existsb_exists in E as (x & Hx & Ex). apply N.eqb_eq in Ex. subst x.
  contradiction.
Qed.

Lemma booking_save_of_preSave ev collection doc e :
  BookingModel.invalidPaths doc = [] ->
  BookingModel.preSave ev doc = NextErr e ->
  BookingModel.save ev collection doc = (collection, Some e).
Proof. intros Hv H. unfold BookingModel.save. rewrite Hv, H. reflexivity. Qed.

Lemma booking_valid doc id e :
  BookingModel.eventId doc = Some id -> BookingModel.email doc = Some e ->
  truthy e = true -> BookingModel.invalidPaths doc = [].
Proof.
  intros Hid He Ht. unfold BookingModel.invalidPaths, present.
  rewrite Hid, He, Ht. reflexivity.
Qed.

Lemma booking_save_rejected ev collection doc :
  BookingModel.preSave ev doc <> Next ->
  exists err, BookingModel.save ev collection doc = (collection, Some err).
Proof.
  intros H. unfold BookingModel.save.
  destruct (BookingModel.invalidPaths doc); [|eauto].
  destruct (BookingModel.preSave ev doc); [congruence|eauto].
Qed.

(** C2, as amended. For a Booking that passes the email check and has an
    [eventId]: when the query finds no Event with that identity the hook
    fails with "The referenced event does not exist."; when the query itself
    throws, what it threw is handed on as it is, which is not the not-found
    error. A Booking whose [eventId] is missing or identifies no stored
    Event is never written, whatever its email and whether or not the query
    completes; with an email that does not match the pattern the hook fails
    with the email error, which is then what [save] rejects with when the
    document has an [eventId], whatever the events collection holds. *)
Theorem booking_for_missing_event_rejected :
  (forall ev collection doc id e,
      BookingModel.email doc = Some e -> truthy e = true ->
      BookingModel.EMAIL_REGEX_test e = true ->
      BookingModel.eventId doc = Some id ->
      BookingModel.failure ev = None -> ~ In id (BookingModel.ids ev) ->
      BookingModel.preSave ev doc
      = NextErr (NewError "The referenced event does not exist.")
      /\ BookingModel.save ev collection doc
         = (collection, Some (NewError "The referenced event does not exist.")))
  /\ (forall ev collection doc id e reason,
      BookingModel.email doc = Some e -> truthy e = true ->
      BookingModel.EMAIL_REGEX_test e = true ->
      BookingModel.eventId doc = Some id ->
      BookingModel.failure ev = Some reason ->
      BookingModel.preSave ev doc = NextErr (Caught reason)
      /\ Caught reason <> NewError "The referenced event does not exist."
      /\ BookingModel.save ev collection doc = (collection, Some (Caught reason)))
  /\ (forall ev collection doc,
      (forall id, BookingModel.eventId doc = Some id -> ~ In id (BookingModel.ids ev)) ->
      exists err, BookingModel.save ev collection doc = (collection, Some err))
  /\ (forall ev collection doc e,
      BookingModel.email doc = Some e -> truthy e = true ->
      BookingModel.EMAIL_REGEX_test e = false ->
      BookingModel.preSave ev doc
      = NextErr (NewError "A valid email address is required.")
      /\ (forall id, BookingModel.eventId doc = Some id ->
          BookingModel.save ev collection doc
          = (collection, Some (NewError "A valid email address is required.")))).
Proof.
  split; [|split; [|split]].
  - intros ev collection doc id e He Ht Hr Hid Hf Hn.
    assert (BookingModel.preSave ev doc
            = NextErr (NewError "The referenced event does not exist.")) as H.
    { unfold BookingModel.preSave, present.
      rewrite He, Ht, Hr, Hid, (Event_exists_absent ev id Hf Hn). reflexivity. }
    split; [exact H|].
    apply booking_save_of_preSave; [apply (booking_valid doc id e); assumption|exact H].
  - intros ev collection doc id e reason He Ht Hr Hid Hf.
    assert (BookingModel.preSave ev doc = NextErr (Caught reason)) as H.
    { unfold BookingModel.preSave, present, BookingModel.Event_exists.
      rewrite He, Ht, Hr, Hid, Hf. reflexivity. }
    split; [exact H|]. split; [discriminate|].
    apply booking_save_of_preSave; [apply (booking_valid doc id e); assumption|exact H].
  - intros ev collection doc Hid.
    apply booking_save_rejected. intros H.
    + unfold BookingModel.preSave in H.
      destruct (_ || _); [discriminate|].
      destruct (BookingModel.eventId doc) as [id|]; [|discriminate].
      specialize (Hid id eq_refl).
      unfold BookingModel.Event_exists in H.
      destruct (BookingModel.failure ev); [discriminate|].
      destruct (existsb (N.eqb id) (BookingModel.ids ev)) eqn:E; [|discriminate].
      apply existsb_exists in E as (x & Hx & Ex). apply N.eqb_eq in Ex. subst x.
      contradiction.
  - intros ev collection doc e He Ht Hr.
    assert (BookingModel.preSave ev doc
            = NextErr (NewError "A valid email address is required.")) as H.
    { unfold BookingModel.preSave, present. rewrite He, Ht, Hr. reflexivity. }
    split; [exact H|]. intros id Hid.
    apply booking_save_of_preSave; [apply (booking_valid doc id e); assumption|exact H].
Qed.

Lemma booking_for_missing_event_rejected_witness :
  BookingModel.preSave Samples.storedEvents Samples.orphanBooking
  = NextErr (NewError "The referenced event does not exist.")
  /\ BookingModel.save Samples.storedEvents [] Samples.orphanBooking
     = ([], Some (NewError "The referenced event does not exist.")).
Proof.
  destruct booking_for_missing_event_rejected as [H _].
  apply (H Samples.storedEvents [] Samples.orphanBooking 7%N "ada@example.org");
    try reflexivity.
  simpl. intros [H1 | [H2 | []]]; discriminate.
Defined.

(** C2 as stated fails: a Booking for an Event that does not exist, with an
    email that is not an address, is rejected with the email error, not with
    the referential-integrity one. *)
Lemma orphan_booking_with_bad_email_gets_email_error :
  ~ In 7%N (BookingModel.ids Samples.storedEvents)
  /\ BookingModel.preSave Samples.storedEvents Samples.orphanBookingBadEmail
     = NextErr (NewError "A valid email address is required.")
  /\ BookingModel.preSave Samples.storedEvents Samples.orphanBookingBadEmail
     <> NextErr (NewError "The referenced event does not exist.").
Proof.
  split; [simpl; intros [H1 | [H2 | []]]; discriminate|].
  split; [reflexivity|discriminate].
Qed.

(** ** The cached connection *)

Import Mongodb.

Lemma run_app w evs1 evs2 :
  run w (evs1 ++ evs2)%list = match run w evs1 with
                              | Some w' => run w' evs2
                              | None => None
                              end.
Proof.
  revert w. induction evs1 as [|ev evs1 IH]; intros w; simpl; [reflexivity|].
  destruct (step w ev); [apply IH|reflexivity].
Qed.

Lemma consistent_initial : consistent initial.
Proof. split; reflexivity. Qed.

Lemma consistent_step w ev w' : consistent w -> step w ev = Some w' -> consistent w'.
Proof.
  destruct w as [[cn pr] ps cs]. unfold consistent. simpl.
  destruct ps as [|p0 [|p1 ps]]; [| |contradiction].
  - intros [[= -> ->] ->]. destruct ev as [|p r|i]; simpl.
    + intros [= <-]. simpl. repeat split; [discriminate|].
      repeat constructor.
    + unfold settle. simpl. discriminate.
    + unfold resume. simpl. discriminate.
  - intros (-> & Hconn & Hcalls). destruct ev as [|p r|i]; simpl.
    + unfold connectToDatabase. simpl. destruct cn as [h|]; intros [= <-]; simpl.
      * repeat split; auto. apply Forall_app. split; [exact Hcalls|].
        repeat constructor. simpl. auto.
      * repeat split; auto. apply Forall_app. split; [exact Hcalls|].
        repeat constructor.
    + unfold settle. simpl. destruct p as [|p]; simpl; [|discriminate].
      destruct p0; [|discriminate]. intros [= <-]. simpl.
      repeat split.
      * intros h Hh. specialize (Hconn h Hh). discriminate.
      * eapply Forall_impl; [exact Hcalls|].
        intros [q|h|e]; simpl; [auto|discriminate|discriminate].
    + unfold resume. simpl. destruct (cs !! i) as [[q|h|e]|] eqn:Ei; try discriminate.
      pose proof (Forall_lookup_1 _ _ _ _ Hcalls Ei) as Hq. simpl in Hq. subst q.
      simpl. destruct p0 as [|[h|e]]; [discriminate| |]; intros [= <-]; simpl.
      * repeat split; [intros h' [= <-]; reflexivity|].
        apply Forall_insert; [exact Hcalls|reflexivity].
      * repeat split; [exact Hconn|].
        apply Forall_insert; [exact Hcalls|reflexivity].
Qed.

Lemma consistent_run evs : forall w w', consistent w -> run w evs = Some w' -> consistent w'.
Proof.
  induction evs as [|ev evs IH]; intros w w' Hw; simpl.
  - intros [= <-]. exact Hw.
  - destruct (step w ev) as [w1|] eqn:E; [|discriminate].
    apply IH. eapply consistent_step; eauto.
Qed.

Lemma reachable_consistent evs w : run initial evs = Some w -> consistent w.
Proof. apply consistent_run, consistent_initial. Qed.

(** A consistent process has made no attempt and no call, or one attempt. *)
Lemma consistent_cases w :
  consistent w ->
  (promises w = [] /\ cached w = uninitialized /\ calls w = [])
  \/ (exists ps,
        promises w = [ps] /\ promise (cached w) = Some 0%nat
        /\ (forall h, conn (cached w) = Some h -> ps = Done (Fulfilled h))
        /\ Forall (agrees ps) (calls w)).
Proof.
  unfold consistent. destruct (promises w) as [|ps [|q l]]; [| |contradiction].
  - intros [H1 H2]. left. auto.
  - intros H. right. exists ps. auto.
Qed.

(** An invocation that awaits a settled attempt goes on and ends as the
    attempt did. *)
Lemma resume_fulfilled w i h :
  calls w !! i = Some (Awaiting 0) -> promises w !! 0%nat = Some (Done (Fulfilled h)) ->
  exists w', step w (Resume i) = Some w' /\ calls w' !! i = Some (Returned h)
             /\ conn (cached w') = Some h /\ promises w' = promises w.
Proof.
  intros Hi Hp. simpl. unfold resume. rewrite Hi, Hp. eexists. split; [reflexivity|].
  simpl. split; [|auto]. apply list_lookup_insert_eq. eapply lookup_lt_Some, Hi.
Qed.

Lemma resume_rejected w i e :
  calls w !! i = Some (Awaiting 0) -> promises w !! 0%nat = Some (Done (Rejected e)) ->
  exists w', step w (Resume i) = Some w' /\ calls w' !! i = Some (Threw e)
             /\ cached w' = cached w /\ promises w' = promises w.
Proof.
  intros Hi Hp. simpl. unfold resume. rewrite Hi, Hp. eexists. split; [reflexivity|].
  simpl. split; [|auto]. apply list_lookup_insert_eq. eapply lookup_lt_Some, Hi.
Qed.

(** [n] invocations before anything else happens: one attempt, and every
    invocation awaits it. *)
Lemma run_invokes_more n k :
  run {| cached := {| conn := None; promise := Some 0%nat |};
         promises := [Pending]; calls := replicate k (Awaiting 0) |}
      (replicate n Invoke)
  = Some {| cached := {| conn := None; promise := Some 0%nat |};
            promises := [Pending]; calls := replicate (k + n) (Awaiting 0) |}.
Proof.
  revert k. induction n as [|n IH]; intros k.
  - rewrite Nat.add_0_r. reflexivity.
  - simpl. unfold connectToDatabase. simpl.
    rewrite <- replicate_S_end, IH. do 3 f_equal. lia.
Qed.

Lemma run_invokes n :
  run initial (replicate (S n) Invoke)
  = Some {| cached := {| conn := None; promise := Some 0%nat |};
            promises := [Pending]; calls := replicate (S n) (Awaiting 0) |}.
Proof.
  change (run initial (replicate (S n) Invoke))
    with (run {| cached := {| conn := None; promise := Some 0%nat |};
                 promises := [Pending]; calls := replicate 1 (Awaiting 0) |}
              (replicate n Invoke)).
  apply run_invokes_more.
Qed.

(** The invocations after those in [finished] go on, in order. *)
Lemma run_resumes h n : forall finished c,
  run {| cached := c; promises := [Done (Fulfilled h)];
         calls := finished ++ replicate n (Awaiting 0) |}
      (map Resume (seq (length finished) n))
  = Some {| cached := match n with
                      | O => c
                      | S _ => {| conn := Some h; promise := promise c |}
                      end;
            promises := [Done (Fulfilled h)];
            calls := finished ++ replicate n (Returned h) |}.
Proof.
  induction n as [|n IH]; intros finished c; [reflexivity|].
  simpl. unfold resume. simpl.
  rewrite list_lookup_middle by reflexivity. simpl.
  rewrite insert_app_r_alt by lia. rewrite Nat.sub_diag. simpl.
  rewrite (cons_middle (Returned h)), app_assoc.
  replace (S (length finished)) with (length (finished ++ [Returned h]))
    by (rewrite length_app; simpl; lia).
  rewrite IH. rewrite <- app_assoc. simpl. f_equal. f_equal.
  destruct n; reflexivity.
Qed.

(** Every invocation is made, then the attempt succeeds, then every
    invocation goes on. *)
Lemma run_concurrent_calls n h :
  run initial (replicate (S n) Invoke ++ [Settle 0 (Fulfilled h)]
               ++ map Resume (seq 0 (S n)))%list
  = Some {| cached := {| conn := Some h; promise := Some 0%nat |};
            promises := [Done (Fulfilled h)];
            calls := replicate (S n) (Returned h) |}.
Proof.
  rewrite run_app, run_invokes, run_app. simpl run at 2.
  apply (run_resumes h (S n) [] {| conn := None; promise := Some 0%nat |}).
Qed.

(** C1. However invocations of [connectToDatabase], the settling of the
    attempt and the resumptions of suspended invocations interleave from a
    process without connection: [mongoose.connect] is called at most once,
    and exactly once as soon as one invocation has been made; any two
    invocations that return, return the same handle; and once the attempt
    has succeeded with a handle, every invocation has returned that handle
    or is suspended and returns it when it goes on. For every [n], [n + 1]
    invocations made before the attempt settles end with one attempt and
    [n + 1] times the same handle returned. *)
Theorem single_connection_attempt :
  (forall evs w,
      run initial evs = Some w ->
      (length (promises w) <= 1)%nat
      /\ (calls w <> [] -> length (promises w) = 1%nat)
      /\ (forall i j hi hj,
            calls w !! i = Some (Returned hi) -> calls w !! j = Some (Returned hj) ->
            hi = hj)
      /\ (forall h,
            promises w !! 0%nat = Some (Done (Fulfilled h)) ->
            forall i c,
              calls w !! i = Some c ->
              c = Returned h
              \/ (c = Awaiting 0
                  /\ exists w', step w (Resume i) = Some w'
                                /\ calls w' !! i = Some (Returned h)
                                /\ promises w' = promises w)))
  /\ (forall n h,
      exists w,
        run initial (replicate (S n) Invoke ++ [Settle 0 (Fulfilled h)]
                     ++ map Resume (seq 0 (S n)))%list = Some w
        /\ length (promises w) = 1%nat
        /\ calls w = replicate (S n) (Returned h)
        /\ conn (cached w) = Some h).
Proof.
  split.
  - intros evs w Hrun. apply reachable_consistent in Hrun.
    destruct (consistent_cases w Hrun)
      as [(Hp & Hc & Hcs) | (ps & Hp & Hpr & Hconn & Hcalls)].
    + rewrite Hp, Hcs. simpl. split; [lia|]. split; [congruence|].
      split; [intros i j hi hj Hi; discriminate Hi|].
      intros h Hh. discriminate Hh.
    + rewrite Hp. simpl. split; [lia|]. split; [reflexivity|]. split.
      * intros i j hi hj Hi Hj.
        pose proof (Forall_lookup_1 _ _ _ _ Hcalls Hi) as H1.
        pose proof (Forall_lookup_1 _ _ _ _ Hcalls Hj) as H2.
        simpl in H1, H2. congruence.
      * intros h [= ->] i c Hi.
        pose proof (Forall_lookup_1 _ _ _ _ Hcalls Hi) as H1.
        destruct c as [q|h'|e]; simpl in H1.
        -- subst q. right. split; [reflexivity|].
           destruct (resume_fulfilled w i h Hi) as (w' & Hs & Hc' & _ & Hp').
           { rewrite Hp. reflexivity. }
           exists w'. rewrite <- Hp. auto.
        -- left. congruence.
        -- discriminate.
  - intros n h. eexists. split; [apply run_concurrent_calls|].
    simpl. auto.
Qed.

Lemma single_connection_attempt_witness :
  (length (promises (connectToDatabase (connectToDatabase initial))) <= 1)%nat.
Proof.
  destruct single_connection_attempt as [H _].
  apply (H [Invoke; Invoke]). reflexivity.
Defined.

(** C3, as amended. When the connection attempt fails, every invocation
    that saw the attempt has thrown its error or is suspended and throws it
    when it goes on. The cache is not reset: it holds no connection and
    still holds the rejected promise. A later invocation therefore starts no
    new attempt; it awaits the same promise and throws the same error. *)
Theorem failed_attempt_propagates_and_stays_cached evs w e :
  run initial evs = Some w ->
  promises w !! 0%nat = Some (Done (Rejected e)) ->
  (forall i c,
      calls w !! i = Some c ->
      c = Threw e
      \/ (c = Awaiting 0
          /\ exists w', step w (Resume i) = Some w'
                        /\ calls w' !! i = Some (Threw e)
                        /\ cached w' = cached w))
  /\ cached w = {| conn := None; promise := Some 0%nat |}
  /\ promises (connectToDatabase w) = promises w
  /\ calls (connectToDatabase w) = (calls w ++ [Awaiting 0])%list
  /\ exists w',
      step (connectToDatabase w) (Resume (length (calls w))) = Some w'
      /\ calls w' = (calls w ++ [Threw e])%list
      /\ promises w' = promises w
      /\ cached w' = cached w.
Proof.
  intros Hrun Hrej. apply reachable_consistent in Hrun.
  destruct (consistent_cases w Hrun)
    as [(Hp & _) | (ps & Hp & Hpr & Hconn & Hcalls)].
  { rewrite Hp in Hrej. discriminate Hrej. }
  rewrite Hp in Hrej. injection Hrej as ->.
  assert (cached w = {| conn := None; promise := Some 0%nat |}) as Hc.
  { destruct (cached w) as [[h|] pr]; simpl in *; subst pr; [|reflexivity].
    specialize (Hconn h eq_refl). discriminate. }
  split; [|split; [exact Hc|]].
  - intros i c Hi. pose proof (Forall_lookup_1 _ _ _ _ Hcalls Hi) as H1.
    destruct c as [q|h|e']; simpl in H1.
    + subst q. right. split; [reflexivity|].
      destruct (resume_rejected w i e Hi) as (w' & Hs & Hc' & Hcc & _).
      { rewrite Hp. reflexivity. }
      exists w'. auto.
    + discriminate.
    + left. congruence.
  - unfold connectToDatabase. rewrite Hc. simpl.
    split; [reflexivity|]. split; [reflexivity|].
    unfold resume. simpl.
    rewrite list_lookup_middle by reflexivity. rewrite Hp. simpl.
    eexists. split; [reflexivity|]. simpl.
    rewrite insert_app_r_alt by lia. rewrite Nat.sub_diag. auto.
Qed.

Lemma failed_attempt_propagates_and_stays_cached_witness :
  let w := {| cached := {| conn := None; promise := Some 0%nat |};
              promises := [Done (Rejected "ECONNREFUSED")];
              calls := [Awaiting 0] |} in
  run initial [Invoke; Settle 0 (Rejected "ECONNREFUSED")] = Some w
  /\ cached w = {| conn := None; promise := Some 0%nat |}
  /\ promises (connectToDatabase w) = promises w.
Proof.
  intros w. split; [reflexivity|].
  destruct (failed_attempt_propagates_and_stays_cached
              [Invoke; Settle 0 (Rejected "ECONNREFUSED")] w "ECONNREFUSED"
              eq_refl eq_refl) as (_ & H1 & H2 & _).
  split; assumption.
Defined.

(** C3 as stated fails: after a failed attempt that its caller has seen
    fail, the cache is not in its first state, and a second invocation
    makes no second attempt: it fails with the error of the first. *)
Lemma failed_attempt_is_never_retried :
  run initial [Invoke; Settle 0 (Rejected "ECONNREFUSED"); Resume 0;
               Invoke; Resume 1]
  = Some {| cached := {| conn := None; promise := Some 0%nat |};
            promises := [Done (Rejected "ECONNREFUSED")];
            calls := [Threw "ECONNREFUSED"; Threw "ECONNREFUSED"] |}
  /\ {| conn := None; promise := Some 0%nat |} <> uninitialized.
Proof. split; [reflexivity|discriminate]. Qed.

(** C10, as amended. When [MONGODB_URI] is missing or empty, the module
    body throws the configuration error while the module is loaded: no
    [connectToDatabase] comes to exist, so the error is not raised at a
    first call. When it is set, loading succeeds, on the process an earlier
    load left or on a fresh one; and an invocation of [connectToDatabase]
    never ends at once with an error: it returns the cached connection or
    suspends on the attempt. *)
Theorem missing_uri_fails_when_module_loads :
  (forall env global_mongooseConn,
      present env = false ->
      loadModule env global_mongooseConn
      = inl (NewError
               "Please define the MONGODB_URI environment variable in your environment."))
  /\ (forall env global_mongooseConn,
      present env = true ->
      loadModule env global_mongooseConn
      = inr (match global_mongooseConn with Some w => w | None => initial end))
  /\ (forall w,
      exists c,
        calls (connectToDatabase w) = (calls w ++ [c])%list
        /\ forall e, c <> Threw e).
Proof.
  split; [|split].
  - intros env g H. unfold loadModule. rewrite H. reflexivity.
  - intros env g H. unfold loadModule. rewrite H. reflexivity.
  - intros w. unfold connectToDatabase.
    destruct (conn (cached w)) as [h|]; [|destruct (promise (cached w)) as [p|]];
      simpl; eexists; (split; [reflexivity|]); discriminate.
Qed.

Lemma missing_uri_fails_when_module_loads_witness :
  loadModule None None
  = inl (NewError
           "Please define the MONGODB_URI environment variable in your environment.")
  /\ loadModule (Some EmptyString) None
     = inl (NewError
              "Please define the MONGODB_URI environment variable in your environment.").
Proof.
  destruct missing_uri_fails_when_module_loads as [H _].
  split; apply H; reflexivity.
Defined.

(** C10 as stated fails: without [MONGODB_URI] there is no loaded module on
    which a first call could raise the error. *)
Lemma missing_uri_is_not_raised_at_first_call :
  ~ (exists w e,
        loadModule None None = inr w
        /\ calls (connectToDatabase w) = [Threw e]).
Proof. intros (w & e & H & _). discriminate H. Qed.

(* ================================================================== *)
(** * Further properties of the code *)

Import Shape.

(** ** Removing characters at both ends *)

Lemma trimStart_dropStart s : trimStart s = dropStart isWhiteSpace s.
Proof. induction s as [|c r IH]; simpl; [|rewrite IH]; reflexivity. Qed.

Lemma trimEnd_dropEnd s : trimEnd s = dropEnd isWhiteSpace s.
Proof. induction s as [|c r IH]; simpl; [|rewrite IH]; reflexivity. Qed.

Lemma stripLeading_dropStart s : stripLeadingHyphens s = dropStart isHyphen s.
Proof. induction s as [|c r IH]; simpl; [|rewrite IH]; reflexivity. Qed.

Lemma stripTrailing_dropEnd s : stripTrailingHyphens s = dropEnd isHyphen s.
Proof. induction s as [|c r IH]; simpl; [|rewrite IH]; reflexivity. Qed.

Lemma trim_drop s : trim s = dropEnd isWhiteSpace (dropStart isWhiteSpace s).
Proof. unfold trim. rewrite trimEnd_dropEnd, trimStart_dropStart. reflexivity. Qed.

Lemma stripHyphens_drop s : stripHyphens s = dropEnd isHyphen (dropStart isHyphen s).
Proof.
  unfold stripHyphens. rewrite stripTrailing_dropEnd, stripLeading_dropStart.
  reflexivity.
Qed.

Section Drop.
Variable p : ascii -> bool.

Lemma startsWith_dropStart s : startsWith p (dropStart p s) = false.
Proof.
  induction s as [|c r IH]; simpl; [reflexivity|].
  destruct (p c) eqn:E; [exact IH|]. simpl. exact E.
Qed.

Lemma dropStart_id s : startsWith p s = false -> dropStart p s = s.
Proof. destruct s as [|c r]; simpl; [reflexivity|]. intros ->. reflexivity. Qed.

Lemma dropEnd_empty s : dropEnd p s = EmptyString -> allChars p s = true.
Proof.
  induction s as [|c r IH]; simpl; [reflexivity|].
  destruct (dropEnd p r); [|discriminate].
  destruct (p c); [|discriminate]. intros _. apply IH. reflexivity.
Qed.

Lemma startsWith_dropEnd s : startsWith p s = false -> startsWith p (dropEnd p s) = false.
Proof.
  destruct s as [|c r]; simpl; [reflexivity|]. intros E.
  destruct (dropEnd p r); [rewrite E|]; simpl; exact E.
Qed.

Lemma endsWith_dropEnd s : endsWith p (dropEnd p s) = false.
Proof.
  induction s as [|c r IH]; simpl; [reflexivity|].
  destruct (dropEnd p r) as [|d r'] eqn:E.
  - destruct (p c) eqn:Ec; simpl; [reflexivity|exact Ec].
  - simpl. simpl in IH. exact IH.
Qed.

Lemma dropEnd_id s : endsWith p s = false -> dropEnd p s = s.
Proof.
  induction s as [|c r IH]; simpl; [reflexivity|].
  destruct r as [|d r'].
  - simpl. intros ->. reflexivity.
  - intros H. rewrite (IH H). reflexivity.
Qed.

Lemma dropEnd_idempotent s : dropEnd p (dropEnd p s) = dropEnd p s.
Proof. apply dropEnd_id, endsWith_dropEnd. Qed.

Lemma drop_both_idempotent s :
  dropEnd p (dropStart p (dropEnd p (dropStart p s))) = dropEnd p (dropStart p s).
Proof.
  rewrite (dropStart_id (dropEnd p (dropStart p s))).
  - apply dropEnd_idempotent.
  - apply startsWith_dropEnd, startsWith_dropStart.
Qed.

Variable q : ascii -> bool.

Lemma allChars_dropStart s : allChars q s = true -> allChars q (dropStart p s) = true.
Proof.
  induction s as [|c r IH]; simpl; [reflexivity|]. intros H.
  apply andb_prop in H as [Hc Hr].
  destruct (p c); [apply IH, Hr|]. simpl. rewrite Hc, Hr. reflexivity.
Qed.

Lemma allChars_dropEnd s : allChars q s = true -> allChars q (dropEnd p s) = true.
Proof.
  induction s as [|c r IH]; simpl; [reflexivity|]. intros H.
  apply andb_prop in H as [Hc Hr]. specialize (IH Hr).
  destruct (dropEnd p r) as [|d r'].
  - destruct (p c); simpl; [reflexivity|]. rewrite Hc. reflexivity.
  - simpl. simpl in IH. rewrite Hc, IH. reflexivity.
Qed.

Lemma startsWith_dropEnd_same s :
  dropEnd p s <> EmptyString -> startsWith q (dropEnd p s) = startsWith q s.
Proof.
  destruct s as [|c r]; simpl; [reflexivity|].
  destruct (dropEnd p r); [|reflexivity].
  destruct (p c); [congruence|reflexivity].
Qed.

Lemma noTwoInARow_dropStart s :
  noTwoInARow q s = true -> noTwoInARow q (dropStart p s) = true.
Proof.
  induction s as [|c r IH]; simpl; [reflexivity|]. intros H.
  destruct (p c); [|exact H]. apply andb_prop in H as [_ Hr]. apply IH, Hr.
Qed.

Lemma noTwoInARow_dropEnd s :
  noTwoInARow q s = true -> noTwoInARow q (dropEnd p s) = true.
Proof.
  induction s as [|c r IH]; simpl; [reflexivity|]. intros H.
  apply andb_prop in H as [Hc Hr]. specialize (IH Hr).
  destruct (dropEnd p r) as [|d r'] eqn:E.
  - destruct (p c); simpl; [reflexivity|]. rewrite andb_false_r. reflexivity.
  - change (noTwoInARow q (String c (String d r')))
      with (negb (q c && startsWith q (String d r')) && noTwoInARow q (String d r')).
    rewrite IH, andb_true_r. rewrite <- E.
    rewrite startsWith_dropEnd_same by (rewrite E; discriminate). exact Hc.
Qed.

End Drop.

Lemma allChars_impl (p q : ascii -> bool) s :
  (forall c, p c = true -> q c = true) -> allChars p s = true -> allChars q s = true.
Proof.
  intros Hpq. induction s as [|c r IH]; simpl; [reflexivity|]. intros H.
  apply andb_prop in H as [Hc Hr]. rewrite (Hpq c Hc), (IH Hr). reflexivity.
Qed.

Lemma allChars_not_startsWith (p q : ascii -> bool) s :
  (forall c, p c = true -> q c = false) -> allChars p s = true -> startsWith q s = false.
Proof.
  intros Hpq. destruct s as [|c r]; simpl; [reflexivity|]. intros H.
  apply andb_prop in H as [Hc _]. apply Hpq, Hc.
Qed.

Lemma allChars_not_endsWith (p q : ascii -> bool) s :
  (forall c, p c = true -> q c = false) -> allChars p s = true -> endsWith q s = false.
Proof.
  intros Hpq. induction s as [|c r IH]; simpl; [reflexivity|]. intros H.
  apply andb_prop in H as [Hc Hr]. destruct r; [apply Hpq, Hc | apply IH, Hr].
Qed.

Lemma trim_idempotent s : trim (trim s) = trim s.
Proof. rewrite !trim_drop. apply drop_both_idempotent. Qed.

Lemma trim_id s : allChars (fun c => negb (isWhiteSpace c)) s = true -> trim s = s.
Proof.
  intros H. rewrite trim_drop, dropStart_id, dropEnd_id; [reflexivity| |].
  - apply (allChars_not_endsWith _ _ _ (fun c => proj1 (negb_true_iff _)) H).
  - apply (allChars_not_startsWith _ _ _ (fun c => proj1 (negb_true_iff _)) H).
Qed.

Lemma lowerChar_idempotent c : lowerChar (lowerChar c) = lowerChar c.
Proof.
  apply code_inj. rewrite (code_lowerChar (lowerChar c)).
  destruct (isUpper (lowerChar c)) eqn:E; [|reflexivity].
  exfalso. unfold isUpper in E. rewrite code_lowerChar in E.
  pose proof (code_range c).
  destruct (isUpper c) eqn:F; unfold isUpper in F; lia.
Qed.

Lemma toLowerCase_idempotent s : toLowerCase (toLowerCase s) = toLowerCase s.
Proof.
  induction s as [|c r IH]; simpl; [reflexivity|].
  rewrite lowerChar_idempotent, IH. reflexivity.
Qed.

(** ** The shape of a slug *)

Lemma isHyphen_eq c : isHyphen c = true -> c = "-"%char.
Proof. apply Ascii.eqb_eq. Qed.

Lemma replaceRuns_chars b s : allChars isSlugOrHyphen (replaceRuns b s) = true.
Proof.
  revert b. induction s as [|c r IH]; intros b; simpl; [reflexivity|].
  destruct (isSlugChar c) eqn:E; simpl.
  - unfold isSlugOrHyphen at 1. rewrite E, IH. reflexivity.
  - destruct b; [apply IH|]. simpl. apply IH.
Qed.

Lemma replaceRuns_hyphens s :
  noTwoInARow isHyphen (replaceRuns false s) = true
  /\ noTwoInARow isHyphen (replaceRuns true s) = true
  /\ startsWith isHyphen (replaceRuns true s) = false.
Proof.
  induction s as [|c r (IH1 & IH2 & IH3)]; simpl; [auto|].
  destruct (isSlugChar c) eqn:E.
  - pose proof (slug_char_not_hyphen c E) as Hc. simpl. rewrite Hc, IH1. auto.
  - simpl. rewrite IH3, IH2. auto.
Qed.

(** X1. A slug is made of the characters a-z, 0-9 and the hyphen only, does
    not start or end with a hyphen, and has no two hyphens in a row. *)
Theorem slugify_shape t :
  allChars isSlugOrHyphen (slugify t) = true
  /\ startsWith isHyphen (slugify t) = false
  /\ endsWith isHyphen (slugify t) = false
  /\ noTwoInARow isHyphen (slugify t) = true.
Proof.
  unfold slugify. rewrite stripHyphens_drop.
  set (u := replaceRuns false (toLowerCase (trim t))).
  split; [|split; [|split]].
  - apply allChars_dropEnd, allChars_dropStart, replaceRuns_chars.
  - apply startsWith_dropEnd, startsWith_dropStart.
  - apply endsWith_dropEnd.
  - apply noTwoInARow_dropEnd, noTwoInARow_dropStart, replaceRuns_hyphens.
Qed.

Lemma slug_or_hyphen_not_space c : isSlugOrHyphen c = true -> negb (isWhiteSpace c) = true.
Proof. unfold isSlugOrHyphen. chars. Qed.

Lemma slug_or_hyphen_lower c : isSlugOrHyphen c = true -> lowerChar c = c.
Proof.
  intros H. unfold lowerChar. destruct (isUpper c) eqn:E; [|reflexivity].
  exfalso. unfold isUpper in E. unfold isSlugOrHyphen in H. chars.
Qed.

Lemma toLowerCase_id s : allChars isSlugOrHyphen s = true -> toLowerCase s = s.
Proof.
  induction s as [|c r IH]; simpl; [reflexivity|]. intros H.
  apply andb_prop in H as [Hc Hr]. rewrite (slug_or_hyphen_lower c Hc), (IH Hr).
  reflexivity.
Qed.

Lemma replaceRuns_id s :
  allChars isSlugOrHyphen s = true -> noTwoInARow isHyphen s = true ->
  replaceRuns false s = s
  /\ (startsWith isHyphen s = false -> replaceRuns true s = s).
Proof.
  induction s as [|c r IH]; simpl; [auto|]. intros H Hn.
  apply andb_prop in H as [Hc Hr]. apply andb_prop in Hn as [Hcn Hrn].
  destruct (IH Hr Hrn) as [IH1 IH2].
  destruct (isSlugChar c) eqn:E.
  - rewrite IH1. auto.
  - unfold isSlugOrHyphen in Hc. rewrite E in Hc. simpl in Hc.
    rewrite Hc in Hcn. simpl in Hcn. apply negb_true_iff in Hcn.
    split; [|rewrite Hc; discriminate].
    rewrite (IH2 Hcn), (isHyphen_eq c Hc). reflexivity.
Qed.

(** X2. [slugify] is idempotent: the slug of a slug is that slug. *)
Theorem slugify_idempotent t : slugify (slugify t) = slugify t.
Proof.
  destruct (slugify_shape t) as (Hc & Hs & He & Hn).
  set (u := slugify t) in *. unfold slugify.
  rewrite (trim_id u), (toLowerCase_id u Hc).
  - destruct (replaceRuns_id u Hc Hn) as [-> _].
    rewrite stripHyphens_drop, dropStart_id, dropEnd_id; auto.
  - apply (allChars_impl _ _ _ slug_or_hyphen_not_space Hc).
Qed.

(** X3. The slug does not depend on the letter case of the title nor on the
    white space around it: trimming the title first, as the schema's
    [trim] setter does, or lower-casing it first, gives the same slug. *)
Theorem slugify_ignores_case_and_outer_space t :
  slugify (trim t) = slugify t
  /\ slugify (toLowerCase t) = slugify t
  /\ slugify (toLowerCase (trim t)) = slugify t.
Proof.
  unfold slugify. split; [|split].
  - rewrite trim_idempotent. reflexivity.
  - rewrite <- lower_trim, toLowerCase_idempotent. reflexivity.
  - rewrite <- !lower_trim, trim_idempotent, toLowerCase_idempotent. reflexivity.
Qed.

(** ** More on the time *)

Lemma digitChar_inj a b : 0 <= a <= 9 -> 0 <= b <= 9 -> digitChar a = digitChar b -> a = b.
Proof.
  intros Ha Hb E. apply (f_equal code) in E.
  rewrite !code_digitChar in E by lia. lia.
Qed.

Lemma canonical_time_inj h1 m1 h2 m2 :
  0 <= h1 <= 23 -> 0 <= m1 <= 59 -> 0 <= h2 <= 23 -> 0 <= m2 <= 59 ->
  Spec.two h1 ++ ":" ++ Spec.two m1 = Spec.two h2 ++ ":" ++ Spec.two m2 ->
  h1 = h2 /\ m1 = m2.
Proof.
  intros Hh1 Hm1 Hh2 Hm2.
  destruct (two_split h1) as (a1 & b1 & ? & ? & -> & ->); [lia|].
  destruct (two_split m1) as (c1 & d1 & ? & ? & -> & ->); [lia|].
  destruct (two_split h2) as (a2 & b2 & ? & ? & -> & ->); [lia|].
  destruct (two_split m2) as (c2 & d2 & ? & ? & -> & ->); [lia|].
  simpl. intros [= Ea Eb Ec Ed].
  apply digitChar_inj in Ea, Eb, Ec, Ed; lia.
Qed.

Lemma canonical_time_length h m :
  String.length (Spec.two h ++ ":" ++ Spec.two m) = 5%nat.
Proof. reflexivity. Qed.

Lemma TimeForm_length h m s :
  Spec.TimeForm h m s -> (3 <= String.length s <= 5)%nat.
Proof. intros []; simpl; lia. Qed.

(** X4. What [normalizeTime] returns is a fixed point of it: a string of
    five characters that it accepts and gives back unchanged. The input,
    once trimmed, has three to five characters. *)
Theorem normalizeTime_result_is_canonical s r :
  normalizeTime s = Some r ->
  normalizeTime r = Some r
  /\ String.length r = 5%nat
  /\ (3 <= String.length (trim s) <= 5)%nat.
Proof.
  intros H. destruct (normalizeTime_sound s r H) as (h & m & (Hh & Hm & Hf) & ->).
  split; [apply normalizeTime_canonical; lia|].
  split; [apply canonical_time_length|]. apply (TimeForm_length h m), Hf.
Qed.

Lemma normalizeTime_result_is_canonical_witness :
  normalizeTime "09:30" = Some "09:30"
  /\ String.length "09:30" = 5%nat
  /\ (3 <= String.length (trim " 930 ") <= 5)%nat.
Proof. apply (normalizeTime_result_is_canonical " 930 " "09:30"). reflexivity. Defined.

(** X5. Two inputs that [normalizeTime] accepts get the same result exactly
    when they write the same hour and minute, in whichever of the four
    forms and with whatever white space around. *)
Theorem normalizeTime_same_result_iff_same_time s1 s2 r1 r2 :
  normalizeTime s1 = Some r1 -> normalizeTime s2 = Some r2 ->
  (r1 = r2 <->
   exists h m, Spec.AcceptedTime (trim s1) h m /\ Spec.AcceptedTime (trim s2) h m).
Proof.
  intros H1 H2. split.
  - intros <-.
    destruct (normalizeTime_sound s1 r1 H1) as (h1 & m1 & A1 & E1).
    destruct (normalizeTime_sound s2 r1 H2) as (h2 & m2 & A2 & E2).
    destruct A1 as (Hh1 & Hm1 & F1), A2 as (Hh2 & Hm2 & F2).
    destruct (canonical_time_inj h1 m1 h2 m2) as [<- <-]; try lia; [congruence|].
    exists h1, m1. unfold Spec.AcceptedTime. auto 10.
  - intros (h & m & A1 & A2).
    rewrite (normalizeTime_complete s1 h m A1) in H1.
    rewrite (normalizeTime_complete s2 h m A2) in H2. congruence.
Qed.

Lemma normalizeTime_same_result_iff_same_time_witness :
  "09:30" = "09:30" <->
  exists h m, Spec.AcceptedTime (trim "930") h m /\ Spec.AcceptedTime (trim " 9:30") h m.
Proof. apply (normalizeTime_same_result_iff_same_time "930" " 9:30"); reflexivity. Defined.

(** ** More on the Event hook *)

Lemma deriveSlug_total doc t : title doc = Some t -> snd (deriveSlug doc) = Next.
Proof. intros H. unfold deriveSlug. rewrite H. destruct (_ || _); reflexivity. Qed.

Lemma deriveSlug_fst doc t :
  title doc = Some t ->
  deriveSlug doc = (fst (deriveSlug doc), Next)
  /\ date (fst (deriveSlug doc)) = date doc
  /\ time (fst (deriveSlug doc)) = time doc.
Proof.
  intros H. unfold deriveSlug. rewrite H. destruct (_ || _); simpl; auto.
Qed.

(** X6. The Event hook accepts a document exactly when every required
    string field is a string that is not blank, agenda and tags are arrays
    with an item, the host can parse the date and the trimmed time writes
    an hour in 0..23 and a minute in 0..59 in one of the four forms. The
    document it leaves is then the one the slug step gives, with the date
    replaced by the UTC date of the parsed instant and the time by HH:mm. *)
Theorem preSave_accepts_iff rt doc doc' :
  preSave rt doc = (doc', Next) <->
  Forall (fun f => isBlank (get f doc) = false) requiredStringFields
  /\ noItems (agenda doc) = false /\ noItems (tags doc) = false
  /\ exists s t st h m,
      date doc = Some s /\ Date_parse rt s = Some t
      /\ time doc = Some st /\ Spec.AcceptedTime (trim st) h m
      /\ doc' = set_time (Spec.two h ++ ":" ++ Spec.two m)
                  (set_date (isoDatePart (Day t)) (fst (deriveSlug doc))).
Proof.
  split.
  - intros H. apply preSave_Next in H as (Hreq & Ha & Htg & d1 & d2 & Hs & Hd & Ht).
    split; [exact Hreq|]. split; [exact Ha|]. split; [exact Htg|].
    destruct (required_title doc Hreq) as (ti & Hti & _).
    destruct (required_date_time doc Hreq) as [Hbd Hbt].
    apply not_blank_truthy in Hbd as (sd & Hsd & Hsd').
    apply not_blank_truthy in Hbt as (st & Hst & Hst').
    destruct (deriveSlug_fst doc ti Hti) as (Hs' & Hd1d & Hd1t).
    rewrite Hs' in Hs. injection Hs as <-.
    rewrite Hsd in Hd1d. rewrite Hst in Hd1t.
    destruct (normalizeDate_Next rt _ d2 sd Hd1d Hsd' Hd) as (t & Hp & ->).
    unfold normalizeTimeStep in Ht. simpl time in Ht. rewrite Hd1t, Hst' in Ht.
    destruct (normalizeTime st) as [r|] eqn:Hn; [|discriminate].
    destruct (normalizeTime_sound st r Hn) as (h & m & Hacc & ->).
    rewrite canonical_time_nonempty in Ht. injection Ht as <-.
    exists sd, t, st, h, m. auto 10.
  - intros (Hreq & Ha & Htg & s & t & st & h & m & Hd & Hp & Ht & Hacc & ->).
    destruct (required_title doc Hreq) as (ti & Hti & _).
    destruct (required_date_time doc Hreq) as [Hbd Hbt].
    apply not_blank_truthy in Hbd as (sd & Hsd & Hsd').
    apply not_blank_truthy in Hbt as (st' & Hst & Hst').
    rewrite Hd in Hsd. injection Hsd as <-. rewrite Ht in Hst. injection Hst as <-.
    destruct (deriveSlug_fst doc ti Hti) as (Hs' & Hd1d & Hd1t).
    apply preSave_Next. split; [exact Hreq|]. split; [exact Ha|]. split; [exact Htg|].
    exists (fst (deriveSlug doc)), (set_date (isoDatePart (Day t)) (fst (deriveSlug doc))).
    split; [exact Hs'|]. split.
    + apply (normalizeDate_parsed rt _ s t); [congruence|exact Hsd'|exact Hp].
    + unfold normalizeTimeStep. simpl time. rewrite Hd1t, Ht, Hst'.
      rewrite (normalizeTime_complete st h m Hacc), canonical_time_nonempty.
      reflexivity.
Qed.

Lemma preSave_accepts_iff_witness :
  preSave (Host.runtime 0) Samples.myEvent
  = (set_time "09:30" (set_date "2024-03-05" (set_slug "my-event-2024" Samples.myEvent)),
     Next).
Proof.
  apply (preSave_accepts_iff (Host.runtime 0) Samples.myEvent).
  split; [repeat constructor|]. split; [reflexivity|]. split; [reflexivity|].
  exists "March 5, 2024", 1709596800000, "930", 9, 30.
  split; [reflexivity|]. split; [reflexivity|]. split; [reflexivity|].
  split; [|reflexivity].
  split; [lia|]. split; [lia|]. apply (Spec.Hmm 9 30). lia.
Defined.

(** Sequencing keeps a relation between the document before and after that
    each step keeps. *)
Lemma andThen_keeps (R : EventDocument -> EventDocument -> Prop) (s1 s2 : Step) :
  (forall a b c, R a b -> R b c -> R a c) ->
  (forall d d' o, s1 d = (d', o) -> R d d') ->
  (forall d d' o, s2 d = (d', o) -> R d d') ->
  forall d d' o, (s1 >>> s2) d = (d', o) -> R d d'.
Proof.
  intros Htrans H1 H2 d d' o. unfold andThen.
  destruct (s1 d) as [d1 [|e]] eqn:E1.
  - intros E2. apply (Htrans d d1 d'); [eapply H1, E1 | eapply H2, E2].
  - intros [= <- <-]. eapply H1, E1.
Qed.

Lemma checkRequired_same fields d d' o : checkRequired fields d = (d', o) -> d' = d.
Proof.
  induction fields as [|f rest IH]; simpl.
  - intros [= <- _]. reflexivity.
  - destruct (isBlank (get f d)); [intros [= <- _]; reflexivity | exact IH].
Qed.

Lemma checkAgenda_same d d' o : checkAgenda d = (d', o) -> d' = d.
Proof. unfold checkAgenda. destruct (noItems _); intros [= <- _]; reflexivity. Qed.

Lemma checkTags_same d d' o : checkTags d = (d', o) -> d' = d.
Proof. unfold checkTags. destruct (noItems _); intros [= <- _]; reflexivity. Qed.

Lemma sameOtherFields_refl d : sameOtherFields d d.
Proof. unfold sameOtherFields. auto 15. Qed.

Lemma sameOtherFields_trans a b c :
  sameOtherFields a b -> sameOtherFields b c -> sameOtherFields a c.
Proof. unfold sameOtherFields. intuition congruence. Qed.

Lemma deriveSlug_others d d' o : deriveSlug d = (d', o) -> sameOtherFields d d'.
Proof.
  unfold deriveSlug. destruct (_ || _).
  - destruct (title d); intros [= <- _];
      [unfold sameOtherFields; simpl; auto 15 | apply sameOtherFields_refl].
  - intros [= <- _]. apply sameOtherFields_refl.
Qed.

Lemma normalizeDate_others rt d d' o : normalizeDate rt d = (d', o) -> sameOtherFields d d'.
Proof.
  unfold normalizeDate.
  destruct (date d) as [v|]; [|intros [= <- _]; apply sameOtherFields_refl].
  destruct (truthy v); [|intros [= <- _]; apply sameOtherFields_refl].
  destruct (Date_parse rt v); intros [= <- _];
    [unfold sameOtherFields; simpl; auto 15 | apply sameOtherFields_refl].
Qed.

Lemma normalizeTimeStep_others d d' o : normalizeTimeStep d = (d', o) -> sameOtherFields d d'.
Proof.
  unfold normalizeTimeStep.
  destruct (time d) as [v|]; [|intros [= <- _]; apply sameOtherFields_refl].
  destruct (truthy v); [|intros [= <- _]; apply sameOtherFields_refl].
  destruct (normalizeTime v) as [n|]; [|intros [= <- _]; apply sameOtherFields_refl].
  destruct (truthy n); intros [= <- _];
    [unfold sameOtherFields; simpl; auto 15 | apply sameOtherFields_refl].
Qed.

(** X7. Whether it accepts or fails, the Event hook assigns to nothing but
    slug, date and time: title, description, overview, image, venue,
    location, mode, audience, organizer, agenda and tags are left as they
    were, untrimmed, and so is the record of the title being modified. *)
Theorem preSave_assigns_only_slug_date_time rt doc doc' o :
  preSave rt doc = (doc', o) -> sameOtherFields doc doc'.
Proof.
  unfold preSave.
  repeat (apply andThen_keeps; [exact sameOtherFields_trans | |]).
  - intros d d' o' H. apply checkRequired_same in H as ->. apply sameOtherFields_refl.
  - intros d d' o' H. apply checkAgenda_same in H as ->. apply sameOtherFields_refl.
  - intros d d' o' H. apply checkTags_same in H as ->. apply sameOtherFields_refl.
  - apply deriveSlug_others.
  - apply normalizeDate_others.
  - apply normalizeTimeStep_others.
Qed.

Lemma preSave_assigns_only_slug_date_time_witness :
  sameOtherFields Samples.badTimeEvent
    (set_date "2024-03-05" (set_slug "my-event-2024" Samples.badTimeEvent)).
Proof.
  apply (preSave_assigns_only_slug_date_time (Host.runtime 0) Samples.badTimeEvent _
           (NextErr (NewError "Invalid time format. Use HH:mm or a similar 24h format."))).
  vm_compute. reflexivity.
Defined.

(** X8. "Regenerate slug only if title has changed or slug is missing": when
    the title is not modified and the document has a non-empty slug, the
    hook leaves that slug as it is, whatever the title says and whether the
    run succeeds or fails. *)
Theorem preSave_keeps_slug_of_unmodified_title rt doc doc' o s :
  isModified_title doc = false -> slug doc = Some s -> s <> EmptyString ->
  preSave rt doc = (doc', o) -> slug doc' = Some s.
Proof.
  intros Hm Hs Hne H. rewrite <- Hs.
  set (R := fun d d' : EventDocument =>
              isModified_title d = false -> present (slug d) = true ->
              slug d' = slug d /\ isModified_title d' = false).
  assert (R doc doc') as HR.
  { revert H. unfold preSave.
    assert (forall a b c, R a b -> R b c -> R a c) as Htrans.
    { unfold R. intros a b c Hab Hbc Ha1 Ha2.
      destruct (Hab Ha1 Ha2) as [E1 E2].
      destruct (Hbc E2) as [E3 E4]; [rewrite E1; exact Ha2|].
      split; congruence. }
    repeat (apply andThen_keeps; [exact Htrans | |]); unfold R.
    - intros d d' o' H. apply checkRequired_same in H as ->. auto.
    - intros d d' o' H. apply checkAgenda_same in H as ->. auto.
    - intros d d' o' H. apply checkTags_same in H as ->. auto.
    - intros d d' o' H E1 E2. rewrite deriveSlug_keeps in H by assumption.
      injection H as <- _. auto.
    - intros d d' o' H E1 E2. apply normalizeDate_keeps in H as (_ & -> & _ & ->). auto.
    - intros d d' o' H E1 E2. apply normalizeTimeStep_keeps in H as (_ & -> & _ & ->). auto. }
  apply HR; [exact Hm|]. rewrite Hs. apply truthy_true, Hne.
Qed.

Lemma preSave_keeps_slug_of_unmodified_title_witness :
  slug (fst (preSave (Host.runtime 0)
               (markSaved (set_slug "launch-party" Samples.myEvent))))
  = Some "launch-party".
Proof.
  apply (preSave_keeps_slug_of_unmodified_title (Host.runtime 0)
           (markSaved (set_slug "launch-party" Samples.myEvent)) _
           (snd (preSave (Host.runtime 0)
                   (markSaved (set_slug "launch-party" Samples.myEvent)))));
    [reflexivity | reflexivity | discriminate | vm_compute; reflexivity].
Defined.

Lemma requiredItems_noItems name value :
  requiredItems name value = if noItems value then [name] else [].
Proof.
  destruct value as [items|]; [|reflexivity].
  unfold requiredItems, hasItems, noItems.
  destruct (Nat.eqb (List.length items) 0); reflexivity.
Qed.

Lemma agenda_invalid doc :
  noItems (agenda doc) = true -> In "agenda" (invalidPaths doc).
Proof.
  intros H. unfold invalidPaths.
  rewrite (requiredItems_noItems "agenda"), H, !in_app_iff.
  simpl. intuition.
Qed.

Lemma tags_invalid doc :
  noItems (tags doc) = true -> In "tags" (invalidPaths doc).
Proof.
  intros H. unfold invalidPaths.
  rewrite (requiredItems_noItems "tags"), H, !in_app_iff.
  simpl. intuition.
Qed.

(** X9. A document whose agenda or whose tags is missing or empty is never
    saved, whatever its other fields and whatever the server would answer:
    the schema validators, which run before the hook, fail on the path, so
    [save] rejects with the validation error, which lists [agenda] or
    [tags], and the collection and the document are left as they were. The
    hook taken alone rejects such a document too and leaves it as it was:
    when the required strings are all filled in, its error is the one of
    the agenda if the agenda is empty, and the one of the tags otherwise. *)
Theorem event_without_agenda_or_tags_rejected rt write collection doc :
  noItems (agenda doc) = true \/ noItems (tags doc) = true ->
  save rt write collection doc
  = (doc, collection, Some (ValidationError (invalidPaths doc)))
  /\ (noItems (agenda doc) = true -> In "agenda" (invalidPaths doc))
  /\ (noItems (tags doc) = true -> In "tags" (invalidPaths doc))
  /\ exists e,
      preSave rt doc = (doc, NextErr e)
      /\ (Forall (fun f => isBlank (get f doc) = false) requiredStringFields ->
          e = NewError
                (if noItems (agenda doc)
                 then "agenda is required and must contain at least one item."
                 else "tags is required and must contain at least one tag.")).
Proof.
  intros H. split; [|split; [apply agenda_invalid|split; [apply tags_invalid|]]].
  { apply save_invalid. intros E.
    destruct H as [H | H];
      [apply agenda_invalid in H | apply tags_invalid in H];
      rewrite E in H; exact H. }
  unfold preSave, andThen.
  destruct (checkRequired requiredStringFields doc) as [d0 [|e0]] eqn:E0.
  - apply checkRequired_Next in E0 as [-> Hreq].
    unfold checkAgenda. destruct (noItems (agenda doc)) eqn:Ea.
    + eexists. split; [reflexivity|]. auto.
    + unfold checkTags. destruct H as [H | H]; [discriminate|]. rewrite H.
      eexists. split; [reflexivity|]. auto.
  - pose proof (checkRequired_same _ _ _ _ E0) as ->.
    exists e0. split; [reflexivity|]. intros Hreq.
    assert (checkRequired requiredStringFields doc = (doc, Next)) as E
      by (apply checkRequired_Next; auto).
    congruence.
Qed.

Lemma event_without_agenda_or_tags_rejected_witness :
  save (Host.runtime 0) Samples.acceptWrite [] Samples.noAgendaEvent
  = (Samples.noAgendaEvent, [], Some (ValidationError ["agenda"]))
  /\ preSave (Host.runtime 0) Samples.noAgendaEvent
     = (Samples.noAgendaEvent,
        NextErr (NewError "agenda is required and must contain at least one item.")).
Proof.
  destruct (event_without_agenda_or_tags_rejected (Host.runtime 0)
              Samples.acceptWrite [] Samples.noAgendaEvent)
    as (Hs & _ & _ & e & Hp & He).
  - left. reflexivity.
  - split; [exact Hs|]. rewrite Hp, He; [reflexivity|].
    repeat constructor.
Defined.

Lemma not_blank_present v : isBlank v = false -> present v = true.
Proof. intros H. apply not_blank_truthy in H as (s & -> & H). exact H. Qed.

Lemma checks_imply_valid doc :
  Forall (fun f => isBlank (get f doc) = false) requiredStringFields ->
  noItems (agenda doc) = false -> noItems (tags doc) = false ->
  invalidPaths doc = [].
Proof.
  unfold requiredStringFields. intros H Ha Ht.
  repeat match goal with
    | H : Forall _ (_ :: _) |- _ => inversion H; clear H; subst
    end.
  unfold invalidPaths, requiredString.
  rewrite !requiredItems_noItems, Ha, Ht.
  repeat match goal with
    | H : isBlank (get _ doc) = false |- _ =>
        apply not_blank_present in H; simpl in H; rewrite H; clear H
    end.
  reflexivity.
Qed.

Lemma accepted_is_valid rt doc doc' :
  preSave rt doc = (doc', Next) ->
  invalidPaths doc = [] /\ invalidPaths doc' = [].
Proof.
  intros H.
  destruct (preSave_Next_shape rt doc doc' H)
    as (d1 & s & t & h & m & Hd1 & _ & _ & _ & _ & _ & ->).
  apply preSave_Next in H as (Hreq & Ha & Htg & _).
  split; [apply checks_imply_valid; assumption|].
  apply checks_imply_valid.
  - apply (required_after_steps doc d1 _ _ Hd1 Hreq
             (isoDatePart_not_blank (Day t)) (canonical_time_not_blank h m)).
  - destruct Hd1 as [-> | [v ->]]; exact Ha.
  - destruct Hd1 as [-> | [v ->]]; exact Htg.
Qed.

(** X19. A save succeeds exactly when the hook accepts the document and the
    server accepts the write. The schema validators never stand in the way
    of a document the hook accepts, whose checks are the stricter ones; what
    is written is the output of the hook with no path left modified, and
    that output passes the validators again. The validators alone are
    weaker: a date made of spaces passes them, and it is the hook that then
    makes [save] reject, with its own error. *)
Theorem save_succeeds_iff rt write collection doc :
  (forall doc', preSave rt doc = (doc', Next) ->
     invalidPaths doc = [] /\ invalidPaths (markSaved doc') = [])
  /\ (forall d c,
       save rt write collection doc = (d, c, None) <->
       exists doc',
         preSave rt doc = (doc', Next) /\ d = markSaved doc'
         /\ write collection d = inr c)
  /\ invalidPaths Samples.blankDateEvent = []
  /\ save rt write collection Samples.blankDateEvent
     = (Samples.blankDateEvent, collection,
        Some (NewError "date is required and must be a non-empty string.")).
Proof.
  split; [|split; [|split]].
  - intros doc' H. apply accepted_is_valid in H as [H1 H2]. split; assumption.
  - intros d c. split.
    + unfold save. destruct (invalidPaths doc); [|discriminate].
      destruct (preSave rt doc) as [doc' [|e]]; [|discriminate].
      destruct (write collection (markSaved doc')) as [e|c'] eqn:Hw; [discriminate|].
      intros [= <- <-]. exists doc'. auto.
    + intros (doc' & H & -> & Hw). unfold save.
      destruct (accepted_is_valid rt doc doc' H) as [-> _].
      rewrite H, Hw. reflexivity.
  - reflexivity.
  - reflexivity.
Qed.

Lemma save_succeeds_iff_witness :
  save (Host.runtime 0) Samples.acceptWrite [] Samples.myEvent
  = (markSaved (set_time "09:30" (set_date "2024-03-05"
                 (set_slug "my-event-2024" Samples.myEvent))),
     [markSaved (set_time "09:30" (set_date "2024-03-05"
                 (set_slug "my-event-2024" Samples.myEvent)))],
     None).
Proof.
  apply (save_succeeds_iff (Host.runtime 0) Samples.acceptWrite [] Samples.myEvent).
  exists (set_time "09:30" (set_date "2024-03-05"
            (set_slug "my-event-2024" Samples.myEvent))).
  split; [vm_compute; reflexivity|]. split; reflexivity.
Defined.

(** ** The address pattern *)

Import BookingModel.

Lemma allAddrChars_app a b :
  allAddrChars (a ++ b) = allAddrChars a && allAddrChars b.
Proof.
  induction a as [|c a IH]; simpl; [reflexivity|].
  rewrite IH, andb_assoc. reflexivity.
Qed.

Lemma dotThenMore_split r :
  dotThenMore r = true ->
  exists pre post, r = pre ++ String "." post /\ post <> EmptyString.
Proof.
  induction r as [|c r IH]; simpl; [discriminate|].
  destruct (Ascii.eqb c "." && truthy r) eqn:E.
  - intros _. apply andb_prop in E as [Ec Er]. apply Ascii.eqb_eq in Ec. subst c.
    exists EmptyString, r. split; [reflexivity|]. apply truthy_true, Er.
  - simpl. intros H. destruct (IH H) as (pre & post & -> & Hp).
    exists (String c pre), post. auto.
Qed.

Lemma dotThenMore_app pre post :
  post <> EmptyString -> dotThenMore (pre ++ String "." post) = true.
Proof.
  intros Hp. induction pre as [|c pre IH]; simpl.
  - apply truthy_true in Hp. rewrite Hp. reflexivity.
  - rewrite IH. apply orb_true_r.
Qed.

Lemma matchDomain_iff rest :
  matchDomain rest = true <->
  exists d1 d2,
    rest = "@" ++ d1 ++ "." ++ d2 /\ d1 <> EmptyString /\ d2 <> EmptyString
    /\ allAddrChars d1 = true /\ allAddrChars d2 = true.
Proof.
  split.
  - destruct rest as [|c [|d r]]; simpl; try discriminate. intros H.
    rewrite !andb_true_iff in H. destruct H as [[[Hc Hd] Hr] Hdot].
    apply Ascii.eqb_eq in Hc. subst c.
    destruct (dotThenMore_split r Hdot) as (pre & post & -> & Hp).
    rewrite allAddrChars_app in Hr. simpl in Hr.
    rewrite !andb_true_iff in Hr. destruct Hr as [Hpre Hpost].
    exists (String d pre), post. simpl. rewrite Hd, Hpre.
    repeat split; auto.
  - intros (d1 & d2 & -> & H1 & H2 & A1 & A2).
    destruct d1 as [|d pre]; [congruence|]. simpl in *.
    apply andb_prop in A1 as [Hd Hpre]. rewrite Hd. simpl.
    rewrite allAddrChars_app. simpl. rewrite Hpre, A2. simpl.
    apply dotThenMore_app, H2.
Qed.

Lemma matchDomain_head rest :
  matchDomain rest = true -> exists r, rest = String "@" r.
Proof.
  destruct rest as [|c [|d r]]; simpl; try discriminate. intros H.
  rewrite !andb_true_iff in H. destruct H as [[[Hc _] _] _].
  apply Ascii.eqb_eq in Hc. subst c. eauto.
Qed.

Lemma matchLocal_iff seen s :
  matchLocal seen s = true <->
  exists l rest,
    s = l ++ rest /\ allAddrChars l = true
    /\ (seen = true \/ l <> EmptyString) /\ matchDomain rest = true.
Proof.
  revert seen. induction s as [|c s IH]; intros seen; simpl.
  - split; [discriminate|]. intros (l & rest & E & _ & _ & H).
    destruct l; simpl in E; [|discriminate]. subst rest. discriminate H.
  - destruct (isAddrChar c) eqn:Ec.
    + rewrite IH. split.
      * intros (l & rest & -> & Hl & _ & Hd). exists (String c l), rest.
        simpl. rewrite Ec, Hl. repeat split; auto; right; discriminate.
      * intros (l & rest & E & Hl & _ & Hd). destruct l as [|c' l]; simpl in E.
        -- subst rest. destruct (matchDomain_head _ Hd) as (r & E').
           injection E' as -> _. discriminate Ec.
        -- injection E as <- ->. simpl in Hl. apply andb_prop in Hl as [_ Hl].
           exists l, rest. auto.
    + split.
      * intros H. apply andb_prop in H as [Hs Hd]. exists EmptyString, (String c s).
        auto.
      * intros (l & rest & E & Hl & Hseen & Hd). destruct l as [|c' l]; simpl in E.
        -- subst rest. destruct Hseen as [-> | Hne]; [|congruence].
           simpl. exact Hd.
        -- injection E as <- ->. simpl in Hl. rewrite Ec in Hl. discriminate.
Qed.

(** X10. [EMAIL_REGEX] accepts exactly the strings of the form
    local [@] domain [.] rest in which the three parts are non-empty and
    hold neither white space nor [@]. *)
Theorem EMAIL_REGEX_accepts_iff s :
  EMAIL_REGEX_test s = true <->
  exists l d1 d2,
    s = l ++ "@" ++ d1 ++ "." ++ d2
    /\ l <> EmptyString /\ d1 <> EmptyString /\ d2 <> EmptyString
    /\ allAddrChars l = true /\ allAddrChars d1 = true /\ allAddrChars d2 = true.
Proof.
  unfold EMAIL_REGEX_test. rewrite matchLocal_iff. split.
  - intros (l & rest & -> & Hl & [Hs | Hne] & Hd); [discriminate|].
    apply matchDomain_iff in Hd as (d1 & d2 & -> & H1 & H2 & A1 & A2).
    exists l, d1, d2. auto 10.
  - intros (l & d1 & d2 & -> & Hl & H1 & H2 & Al & A1 & A2).
    exists l, ("@" ++ d1 ++ "." ++ d2). repeat split; auto.
    apply matchDomain_iff. exists d1, d2. auto.
Qed.

Lemma addr_lower c : isAddrChar (lowerChar c) = isAddrChar c.
Proof. pose proof (code_range c). unfold isAddrChar. chars. Qed.

Lemma eqb_lower_at c : Ascii.eqb (lowerChar c) "@" = Ascii.eqb c "@".
Proof. pose proof (code_range c). chars. Qed.

Lemma eqb_lower_dot c : Ascii.eqb (lowerChar c) "." = Ascii.eqb c ".".
Proof. pose proof (code_range c). chars. Qed.

Lemma truthy_lower s : truthy (toLowerCase s) = truthy s.
Proof. destruct s; reflexivity. Qed.

Lemma allAddrChars_lower s : allAddrChars (toLowerCase s) = allAddrChars s.
Proof.
  induction s as [|c s IH]; simpl; [reflexivity|]. rewrite addr_lower, IH. reflexivity.
Qed.

Lemma dotThenMore_lower s : dotThenMore (toLowerCase s) = dotThenMore s.
Proof.
  induction s as [|c s IH]; simpl; [reflexivity|].
  rewrite eqb_lower_dot, truthy_lower, IH. reflexivity.
Qed.

Lemma matchDomain_lower s : matchDomain (toLowerCase s) = matchDomain s.
Proof.
  destruct s as [|c [|d r]]; simpl; try reflexivity.
  rewrite eqb_lower_at, addr_lower, allAddrChars_lower, dotThenMore_lower.
  reflexivity.
Qed.

Lemma matchLocal_lower seen s : matchLocal seen (toLowerCase s) = matchLocal seen s.
Proof.
  revert seen. induction s as [|c s IH]; intros seen; [reflexivity|].
  change (toLowerCase (String c s)) with (String (lowerChar c) (toLowerCase s)).
  cbn [matchLocal]. rewrite addr_lower. destruct (isAddrChar c); [apply IH|].
  change (String (lowerChar c) (toLowerCase s)) with (toLowerCase (String c s)).
  rewrite matchDomain_lower. reflexivity.
Qed.

(** X11. The setters of [email] and the pattern: [trim] and [lowercase]
    give the same value in either order and applying them twice changes
    nothing; the pattern does not look at letter case, so whether an
    address is accepted is decided by its trimmed form alone. *)
Theorem email_setters_and_pattern s :
  Schema.emailSetters s = toLowerCase (trim s)
  /\ Schema.emailSetters (Schema.emailSetters s) = Schema.emailSetters s
  /\ EMAIL_REGEX_test (toLowerCase s) = EMAIL_REGEX_test s
  /\ EMAIL_REGEX_test (Schema.emailSetters s) = EMAIL_REGEX_test (trim s).
Proof.
  unfold Schema.emailSetters. split; [|split; [|split]].
  - symmetry. apply lower_trim.
  - rewrite <- !lower_trim, trim_idempotent, toLowerCase_idempotent. reflexivity.
  - apply matchLocal_lower.
  - rewrite <- lower_trim. apply matchLocal_lower.
Qed.

(** ** More on the Booking hook *)

Lemma EMAIL_REGEX_nonempty e : EMAIL_REGEX_test e = true -> truthy e = true.
Proof. destruct e; [discriminate|reflexivity]. Qed.

Lemma existsb_In id l : existsb (N.eqb id) l = true <-> In id l.
Proof.
  rewrite existsb_exists. split.
  - intros (x & Hx & E). apply N.eqb_eq in E. subst x. exact Hx.
  - intros H. exists id. split; [exact H|apply N.eqb_refl].
Qed.

(** X12. The Booking hook accepts a document exactly when its email matches
    the address pattern, it has an [eventId], the existence query completes
    and an Event with that identity is stored; [save] then adds the
    document, unchanged, to the collection. *)
Theorem booking_accepted_iff ev collection doc :
  (BookingModel.preSave ev doc = Next <->
   exists e id,
     email doc = Some e /\ EMAIL_REGEX_test e = true
     /\ eventId doc = Some id /\ failure ev = None /\ In id (ids ev))
  /\ (BookingModel.preSave ev doc = Next ->
      BookingModel.save ev collection doc = ((collection ++ [doc])%list, None)).
Proof.
  split.
  - unfold BookingModel.preSave, Event_exists, present. split.
    + destruct (email doc) as [e|]; [|discriminate].
      destruct (truthy e) eqn:Et; [|discriminate].
      destruct (EMAIL_REGEX_test e) eqn:Er; [|discriminate]. simpl.
      destruct (eventId doc) as [id|]; [|discriminate].
      destruct (failure ev); [discriminate|].
      destruct (existsb (N.eqb id) (ids ev)) eqn:Ex; [|discriminate].
      intros _. exists e, id. apply existsb_In in Ex. auto.
    + intros (e & id & -> & Hr & -> & -> & Hin).
      rewrite (EMAIL_REGEX_nonempty e Hr), Hr. simpl.
      apply existsb_In in Hin. rewrite Hin. reflexivity.
  - intros H.
    assert (BookingModel.invalidPaths doc = []) as Hv.
    { revert H. unfold BookingModel.preSave, BookingModel.invalidPaths, present.
      destruct (email doc) as [e|]; [|discriminate].
      destruct (truthy e) eqn:Et; [|discriminate].
      destruct (EMAIL_REGEX_test e) eqn:Er; [|discriminate]. simpl.
      destruct (eventId doc) as [id|]; [reflexivity|discriminate]. }
    unfold BookingModel.save. rewrite Hv, H. reflexivity.
Qed.

Lemma booking_accepted_iff_witness :
  BookingModel.save Samples.storedEvents []
    {| eventId := Some 2%N; email := Some "ada@example.org" |}
  = ([{| eventId := Some 2%N; email := Some "ada@example.org" |}], None).
Proof.
  apply (booking_accepted_iff Samples.storedEvents []
           {| eventId := Some 2%N; email := Some "ada@example.org" |}).
  reflexivity.
Defined.

(** X13. The Booking hook does not query the events collection before it
    has an email that matches the pattern and an [eventId]: when the email
    is missing or does not match, the hook fails with the email error, and
    when the email matches but [eventId] is missing, with the [eventId]
    error, whatever the collection holds and whether or not it can be
    reached. *)
Theorem booking_fails_before_query ev doc :
  (match email doc with Some e => EMAIL_REGEX_test e | None => false end = false ->
   BookingModel.preSave ev doc = NextErr (NewError "A valid email address is required."))
  /\ (match email doc with Some e => EMAIL_REGEX_test e | None => false end = true ->
      eventId doc = None ->
      BookingModel.preSave ev doc = NextErr (NewError "eventId is required.")).
Proof.
  unfold BookingModel.preSave, present. split.
  - intros H. rewrite H. rewrite orb_true_r. reflexivity.
  - intros H Hid. rewrite H, Hid.
    destruct (email doc) as [e|]; [|discriminate].
    rewrite (EMAIL_REGEX_nonempty e H). reflexivity.
Qed.

Lemma booking_fails_before_query_witness :
  BookingModel.preSave Samples.unreachableEvents Samples.orphanBookingBadEmail
  = NextErr (NewError "A valid email address is required.").
Proof.
  apply (booking_fails_before_query Samples.unreachableEvents
           Samples.orphanBookingBadEmail).
  reflexivity.
Defined.

(** ** More on the cached connection *)

(** X14. Whatever the interleaving, an invocation of [connectToDatabase]
    returns only the handle the connection attempt resolved with, and throws
    only the error it rejected with; the cached connection is that handle;
    and while the attempt is pending every invocation made so far is
    suspended on it. *)
Theorem calls_end_as_the_attempt_did evs w :
  run initial evs = Some w ->
  (forall i h, calls w !! i = Some (Returned h) -> promises w = [Done (Fulfilled h)])
  /\ (forall i e, calls w !! i = Some (Threw e) -> promises w = [Done (Rejected e)])
  /\ (forall h, conn (cached w) = Some h -> promises w = [Done (Fulfilled h)])
  /\ (promises w = [Pending] ->
      conn (cached w) = None
      /\ forall i c, calls w !! i = Some c -> c = Awaiting 0).
Proof.
  intros Hrun. apply reachable_consistent in Hrun.
  destruct (consistent_cases w Hrun)
    as [(Hp & Hc & Hcs) | (ps & Hp & Hpr & Hconn & Hcalls)].
  - rewrite Hp, Hc, Hcs. simpl. repeat split; intros; discriminate.
  - rewrite Hp. split; [|split; [|split]].
    + intros i h Hi. pose proof (Forall_lookup_1 _ _ _ _ Hcalls Hi) as H.
      simpl in H. congruence.
    + intros i e Hi. pose proof (Forall_lookup_1 _ _ _ _ Hcalls Hi) as H.
      simpl in H. congruence.
    + intros h Hh. rewrite (Hconn h Hh). reflexivity.
    + intros [= ->]. split.
      * destruct (conn (cached w)) as [h|] eqn:E; [|reflexivity].
        specialize (Hconn h eq_refl). discriminate.
      * intros i c Hi. pose proof (Forall_lookup_1 _ _ _ _ Hcalls Hi) as H.
        destruct c; simpl in H; [congruence|discriminate|discriminate].
Qed.

Lemma calls_end_as_the_attempt_did_witness :
  conn (cached (connectToDatabase initial)) = None
  /\ forall i c, calls (connectToDatabase initial) !! i = Some c -> c = Awaiting 0.
Proof.
  destruct (calls_end_as_the_attempt_did [Invoke] (connectToDatabase initial) eq_refl)
    as (_ & _ & _ & H).
  apply H. reflexivity.
Defined.

(** One step never undoes what the cache and the finished invocations
    hold. *)
Lemma step_keeps w ev w' :
  consistent w -> step w ev = Some w' ->
  (forall h, conn (cached w) = Some h -> conn (cached w') = Some h)
  /\ (forall p, promise (cached w) = Some p -> promise (cached w') = Some p)
  /\ (forall p r, promises w !! p = Some (Done r) -> promises w' !! p = Some (Done r))
  /\ (forall i c, calls w !! i = Some c -> c <> Awaiting 0 -> calls w' !! i = Some c)
  /\ (length (calls w) <= length (calls w'))%nat
  /\ (forall h, conn (cached w) = Some h ->
      forall i c, (length (calls w) <= i)%nat -> calls w' !! i = Some c -> c = Returned h).
Proof.
  intros Hcons Hstep.
  destruct (consistent_cases w Hcons)
    as [(Hp & Hc & Hcs) | (ps & Hp & Hpr & Hconn & Hcalls)].
  - destruct w as [c ps cs]. simpl in *. subst.
    destruct ev as [|p r|i]; simpl in Hstep; [|discriminate|discriminate].
    injection Hstep as <-. simpl.
    repeat split; try discriminate; intros; try discriminate. lia.
  - destruct w as [[cn pr] pss cs]. simpl in *. subst pss pr.
    destruct ev as [|p r|i]; simpl in Hstep.
    + injection Hstep as <-. unfold connectToDatabase. simpl.
      destruct cn as [h|]; simpl.
      * split; [auto|]. split; [auto|]. split; [auto|].
        split; [intros i c Hi _; apply lookup_app_l_Some, Hi|].
        split; [rewrite length_app; simpl; lia|].
        intros h' [= <-] i c Hle Hi.
        rewrite lookup_app_r in Hi by exact Hle.
        apply list_lookup_singleton_Some in Hi as [_ <-]. reflexivity.
      * split; [discriminate|]. split; [auto|]. split; [auto|].
        split; [intros i c Hi _; apply lookup_app_l_Some, Hi|].
        split; [rewrite length_app; simpl; lia|]. discriminate.
    + unfold settle in Hstep. simpl in Hstep.
      destruct p as [|p]; simpl in Hstep; [|discriminate].
      destruct ps; [|discriminate]. injection Hstep as <-. simpl.
      split; [auto|]. split; [auto|].
      split; [intros [|p] r' Hr; simpl in Hr; discriminate|].
      split; [auto|]. split; [lia|].
      intros h Hh. specialize (Hconn h Hh). discriminate.
    + unfold resume in Hstep. simpl in Hstep.
      destruct (cs !! i) as [[q|h0|e0]|] eqn:Ei; try discriminate.
      pose proof (Forall_lookup_1 _ _ _ _ Hcalls Ei) as Hq. simpl in Hq. subst q.
      simpl in Hstep.
      assert (forall x j c, calls {| cached := {| conn := cn; promise := Some 0%nat |};
                                     promises := [ps]; calls := <[i:=x]> cs |} !! j = Some c ->
                            (length cs <= j)%nat -> False) as Hbeyond.
      { simpl. intros x j c Hj Hle. apply lookup_lt_Some in Hj.
        rewrite length_insert in Hj. lia. }
      destruct ps as [|[h|e]]; [discriminate| |]; injection Hstep as <-; simpl.
      * split; [intros h' Hh'; specialize (Hconn h' Hh'); congruence|].
        split; [auto|]. split; [auto|].
        split.
        { intros j c Hj Hne. destruct (decide (i = j)) as [->|Hij].
          - rewrite Ei in Hj. congruence.
          - rewrite list_lookup_insert_ne by exact Hij. exact Hj. }
        split; [rewrite length_insert; lia|].
        intros h' _ j c Hle Hj. exfalso. apply (Hbeyond (Returned h) j c Hj Hle).
      * split; [auto|]. split; [auto|]. split; [auto|].
        split.
        { intros j c Hj Hne. destruct (decide (i = j)) as [->|Hij].
          - rewrite Ei in Hj. congruence.
          - rewrite list_lookup_insert_ne by exact Hij. exact Hj. }
        split; [rewrite length_insert; lia|].
        intros h' _ j c Hle Hj. exfalso. apply (Hbeyond (Threw e) j c Hj Hle).
Qed.

Lemma run_keeps evs : forall w w',
  consistent w -> run w evs = Some w' ->
  (forall h, conn (cached w) = Some h ->
     conn (cached w') = Some h
     /\ forall i c, (length (calls w) <= i)%nat -> calls w' !! i = Some c -> c = Returned h)
  /\ (forall p, promise (cached w) = Some p -> promise (cached w') = Some p)
  /\ (forall p r, promises w !! p = Some (Done r) -> promises w' !! p = Some (Done r))
  /\ (forall i c, calls w !! i = Some c -> c <> Awaiting 0 -> calls w' !! i = Some c).
Proof.
  induction evs as [|ev evs IH]; intros w w' Hcons; simpl.
  - intros [= <-]. repeat split; auto.
    intros i c Hle Hi. apply lookup_lt_Some in Hi. lia.
  - destruct (step w ev) as [w1|] eqn:Hstep; [|discriminate]. intros Hrun.
    destruct (step_keeps w ev w1 Hcons Hstep) as (S1 & S2 & S3 & S4 & S5 & S6).
    destruct (IH w1 w' (consistent_step w ev w1 Hcons Hstep) Hrun)
      as (R1 & R2 & R3 & R4).
    split; [|split; [|split]].
    + intros h Hh. destruct (R1 h (S1 h Hh)) as [Hc Hlater]. split; [exact Hc|].
      intros i c Hle Hi.
      destruct (decide (length (calls w1) <= i)%nat) as [Hge|Hlt].
      * apply (Hlater i c Hge Hi).
      * destruct (lookup_lt_is_Some_2 (calls w1) i ltac:(lia)) as [c1 Hc1].
        pose proof (S6 h Hh i c1 Hle Hc1) as ->.
        rewrite (R4 i (Returned h) Hc1 ltac:(discriminate)) in Hi. congruence.
    + intros p Hp. apply R2, S2, Hp.
    + intros p r Hp. apply R3, (S3 p r Hp).
    + intros i c Hi Hne. apply R4; [apply S4; assumption|exact Hne].
Qed.

(** X15. The cache and the finished invocations are never undone: from any
    state the process can reach and through whatever happens next, a cached
    connection stays the cached connection, the cached promise stays the
    cached promise, a settled attempt stays settled as it was, and an
    invocation that has returned or thrown keeps its result. Once a
    connection is cached, every invocation made from then on returns that
    handle. *)
Theorem cache_is_never_undone evs1 evs2 w1 w2 :
  run initial evs1 = Some w1 -> run w1 evs2 = Some w2 ->
  (forall h, conn (cached w1) = Some h ->
     conn (cached w2) = Some h
     /\ forall i c, (length (calls w1) <= i)%nat -> calls w2 !! i = Some c -> c = Returned h)
  /\ (forall p, promise (cached w1) = Some p -> promise (cached w2) = Some p)
  /\ (forall p r, promises w1 !! p = Some (Done r) -> promises w2 !! p = Some (Done r))
  /\ (forall i c, calls w1 !! i = Some c -> c <> Awaiting 0 -> calls w2 !! i = Some c).
Proof.
  intros H1 H2. apply (run_keeps evs2 w1 w2 (reachable_consistent evs1 w1 H1) H2).
Qed.

Lemma cache_is_never_undone_witness :
  exists w2,
    run initial [Invoke; Settle 0 (Fulfilled 7%N); Resume 0; Invoke; Invoke] = Some w2
    /\ conn (cached w2) = Some 7%N
    /\ forall i c, (1 <= i)%nat -> calls w2 !! i = Some c -> c = Returned 7%N.
Proof.
  eexists. split; [reflexivity|].
  refine (proj1 (cache_is_never_undone
                   [Invoke; Settle 0 (Fulfilled 7%N); Resume 0] [Invoke; Invoke]
                   _ _ eq_refl eq_refl) 7%N eq_refl).
Defined.

(** ** Reloads of the module *)

Import Reload.

Lemma processRun_from_loaded pes : forall w w',
  processRun (Some w) pes = Some (Some w') -> run w (eventsOf pes) = Some w'.
Proof.
  induction pes as [|pe pes IH]; intros w w'; simpl.
  - intros [= <-]. reflexivity.
  - destruct pe as [env|ev]; simpl.
    + unfold loadModule. destruct (negb (present env)); [discriminate|]. apply IH.
    + destruct (step w ev) as [w1|]; [apply IH|discriminate].
Qed.

(** X16. Reloading the module changes nothing: in a process in which the
    module is evaluated any number of times, the state reached is the one
    the events of the module reach without any reload, so there is still at
    most one call of [mongoose.connect], and an evaluation of the module
    resets neither the cached connection nor the cached promise. A history
    goes on only while [MONGODB_URI] is set at every evaluation. *)
Theorem reloads_reuse_the_cache :
  (forall pes w,
      processRun None pes = Some (Some w) ->
      run initial (eventsOf pes) = Some w /\ (length (promises w) <= 1)%nat)
  /\ (forall env w, present env = true -> processStep (Some w) (Load env) = Some (Some w))
  /\ (forall env g, present env = false -> processStep g (Load env) = None).
Proof.
  split; [|split].
  - intros pes w H.
    assert (run initial (eventsOf pes) = Some w) as Hrun.
    { destruct pes as [|[env|ev] pes]; simpl in H; [discriminate| |discriminate].
      unfold loadModule in H. destruct (negb (present env)); [discriminate|].
      apply (processRun_from_loaded pes initial w H). }
    split; [exact Hrun|].
    pose proof (reachable_consistent _ _ Hrun) as Hc.
    destruct (consistent_cases w Hc) as [(-> & _) | (ps & -> & _)]; simpl; lia.
  - intros env w H. simpl. unfold loadModule. rewrite H. reflexivity.
  - intros env g H. simpl. unfold loadModule. rewrite H. reflexivity.
Qed.

Lemma reloads_reuse_the_cache_witness :
  run initial [Invoke; Settle 0 (Fulfilled 7%N); Resume 0; Invoke]
  = Some {| cached := {| conn := Some 7%N; promise := Some 0%nat |};
            promises := [Done (Fulfilled 7%N)];
            calls := [Returned 7%N; Returned 7%N] |}.
Proof.
  destruct reloads_reuse_the_cache as [H _].
  apply (H [Load (Some "mongodb://db"); Run Invoke; Run (Settle 0 (Fulfilled 7%N));
            Run (Resume 0); Load (Some "mongodb://db"); Run Invoke]).
  reflexivity.
Defined.

(** ** Registration of the models *)

Import Schema.

Lemma lookupModel_cons_eq name m models : lookupModel name ((name, m) :: models) = Some m.
Proof. simpl. rewrite String.eqb_refl. reflexivity. Qed.

Lemma lookupModel_cons_ne name other m models :
  other <> name -> lookupModel other ((name, m) :: models) = lookupModel other models.
Proof.
  intros H. simpl. destruct (String.eqb_spec name other) as [E|E]; [congruence|reflexivity].
Qed.

Lemma reuseOrCompile_result name schema models :
  exists models' m,
    reuseOrCompile name schema models = inr (models', m)
    /\ lookupModel name models' = Some m
    /\ (forall m0, lookupModel name models = Some m0 -> m = m0 /\ models' = models)
    /\ (lookupModel name models = None ->
        m = {| modelName := name; schemaOf := schema |})
    /\ (forall other, other <> name -> lookupModel other models' = lookupModel other models).
Proof.
  unfold reuseOrCompile, mongoose_model.
  destruct (lookupModel name models) as [m0|] eqn:E.
  - exists models, m0. repeat split; auto; congruence.
  - eexists _, _. split; [reflexivity|].
    split; [apply lookupModel_cons_eq|]. split; [discriminate|].
    split; [reflexivity|]. intros other Hne. apply lookupModel_cons_ne, Hne.
Qed.

(** X17. "Reuse existing model ... to avoid OverwriteModelError": the last
    statement of a model file never throws. When the name is taken it gives
    back the model that holds it and leaves the registry alone, also when
    the schema at hand is another object than the one that model was
    compiled from, the case in which [mongoose.model] itself throws; when
    the name is free it compiles the model from the schema at hand. Models
    under other names are not touched. *)
Theorem reuseOrCompile_never_overwrites name schema models :
  (exists models' m,
      reuseOrCompile name schema models = inr (models', m)
      /\ lookupModel name models' = Some m
      /\ (forall m0, lookupModel name models = Some m0 -> m = m0 /\ models' = models)
      /\ (lookupModel name models = None ->
          m = {| modelName := name; schemaOf := schema |})
      /\ (forall other, other <> name ->
          lookupModel other models' = lookupModel other models))
  /\ (forall m0,
      lookupModel name models = Some m0 -> schemaOf m0 <> schema ->
      mongoose_model name schema models
      = inl (NewError ("Cannot overwrite `" ++ name ++ "` model once compiled."))).
Proof.
  split; [apply reuseOrCompile_result|].
  intros m0 H Hne. unfold mongoose_model. rewrite H.
  destruct (Nat.eqb_spec (schemaOf m0) schema); [contradiction|reflexivity].
Qed.

Lemma reuseOrCompile_never_overwrites_witness :
  mongoose_model "Event" 2 [("Event", {| modelName := "Event"; schemaOf := 1 |})]
  = inl (NewError "Cannot overwrite `Event` model once compiled.")
  /\ reuseOrCompile "Event" 2 [("Event", {| modelName := "Event"; schemaOf := 1 |})]
     = inr ([("Event", {| modelName := "Event"; schemaOf := 1 |})],
            {| modelName := "Event"; schemaOf := 1 |}).
Proof.
  split.
  - apply (proj2 (reuseOrCompile_never_overwrites "Event" 2
                    [("Event", {| modelName := "Event"; schemaOf := 1 |})])
             {| modelName := "Event"; schemaOf := 1 |}); [reflexivity|].
    simpl. lia.
  - reflexivity.
Defined.

Lemma reuseOrCompile_again name schema schema' models models' m :
  reuseOrCompile name schema models = inr (models', m) ->
  reuseOrCompile name schema' models' = inr (models', m).
Proof.
  intros H.
  destruct (reuseOrCompile_result name schema models) as (ms & m1 & E & Hl & _).
  rewrite E in H. injection H as <- <-.
  unfold reuseOrCompile. rewrite Hl. reflexivity.
Qed.

(** X18. Evaluating the model files again, as a reload does with new schema
    objects, gives the models of the first evaluation and leaves the
    registry as it is: from any registry, [booking.model.ts] evaluates
    without error, and after it both [event.model.ts] and
    [booking.model.ts] evaluate to the same two models whatever schemas
    they are given. *)
Theorem model_files_reload_to_first_models es1 bs1 es2 bs2 models :
  exists models1 event booking,
    loadBookingModel es1 bs1 models = inr (models1, event, booking)
    /\ lookupModel "Event" models1 = Some event
    /\ lookupModel "Booking" models1 = Some booking
    /\ loadEventModel es2 models1 = inr (models1, event)
    /\ loadBookingModel es2 bs2 models1 = inr (models1, event, booking).
Proof.
  unfold loadBookingModel, loadEventModel.
  destruct (reuseOrCompile_result "Event" es1 models) as (ms1 & ev & E1 & L1 & _).
  destruct (reuseOrCompile_result "Booking" bs1 ms1) as (ms2 & bk & E2 & L2 & _ & _ & O2).
  rewrite E1, E2. exists ms2, ev, bk.
  assert (lookupModel "Event" ms2 = Some ev) as L1'
    by (rewrite O2; [exact L1|discriminate]).
  assert (reuseOrCompile "Event" es2 ms2 = inr (ms2, ev)) as R1
    by (unfold reuseOrCompile; rewrite L1'; reflexivity).
  split; [reflexivity|]. split; [exact L1'|]. split; [exact L2|].
  split; [exact R1|].
  rewrite R1, (reuseOrCompile_again "Booking" bs1 bs2 ms1 ms2 bk E2). reflexivity.
Qed.
